(** * SpendLite: the categorisation core of [script.js]

    A shallow embedding of the pure core of the expense tracker: the amount
    and date parsers, the CSV row importer, the rule parser, the keyword
    matcher, [categorise], [computeCategoryTotals] and the rule upsert.

    Conventions.
    - A JavaScript string is a list of characters ([str]).  The development
      covers the ASCII range: [toLowerCase], [toUpperCase] and the regex
      classes [\s] and [\d] act on ASCII characters, other code units are
      carried through unchanged.
    - A JavaScript number is an IEEE 754 binary64 value, Rocq's primitive
      [float].  The aggregator is written once over a small interface of
      arithmetic operations ([Arith]) whose double instance is the program
      and whose rational instance states the laws that hold without rounding.
    - A regular expression is a term of [Regex.regex]; the matcher is a
      backtracking matcher in continuation style, which is how the
      ECMAScript specification defines matching.
    - [undefined] and [null] are [None]. *)

From Stdlib Require Import ZArith List Ascii String Bool Lia Floats.
From Stdlib Require Import QArith Qcanon Permutation.
From Stdlib Require Import DecimalString DecimalZ DecimalPos.
Import ListNotations.

Local Open Scope list_scope.
Local Open Scope bool_scope.

Set Implicit Arguments.

(* ------------------------------------------------------------------------- *)
(** ** Strings *)

Module JS.

Definition str := list ascii.

(** A string literal of the source. *)
Definition js (s : string) : str := list_ascii_of_string s.

Definition code (c : ascii) : nat := nat_of_ascii c.

Definition between (lo hi : nat) (c : ascii) : bool :=
  (lo <=? code c)%nat && (code c <=? hi)%nat.

Definition isUpper : ascii -> bool := between 65 90.
Definition isLower : ascii -> bool := between 97 122.
Definition isDigit : ascii -> bool := between 48 57.
Definition isLetter (c : ascii) : bool := isUpper c || isLower c.

(** [\s] of a regular expression and the characters [trim] removes. *)
Definition isSpace (c : ascii) : bool :=
  between 9 13 c || (code c =? 32)%nat.

Definition lowerChar (c : ascii) : ascii :=
  if isUpper c then ascii_of_nat (code c + 32) else c.

Definition upperChar (c : ascii) : ascii :=
  if isLower c then ascii_of_nat (code c - 32) else c.

(** [toLowerCase] and [toUpperCase] on ASCII strings: the letters A to Z
    and a to z change, every other character is carried through, and the
    length is kept.  Outside ASCII the conversions of JavaScript can change
    the length of a string, so what depends on the conversion of such
    characters is stated for ASCII strings. *)
Definition toLowerCase (s : str) : str := map lowerChar s.
Definition toUpperCase (s : str) : str := map upperChar s.

Definition eqChar (a b : ascii) : bool := Ascii.eqb a b.

Fixpoint eqStr (a b : str) : bool :=
  match a, b with
  | [], [] => true
  | x :: a', y :: b' => eqChar x y && eqStr a' b'
  | _, _ => false
  end.

(** Truthiness of a string: only the empty string is falsy. *)
Definition nonEmpty (s : str) : bool :=
  match s with [] => false | _ :: _ => true end.

Fixpoint dropWhile (p : ascii -> bool) (s : str) : str :=
  match s with
  | c :: s' => if p c then dropWhile p s' else s
  | [] => []
  end.

Definition trimStart (s : str) : str := dropWhile isSpace s.
Definition trimEnd (s : str) : str := rev (dropWhile isSpace (rev s)).
Definition trim (s : str) : str := trimEnd (trimStart s).

Definition startsWithChar (c : ascii) (s : str) : bool :=
  match s with d :: _ => eqChar c d | [] => false end.

Definition LF : ascii := ascii_of_nat 10.
Definition CR : ascii := ascii_of_nat 13.

(** [s.split(/\r?\n/)]: a line feed, with the carriage return in front of it
    when there is one, separates two pieces; there is always one piece. *)
Fixpoint splitLines (s : str) : list str :=
  match s with
  | [] => [[]]
  | c :: rest =>
      if eqChar c LF then [] :: splitLines rest
      else
        match rest with
        | d :: rest' =>
            if eqChar c CR && eqChar d LF then [] :: splitLines rest'
            else
              match splitLines rest with
              | l :: ls => (c :: l) :: ls
              | [] => [[c]]
              end
        | [] => [[c]]
        end
  end.

(** [lines.join("\n")]. *)
Fixpoint joinLines (ls : list str) : str :=
  match ls with
  | [] => []
  | [l] => l
  | l :: ls' => l ++ LF :: joinLines ls'
  end.

(** [s.split(/=>/i)]: the pieces between the occurrences of the arrow. *)
Fixpoint splitArrow (s : str) : list str :=
  match s with
  | [] => [[]]
  | c :: rest =>
      match rest with
      | d :: rest' =>
          if eqChar c "="%char && eqChar d ">"%char then [] :: splitArrow rest'
          else
            match splitArrow rest with
            | p :: ps => (c :: p) :: ps
            | [] => [[c]]
            end
      | [] => [[c]]
      end
  end.

(** [s.split(/\s+/)]: the pieces between the maximal runs of white space;
    [inSep] holds while a run is being skipped. *)
Fixpoint splitRuns (inSep : bool) (s : str) : list str :=
  match s with
  | [] => [[]]
  | c :: rest =>
      if isSpace c then
        if inSep then splitRuns true rest else [] :: splitRuns true rest
      else
        match splitRuns false rest with
        | p :: ps => (c :: p) :: ps
        | [] => [[c]]
        end
  end.

Definition splitWs (s : str) : list str := splitRuns false s.

End JS.
Export JS.

(* ------------------------------------------------------------------------- *)
(** ** Regular expressions *)

Module Regex.

(** The constructs the program's regular expressions use.  [Star p] is the
    greedy [c*] of a character class, [Grp] a capturing group. *)
Inductive regex : Type :=
| Eps
| Bol
| Eol
| Chr (c : ascii)
| Cls (p : ascii -> bool)
| Seq (r1 r2 : regex)
| Alt (r1 r2 : regex)
| Star (p : ascii -> bool)
| Grp (r : regex).

Definition Opt (r : regex) : regex := Alt r Eps.
Definition Plus (p : ascii -> bool) : regex := Seq (Cls p) (Star p).

(** The characters of a literal, one after the other. *)
Fixpoint Lit (s : str) : regex :=
  match s with
  | [] => Eps
  | c :: s' => Seq (Chr c) (Lit s')
  end.

Fixpoint AltOf (r : regex) (rs : list regex) : regex :=
  match rs with
  | [] => r
  | r' :: rs' => Alt r (AltOf r' rs')
  end.

Fixpoint SeqOf (rs : list regex) : regex :=
  match rs with
  | [] => Eps
  | r :: rs' => Seq r (SeqOf rs')
  end.

(** Canonicalisation of a character under the [i] flag. *)
Definition canon (ic : bool) (c : ascii) : ascii :=
  if ic then upperChar c else c.

Definition sameChar (ic : bool) (c d : ascii) : bool :=
  eqChar (canon ic c) (canon ic d).

Section Matcher.
Variable A : Type.

(** Greedy repetition: one more character first, the continuation on
    what is left when that fails. *)
Fixpoint starRun (p : ascii -> bool) (k : bool -> str -> option A)
         (b : bool) (s : str) : option A :=
  match s with
  | c :: s' =>
      if p c then
        match starRun p k false s' with
        | Some x => Some x
        | None => k b s
        end
      else k b s
  | [] => k b s
  end.

(** [run ic r b s cs k]: match [r] at the front of [s], where [b] tells
    whether [s] is the whole input, [cs] are the groups captured so far and
    [k] is what remains to be matched.  The first alternative that lets the
    continuation succeed wins. *)
Fixpoint run (ic : bool) (r : regex) (b : bool) (s : str) (cs : list str)
         (k : bool -> str -> list str -> option A) : option A :=
  match r with
  | Eps => k b s cs
  | Bol => if b then k b s cs else None
  | Eol => match s with [] => k b s cs | _ :: _ => None end
  | Chr c =>
      match s with
      | d :: s' => if sameChar ic c d then k false s' cs else None
      | [] => None
      end
  | Cls p =>
      match s with
      | d :: s' => if p d then k false s' cs else None
      | [] => None
      end
  | Seq r1 r2 => run ic r1 b s cs (fun b' s' cs' => run ic r2 b' s' cs' k)
  | Alt r1 r2 =>
      match run ic r1 b s cs k with
      | Some x => Some x
      | None => run ic r2 b s cs k
      end
  | Star p => starRun p (fun b' s' => k b' s' cs) b s
  | Grp r1 =>
      run ic r1 b s cs
          (fun b' s' cs' =>
             k b' s' (cs' ++ [firstn (List.length s - List.length s') s]))
  end.
End Matcher.

(** The result of a match: the input in front of it, the captured groups
    and the input after it. *)
Record result : Type := mkResult {
  before : str;
  groups : list str;
  after : str
}.

(** The leftmost match: every start position in turn; [pre] is the input
    already passed, last character first. *)
Fixpoint searchFrom (ic : bool) (r : regex) (b : bool) (pre s : str)
  : option result :=
  match run ic r b s [] (fun _ s' cs => Some (mkResult (rev pre) cs s')) with
  | Some x => Some x
  | None =>
      match s with
      | [] => None
      | c :: s' => searchFrom ic r false (c :: pre) s'
      end
  end.

(** [s.match(re)] for a regular expression without the [g] flag. *)
Definition exec (ic : bool) (r : regex) (s : str) : option result :=
  searchFrom ic r true [] s.

(** [re.test(s)]. *)
Definition test (ic : bool) (r : regex) (s : str) : bool :=
  match exec ic r s with Some _ => true | None => false end.

(** [s.replace(re, '')] without the [g] flag: the first match goes. *)
Definition removeFirst (ic : bool) (r : regex) (s : str) : str :=
  match exec ic r s with
  | Some m => before m ++ after m
  | None => s
  end.

End Regex.
Export Regex.

(* ------------------------------------------------------------------------- *)
(** ** The keyword matcher *)

(** The characters of the class [A-Za-z0-9&._]. *)
Definition isWordChar (c : ascii) : bool :=
  isLetter c || isDigit c || eqChar c "&"%char || eqChar c "."%char
  || eqChar c "_"%char.

(** [delim], the class [[^A-Za-z0-9&._]]. *)
Definition delim (c : ascii) : bool := negb (isWordChar c).

(** The expression built for a token.  The token is escaped before it is
    spliced in, so each of its characters stands for itself. *)
Definition keywordRegex (tok : str) : regex :=
  Seq (Alt Bol (Cls delim)) (Seq (Lit tok) (Alt (Cls delim) Eol)).

(** [tokens]: the non-empty pieces of the lower-cased keyword. *)
Definition keywordTokens (keywordLower : str) : list str :=
  filter nonEmpty (splitWs (toLowerCase keywordLower)).

Definition matchesKeyword (descLower keywordLower : str) : bool :=
  if negb (nonEmpty keywordLower) then false
  else
    let text := toLowerCase descLower in
    let tokens := keywordTokens keywordLower in
    if negb ((0 <? List.length tokens)%nat) then false
    else forallb (fun tok => test true (keywordRegex tok) text) tokens.

(* ------------------------------------------------------------------------- *)
(** ** Numbers *)

(** The arithmetic the aggregator uses.  [truthy] is JavaScript's
    conversion to a boolean ([x || 0], [grand ? .. : ..]), [positive] the
    sign test the sort applies to the comparator's result. *)
Class Arith (N : Type) : Type := {
  zero : N;
  hundred : N;
  add : N -> N -> N;
  sub : N -> N -> N;
  mul : N -> N -> N;
  div : N -> N -> N;
  truthy : N -> bool;
  positive : N -> bool
}.

(** JavaScript's numbers: binary64.  Zero, minus zero and NaN are falsy. *)
#[export] Instance F64 : Arith float := {
  zero := 0%float;
  hundred := 100%float;
  add := PrimFloat.add;
  sub := PrimFloat.sub;
  mul := PrimFloat.mul;
  div := PrimFloat.div;
  truthy := fun x => negb (PrimFloat.is_zero x || PrimFloat.is_nan x);
  positive := fun x => PrimFloat.ltb 0%float x
}.

(** Exact decimal arithmetic: the rationals in canonical form. *)
#[export] Instance Exact : Arith Qc := {
  zero := Q2Qc 0;
  hundred := Q2Qc 100;
  add := Qcplus;
  sub := Qcminus;
  mul := Qcmult;
  div := Qcdiv;
  truthy := fun x => negb (Qc_eq_bool x (Q2Qc 0));
  positive := fun x => match Qccompare (Q2Qc 0) x with Lt => true | _ => false end
}.

Module Num.

(** [Number.isFinite]. *)
Definition isFinite (x : float) : bool :=
  negb (PrimFloat.is_nan x || PrimFloat.is_infinity x).

(** [isNaN]. *)
Definition isNaN (x : float) : bool := PrimFloat.is_nan x.

Fixpoint takeWhile (p : ascii -> bool) (s : str) : str :=
  match s with
  | c :: s' => if p c then c :: takeWhile p s' else []
  | [] => []
  end.

Definition digitValue (c : ascii) : Z := Z.of_nat (code c) - 48.

(** The integer a run of decimal digits denotes. *)
Definition digitsValue (ds : str) : Z :=
  fold_left (fun acc c => 10 * acc + digitValue c)%Z ds 0%Z.

(** The double nearest to [m / 10 ^ k], ties to even, for [0 <= m]: the
    quotient is computed to at least 63 bits with a sticky bit below them
    and rounded once. *)
Definition nearestDouble (m : Z) (k : nat) : float :=
  let d := (10 ^ Z.of_nat k)%Z in
  let s := Z.max 0 (Z.log2 d - Z.log2 m + 64) in
  let n := (m * 2 ^ s)%Z in
  let sticky := if (n mod d =? 0)%Z then 0%Z else 1%Z in
  SF2Prim (binary_normalize 53 1024 (2 * (n / d) + sticky) (- (s + 1)) false).

(** [Number(s)] on the strings [parseAmount] hands it, made of digits,
    minus signs and periods: the empty string is 0, an optionally signed
    decimal literal with at least one digit is its nearest double, and
    everything else is NaN. *)
Definition Number (s : str) : float :=
  match s with
  | [] => 0%float
  | _ :: _ =>
      let (neg, body) :=
        match s with
        | c :: s' => if eqChar c "-"%char then (true, s') else (false, s)
        | [] => (false, s)
        end in
      let ip := takeWhile isDigit body in
      let rest := skipn (List.length ip) body in
      let value (fp : str) : float :=
        let v := nearestDouble (digitsValue (ip ++ fp)) (List.length fp) in
        if neg then PrimFloat.opp v else v in
      match rest with
      | [] => if nonEmpty ip then value [] else nan
      | c :: fp =>
          if eqChar c "."%char && forallb isDigit fp
             && (nonEmpty ip || nonEmpty fp)
          then value fp else nan
      end
  end.

End Num.
Export Num.

(** The characters [parseAmount] keeps: the class [[\d\-,.]]. *)
Definition amountChar (c : ascii) : bool :=
  isDigit c || eqChar c "-"%char || eqChar c ","%char || eqChar c "."%char.

(** The two [replace] calls: everything outside the class goes, then the
    commas. *)
Definition cleanAmount (s : str) : str :=
  filter (fun c => negb (eqChar c ","%char)) (filter amountChar s).

Definition parseAmount (raw : option str) : float :=
  match raw with
  | None => 0%float
  | Some s =>
      let n := Number (cleanAmount s) in
      if truthy n then n else 0%float
  end.

(* ------------------------------------------------------------------------- *)
(** ** Transactions and rules *)

(** A transaction as [loadCsvText] builds it; [category] is absent until
    [categorise] or the category picker writes it. *)
Record Txn (N : Type) : Type := mkTxn {
  date : str;
  amount : N;
  description : str;
  category : option str
}.

Arguments mkTxn {N} _ _ _ _.
Arguments date {N} _.
Arguments amount {N} _.
Arguments description {N} _.
Arguments category {N} _.

Definition setCategory {N} (t : Txn N) (c : str) : Txn N :=
  mkTxn (date t) (amount t) (description t) (Some c).

Module Rule.
Record t : Type := mk { keyword : str; category : str }.
End Rule.

Definition UNCATEGORISED : str := js "UNCATEGORISED".
Definition PETROL : str := js "PETROL".
Definition COFFEE : str := js "COFFEE".

(** [x || d] on an optional string: absent and empty are falsy. *)
Definition orElse (x : option str) (d : str) : str :=
  match x with
  | Some s => if nonEmpty s then s else d
  | None => d
  end.

(* ------------------------------------------------------------------------- *)
(** ** The rule parser *)

(** One line of the rule text: the rule it holds, if any. *)
Definition parseRuleLine (line : str) : option Rule.t :=
  let trimmed := trim line in
  if negb (nonEmpty trimmed) || startsWithChar "#"%char trimmed then None
  else
    match splitArrow trimmed with
    | p0 :: p1 :: _ =>
        let keyword := toLowerCase (trim p0) in
        let category := toUpperCase (trim p1) in
        if nonEmpty keyword && nonEmpty category
        then Some (Rule.mk keyword category) else None
    | _ => None
    end.

Fixpoint collect {A B} (f : A -> option B) (l : list A) : list B :=
  match l with
  | [] => []
  | x :: l' =>
      match f x with
      | Some y => y :: collect f l'
      | None => collect f l'
      end
  end.

Definition parseRules (text : str) : list Rule.t :=
  collect parseRuleLine (splitLines text).

(* ------------------------------------------------------------------------- *)
(** ** Categorisation *)

(** Step 1 of the loop body: the category of the first rule that matches,
    [None] for [null]. *)
Fixpoint firstMatch (descLower : str) (rules : list Rule.t) : option str :=
  match rules with
  | [] => None
  | r :: rules' =>
      if matchesKeyword descLower (Rule.keyword r)
      then Some (Rule.category r)
      else firstMatch descLower rules'
  end.

(** [Math.abs(Number(t.amount || t.debit || 0))]; a transaction has no
    [debit] field, so a falsy amount ends at the literal 0. *)
Definition absAmount (t : Txn float) : float :=
  PrimFloat.abs (if truthy (amount t) then amount t else 0%float).

(** Step 2: the petrol override, on a truthy [matched]. *)
Definition override (matched : option str) (amt : float) : option str :=
  match matched with
  | Some c =>
      if nonEmpty c && eqStr (toUpperCase c) PETROL && PrimFloat.leb amt 2%float
      then Some COFFEE else Some c
  | None => None
  end.

(** The body of the loop of [categorise] for one transaction; a
    transaction has no [desc] field, so the description read is
    [t.description]. *)
Definition categoriseTxn (rules : list Rule.t) (t : Txn float) : Txn float :=
  let descLower := toLowerCase (description t) in
  let amt := absAmount t in
  let matched := firstMatch descLower rules in
  let matched := override matched amt in
  setCategory t (orElse matched UNCATEGORISED).

(** [categorise] updates every transaction of the array in place; the
    array after the call is returned. *)
Definition categorise (txns : list (Txn float)) (rules : list Rule.t)
  : list (Txn float) :=
  map (categoriseTxn rules) txns.

(* ------------------------------------------------------------------------- *)
(** ** Category totals *)

Section Totals.
Context {N : Type} {AN : Arith N}.

(** The [Map] of the source keeps its keys in insertion order. *)
Definition catMap : Type := list (str * N).

Fixpoint mapGet (k : str) (m : catMap) : option N :=
  match m with
  | [] => None
  | (k', v) :: m' => if eqStr k k' then Some v else mapGet k m'
  end.

Fixpoint mapSet (k : str) (v : N) (m : catMap) : catMap :=
  match m with
  | [] => [(k, v)]
  | (k', v') :: m' =>
      if eqStr k k' then (k', v) :: m' else (k', v') :: mapSet k v m'
  end.

(** [(t.category || 'UNCATEGORISED').toUpperCase()]. *)
Definition effectiveCategory (t : Txn N) : str :=
  toUpperCase (orElse (category t) UNCATEGORISED).

(** [byCat.get(cat) || 0]. *)
Definition getOrZero (k : str) (m : catMap) : N :=
  match mapGet k m with
  | Some v => if truthy v then v else zero
  | None => zero
  end.

Definition accumulate (m : catMap) (t : Txn N) : catMap :=
  let cat := effectiveCategory t in
  mapSet cat (add (getOrZero cat m) (amount t)) m.

(** The comparator [(a, b) => b[1] - a[1]]. *)
Definition compareRows (a b : str * N) : N := sub (snd b) (snd a).

(** [sort] is stable: a row goes in front of the first row that the
    comparator puts after it. *)
Fixpoint insertRow (x : str * N) (l : catMap) : catMap :=
  match l with
  | [] => [x]
  | y :: l' =>
      if positive (compareRows y x) then x :: l else y :: insertRow x l'
  end.

Definition sortRows (m : catMap) : catMap :=
  fold_left (fun acc x => insertRow x acc) m [].

Definition sumRows (rows : catMap) : N :=
  fold_left (fun acc row => add acc (snd row)) rows zero.

Definition computeCategoryTotals (txns : list (Txn N)) : catMap * N :=
  let byCat := fold_left accumulate txns [] in
  let rows := sortRows byCat in
  let grand := sumRows rows in
  (rows, grand).

(** [grand ? (total / grand * 100) : 0], as both renderers compute it. *)
Definition percentage (grand total : N) : N :=
  if truthy grand then mul (div total grand) hundred else zero.

(** The sum of the amounts, in the order of the transactions. *)
Definition sumAmounts (txns : list (Txn N)) : N :=
  fold_left (fun acc t => add acc (amount t)) txns zero.
End Totals.

(* ------------------------------------------------------------------------- *)
(** ** Dates *)

Module Calendar.
Local Open Scope Z_scope.

(** A [Date] built by [new Date(y, m, d)] is local midnight of a day; the
    day number (days since 1 January 1970) is all that the getters read. *)
Record Date : Type := mkDate { dayNumber : Z }.

(** ECMAScript's [DayFromYear], [DaysInYear] and [InLeapYear]. *)
Definition DayFromYear (y : Z) : Z :=
  365 * (y - 1970) + (y - 1969) / 4 - (y - 1901) / 100 + (y - 1601) / 400.

Definition InLeapYear (y : Z) : bool :=
  (y mod 4 =? 0) && (negb (y mod 100 =? 0) || (y mod 400 =? 0)).

Definition DaysInYear (y : Z) : Z := if InLeapYear y then 366 else 365.

(** [YearFromTime]: the largest year that starts on or before the day.  The
    mean year length gives the year up to one, which the two tests settle. *)
Definition YearFromDay (d : Z) : Z :=
  let y := 1970 + d * 400 / 146097 in
  if d <? DayFromYear y then y - 1
  else if DayFromYear (y + 1) <=? d then y + 1
  else y.

(** The days of the year in front of month [m] (0 for January). *)
Definition daysBefore (leap : bool) (m : Z) : Z :=
  let l := if leap then 1 else 0 in
  if m <=? 0 then 0
  else if m =? 1 then 31
  else if m =? 2 then 59 + l
  else if m =? 3 then 90 + l
  else if m =? 4 then 120 + l
  else if m =? 5 then 151 + l
  else if m =? 6 then 181 + l
  else if m =? 7 then 212 + l
  else if m =? 8 then 243 + l
  else if m =? 9 then 273 + l
  else if m =? 10 then 304 + l
  else if m =? 11 then 334 + l
  else 365 + l.

Definition daysInMonth (leap : bool) (m : Z) : Z :=
  daysBefore leap (m + 1) - daysBefore leap m.

Definition DayWithinYear (d : Z) : Z := d - DayFromYear (YearFromDay d).

(** [MonthFromTime]. *)
Definition MonthFromDay (d : Z) : Z :=
  let leap := InLeapYear (YearFromDay d) in
  let w := DayWithinYear d in
  if w <? daysBefore leap 1 then 0
  else if w <? daysBefore leap 2 then 1
  else if w <? daysBefore leap 3 then 2
  else if w <? daysBefore leap 4 then 3
  else if w <? daysBefore leap 5 then 4
  else if w <? daysBefore leap 6 then 5
  else if w <? daysBefore leap 7 then 6
  else if w <? daysBefore leap 8 then 7
  else if w <? daysBefore leap 9 then 8
  else if w <? daysBefore leap 10 then 9
  else if w <? daysBefore leap 11 then 10
  else 11.

(** [DateFromTime]. *)
Definition DateFromDay (d : Z) : Z :=
  DayWithinYear d - daysBefore (InLeapYear (YearFromDay d)) (MonthFromDay d) + 1.

(** [MakeDay]: the months beyond a year carry into the year, the day of
    the month is added to the first of the month without a range check. *)
Definition MakeDay (year month date : Z) : Z :=
  let ym := year + month / 12 in
  let mn := month mod 12 in
  DayFromYear ym + daysBefore (InLeapYear ym) mn + date - 1.

(** [new Date(y, m, d)]: a year from 0 to 99 stands for 1900 + y. *)
Definition newDate (y m d : Z) : Date :=
  let yr := if (0 <=? y) && (y <=? 99) then 1900 + y else y in
  mkDate (MakeDay yr m d).

Definition getFullYear (t : Date) : Z := YearFromDay (dayNumber t).
Definition getMonth (t : Date) : Z := MonthFromDay (dayNumber t).
Definition getDate (t : Date) : Z := DateFromDay (dayNumber t).

End Calendar.
Export Calendar.

(** [+m[i]] on a captured run of digits. *)
Definition toInt (s : str) : Z := digitsValue s.

Definition digit : regex := Cls isDigit.
Definition digits12 : regex := Seq digit (Opt digit).
Definition digits2 : regex := SeqOf [digit; digit].
Definition digits4 : regex := SeqOf [digit; digit; digit; digit].

(** The class [[\/-]]. *)
Definition dateSep : regex :=
  Cls (fun c => eqChar c "/"%char || eqChar c "-"%char).

(** [/^(\d{4})[\/-](\d{1,2})[\/-](\d{1,2})$/] *)
Definition isoPattern : regex :=
  SeqOf [Bol; Grp digits4; dateSep; Grp digits12; dateSep; Grp digits12; Eol].

(** [/^(\d{1,2})[\/-](\d{1,2})[\/-](\d{4})$/] *)
Definition dmyPattern : regex :=
  SeqOf [Bol; Grp digits12; dateSep; Grp digits12; dateSep; Grp digits4; Eol].

(** [/^\d{1,2}:\d{2}\s*(am|pm)\s*/i] *)
Definition timePrefix : regex :=
  SeqOf [Bol; digits12; Chr ":"%char; digits2; Star isSpace;
         Grp (Alt (Lit (js "am")) (Lit (js "pm"))); Star isSpace].

Definition monthNames : list string :=
  ["January"; "February"; "March"; "April"; "May"; "June"; "July"; "August";
   "September"; "October"; "November"; "December"]%string.

(** The weekday, the day, the month name, the year. *)
Definition prosePattern : regex :=
  SeqOf [Bol;
         Opt (AltOf (Lit (js "Mon"))
                    (map (fun n => Lit (js n))
                         ["Tue"; "Wed"; "Thu"; "Fri"; "Sat"; "Sun"]%string));
         Star isSpace; Grp digits12; Plus isSpace;
         Grp (AltOf (Lit (js "January"))
                    (map (fun n => Lit (js n)) (tl monthNames)));
         Opt (Chr ","%char); Plus isSpace; Grp digits4].

(** [monthMap[monthName]]: the index of a lower-case month name. *)
Fixpoint lookupMonth (name : str) (names : list string) (i : Z) : option Z :=
  match names with
  | [] => None
  | n :: names' =>
      if eqStr name (toLowerCase (js n)) then Some i
      else lookupMonth name names' (i + 1)%Z
  end.

Definition monthMap (name : str) : option Z := lookupMonth name monthNames 0%Z.

Definition parseProse (s2 : str) : option Date :=
  match exec true prosePattern s2 with
  | Some m =>
      match groups m with
      | [m1; m2; m3] =>
          let day := toInt m1 in
          let monthName := toLowerCase m2 in
          let y := toInt m3 in
          match monthMap monthName with
          | Some monthIndex => Some (newDate y monthIndex day)
          | None => None
          end
      | _ => None
      end
  | None => None
  end.

Definition parseDateSmart (s : str) : option Date :=
  if negb (nonEmpty s) then None
  else
    let str := trim s in
    match option_map groups (exec false isoPattern str) with
    | Some [m1; m2; m3] => Some (newDate (toInt m1) (toInt m2 - 1) (toInt m3))
    | _ =>
        match option_map groups (exec false dmyPattern str) with
        | Some [m1; m2; m3] =>
            Some (newDate (toInt m3) (toInt m2 - 1) (toInt m1))
        | _ => parseProse (removeFirst true timePrefix str)
        end
    end.

(* ------------------------------------------------------------------------- *)
(** ** The importer *)

Module COL.
Definition DATE : nat := 2.
Definition DEBIT : nat := 5.
Definition LONGDESC : nat := 9.
End COL.

(** A parsed CSV file: the rows [Papa.parse] returns, each an array of
    cells.  [r[i]] is [undefined] beyond the row. *)
Definition row : Type := list str.

Definition cell (r : row) (i : nat) : option str := nth_error r i.

(** [debit !== 0]. *)
Definition nonZero (x : float) : bool := negb (PrimFloat.eqb x 0%float).

(** The body of the loop for one row: the transaction it yields, if any. *)
Definition importRow (r : row) : option (Txn float) :=
  if (List.length r <? 10)%nat then None
  else
    let effectiveDate := orElse (cell r COL.DATE) [] in
    let debit := parseAmount (cell r COL.DEBIT) in
    let longDesc := trim (orElse (cell r COL.LONGDESC) []) in
    if (nonEmpty effectiveDate || nonEmpty longDesc)
       && isFinite debit && nonZero debit
    then Some (mkTxn effectiveDate debit longDesc None)
    else None.

(** [rows.length && isNaN(parseAmount(rows[0][COL.DEBIT])) ? 1 : 0] *)
Definition startIdx (rows : list row) : nat :=
  match rows with
  | [] => 0
  | r0 :: _ => if isNaN (parseAmount (cell r0 COL.DEBIT)) then 1 else 0
  end.

(** The loop of [loadCsvText]: the array [txns] it fills from the parsed
    rows. *)
Definition importRows (rows : list row) : list (Txn float) :=
  collect importRow (skipn (startIdx rows) rows).

(** The import as the specification words it.  The first row is a header,
    and skipped, when its amount cell does not parse to a finite non-zero
    number.  A data row has at least ten cells; its date, amount and
    description are the cells of the three columns, the amount parsed and
    the description without the white space around it; it gives a
    transaction with these three when the amount is finite and not zero and
    the date or the description is not empty. *)
Definition headerRow (r0 : row) : bool :=
  let a := parseAmount (cell r0 COL.DEBIT) in
  negb (isFinite a && nonZero a).

Definition dataRow (r : row) : option (str * float * str) :=
  let d := nth COL.DATE r [] in
  let a := parseAmount (Some (nth COL.DEBIT r [])) in
  let desc := trim (nth COL.LONGDESC r []) in
  if (10 <=? List.length r)%nat
     && (isFinite a && nonZero a)
     && (nonEmpty d || nonEmpty desc)
  then Some (d, a, desc)
  else None.

Definition importWithHeaderRule (rows : list row)
  : list (str * float * str) :=
  match rows with
  | [] => []
  | r0 :: rest =>
      if headerRow r0 then collect dataRow rest
      else collect dataRow (r0 :: rest)
  end.

(** The date, the amount and the description of a transaction. *)
Definition fieldsOf (t : Txn float) : str * float * str :=
  (date t, amount t, description t).

(* ------------------------------------------------------------------------- *)
(** ** Rule upsert *)

(** The line written for a keyword and a category. *)
Definition ruleLine (keywordUpper categoryUpper : str) : str :=
  keywordUpper ++ js " => " ++ categoryUpper.

(** The test of the loop: the line holds a rule for the keyword. *)
Definition lineHasKeyword (kwLower : str) (l : str) : bool :=
  let line := trim l in
  if negb (nonEmpty line) || startsWithChar "#"%char line then false
  else
    match splitArrow line with
    | p0 :: _ :: _ => eqStr (toLowerCase (trim p0)) kwLower
    | _ => false
    end.

(** The loop: the first line with the keyword is replaced; [None] when the
    loop ends with [updated] still false. *)
Fixpoint updateLines (kwLower newLine : str) (lines : list str)
  : option (list str) :=
  match lines with
  | [] => None
  | l :: ls =>
      if lineHasKeyword kwLower l then Some (newLine :: ls)
      else option_map (cons l) (updateLines kwLower newLine ls)
  end.

(** [addOrUpdateRuleLine] on the text of the rules box: the value returned
    and the text of the box afterwards. *)
Definition addOrUpdateRuleLine (box keywordUpper categoryUpper : str)
  : bool * str :=
  if negb (nonEmpty keywordUpper) || negb (nonEmpty categoryUpper)
  then (false, box)
  else
    let lines := splitLines box in
    let kwLower := toLowerCase keywordUpper in
    let newLine := ruleLine keywordUpper categoryUpper in
    let lines' :=
      match updateLines kwLower newLine lines with
      | Some ls => ls
      | None => lines ++ [newLine]
      end in
    (true, joinLines lines').

(** The rule text after an upsert. *)
Definition upsert (ruleText keyword category : str) : str :=
  snd (addOrUpdateRuleLine ruleText keyword category).

(* ------------------------------------------------------------------------- *)
(** ** Vocabulary of the statements *)

(** [stripPrefix tok s]: what is left of [s] after the characters of
    [tok], compared the way the [i] flag compares them. *)
Fixpoint stripPrefix (tok s : str) : option str :=
  match tok with
  | [] => Some s
  | c :: tok' =>
      match s with
      | d :: s' => if sameChar true c d then stripPrefix tok' s' else None
      | [] => None
      end
  end.

(** The character after an occurrence: none, or a delimiter. *)
Definition rightEdge (s : str) : bool :=
  match s with [] => true | d :: _ => delim d end.

Definition tokenThenEdge (tok s : str) : bool :=
  match stripPrefix tok s with
  | Some rest => rightEdge rest
  | None => false
  end.

(** A match of the keyword expression that starts at the front of [s]. *)
Definition matchHere (tok : str) (b : bool) (s : str) : bool :=
  (b && tokenThenEdge tok s)
  || match s with d :: s' => delim d && tokenThenEdge tok s' | [] => false end.

Fixpoint matchSomewhere (tok : str) (b : bool) (s : str) : bool :=
  matchHere tok b s
  || match s with [] => false | _ :: s' => matchSomewhere tok false s' end.

Definition isSome {A} (o : option A) : bool :=
  match o with Some _ => true | None => false end.

(** The specification's wording: the token stands in the text with a
    non-word character or a string edge on both sides. *)
Definition leftBounded (pre : str) : Prop :=
  pre = [] \/ exists p c, pre = p ++ [c] /\ isWordChar c = false.

Definition rightBounded (post : str) : Prop :=
  post = [] \/ exists c q, post = c :: q /\ isWordChar c = false.

Definition boundedIn (tok text : str) : Prop :=
  exists pre post,
    text = pre ++ tok ++ post /\ leftBounded pre /\ rightBounded post.

(** A string in which lower-casing changes nothing. *)
Definition lowerFixed (s : str) : Prop := forall c, In c s -> lowerChar c = c.

(** The left side of an occurrence found from a position where [b] tells
    whether the string starts there. *)
Definition leftEdge (b : bool) (pre : str) : Prop :=
  (pre = [] /\ b = true) \/ exists p c, pre = p ++ [c] /\ isWordChar c = false.

(** The keyword of a rule matches a description, in the specification's
    words: there is a token, and every token stands bounded in the
    lower-cased description. *)
Definition keywordMatches (keyword desc : str) : Prop :=
  keywordTokens keyword <> [] /\
  forall tok, In tok (keywordTokens keyword) ->
              boundedIn tok (toLowerCase desc).

(** The rule is the first of the list, in list order, whose keyword
    matches the description of the transaction. *)
Definition firstMatchingRule (rules : list Rule.t) (t : Txn float)
           (r : Rule.t) : Prop :=
  exists pre post,
    rules = pre ++ r :: post /\
    (forall r', In r' pre -> ~ keywordMatches (Rule.keyword r') (description t)) /\
    keywordMatches (Rule.keyword r) (description t).

Definition noRuleMatches (rules : list Rule.t) (t : Txn float) : Prop :=
  forall r, In r rules -> ~ keywordMatches (Rule.keyword r) (description t).

(** The category is PETROL in any letter case and the absolute amount, as
    [categorise] reads it, is at most 2. *)
Definition petrolOverride (c : str) (t : Txn float) : bool :=
  eqStr (toUpperCase c) PETROL && PrimFloat.leb (absAmount t) 2%float.

(** What [categorise] assigns: the first matching rule's category, COFFEE
    in its place under the override, the sentinel when no rule matches. *)
Definition assignedCategory (rules : list Rule.t) (t : Txn float) (c : str)
  : Prop :=
  (exists r, firstMatchingRule rules t r /\
             c = if petrolOverride (Rule.category r) t then COFFEE
                 else Rule.category r)
  \/ (noRuleMatches rules t /\ c = UNCATEGORISED).

(** Every rule has a category, as every rule of [parseRules] has. *)
Definition wellFormed (rules : list Rule.t) : Prop :=
  forall r, In r rules -> Rule.category r <> [].

(** The transaction with the sign of its amount flipped. *)
Definition negated (t : Txn float) : Txn float :=
  mkTxn (date t) (PrimFloat.opp (amount t)) (description t) (category t).

(** The rules and the transaction of the specification's worked example. *)
Definition exampleRules : list Rule.t :=
  parseRules (js "woolworths => GROCERIES" ++ LF :: js "petrol => PETROL").

Definition exampleTxn : Txn float :=
  mkTxn (js "01/02/2024") 1.5%float (js "PETROL STATION #4") None.

(** The same purchase for 50.00, and a purchase of 1.50 at a grocer's. *)
Definition fuelTxn : Txn float :=
  mkTxn (js "01/02/2024") 50%float (js "PETROL STATION #4") None.

Definition groceryTxn : Txn float :=
  mkTxn (js "01/02/2024") 1.5%float (js "WOOLWORTHS 1234 SYDNEY") None.

(** An amount cell of four hundred digits. *)
Definition hugeAmount : str := repeat "9"%char 400.

(** The sum of the percentages the renderers show next to the rows. *)
Definition sumPercentages {N : Type} {AN : Arith N} (grand : N)
           (rows : list (str * N)) : N :=
  fold_left (fun acc row => add acc (percentage grand (snd row))) rows zero.

(** A transaction of the aggregator: a category and an amount. *)
Definition entry {N : Type} (c : string) (a : N) : Txn N :=
  mkTxn [] a [] (Some (js c)).

(** Three amounts in two categories, as the importer reads them. *)
Definition threeAmounts : list (Txn float) :=
  [entry "A" (parseAmount (Some (js "0.10")));
   entry "B" (parseAmount (Some (js "0.20")));
   entry "B" (parseAmount (Some (js "0.30")))].

(** The sum of the totals of a map and the sum of the amounts of a list of
    transactions in exact arithmetic, from the right. *)
Fixpoint total (m : list (str * Qc)) : Qc :=
  match m with
  | [] => Q2Qc 0
  | kv :: m' => Qcplus (snd kv) (total m')
  end.

Fixpoint amountsTotal (txns : list (Txn Qc)) : Qc :=
  match txns with
  | [] => Q2Qc 0
  | t :: txns' => Qcplus (amount t) (amountsTotal txns')
  end.

(** The number of groups a match of the expression captures, and the
    expressions for which that number does not depend on the alternative
    taken. *)
Fixpoint groupCount (r : regex) : nat :=
  match r with
  | Seq r1 r2 => groupCount r1 + groupCount r2
  | Alt r1 _ => groupCount r1
  | Grp r1 => S (groupCount r1)
  | _ => 0
  end.

Fixpoint uniform (r : regex) : bool :=
  match r with
  | Seq r1 r2 => uniform r1 && uniform r2
  | Alt r1 r2 =>
      uniform r1 && uniform r2 && (groupCount r1 =? groupCount r2)%nat
  | Grp r1 => uniform r1
  | _ => true
  end.

(** The year, the month counted from 1 and the day of the month that a
    date shows. *)
Definition shown (t : Date) : Z * Z * Z :=
  (getFullYear t, (getMonth t + 1)%Z, getDate t).

(** The digits written for a month and a day name a day of the calendar
    of the year. *)
Definition inCalendar (y m d : Z) : Prop :=
  (1 <= m <= 12 /\ 1 <= d <= daysInMonth (InLeapYear y) (m - 1))%Z.

(** The date lies in the month before or after month [m] of year [y], or
    in the year before or after [y]. *)
Definition adjacentMonthOrYear (y m : Z) (t : Date) : Prop :=
  (getFullYear t = y /\ (getMonth t + 1 = m + 1 \/ getMonth t + 1 = m - 1))%Z
  \/ (getFullYear t = y + 1)%Z \/ (getFullYear t = y - 1)%Z.

(** What a parsed date shows, for a date string of the source. *)
Definition shownDate (s : string) : option (Z * Z * Z) :=
  option_map shown (parseDateSmart (js s)).

(** The string holds the arrow of the rule format. *)
Fixpoint hasArrow (s : str) : bool :=
  match s with
  | [] => false
  | c :: rest =>
      match rest with
      | d :: _ => (eqChar c "="%char && eqChar d ">"%char) || hasArrow rest
      | [] => false
      end
  end.

(** The last character of the string is a carriage return. *)
Fixpoint endsWithCR (s : str) : bool :=
  match s with
  | [] => false
  | c :: rest =>
      match rest with
      | [] => eqChar c CR
      | _ :: _ => endsWithCR rest
      end
  end.

(** A keyword that [upsert] finds again in the line it writes: no white
    space around it, no arrow and no line feed in it, no [#] in front. *)
Definition plainKeyword (kw : str) : Prop :=
  trim kw = kw /\ hasArrow kw = false /\ ~ In LF kw
  /\ startsWithChar "#"%char kw = false.

(** A category that stays on the line it is written on. *)
Definition plainCategory (cat : str) : Prop :=
  ~ In LF cat /\ endsWithCR cat = false.

(** A rule text whose lines end at the line feed, or at the carriage
    return and line feed, and not after a further carriage return. *)
Definition plainText (text : str) : Prop :=
  Forall (fun l => endsWithCR l = false) (splitLines text).

(** A line that [split] gives back after [join]: no line feed in it and no
    carriage return at its end. *)
Definition lineOk (l : str) : Prop := ~ In LF l /\ endsWithCR l = false.

(** A rule text with a comment and a rule, and the keyword the VISA
    heuristic derives from the description "VISA-#1 PIZZA". *)
Definition sampleRules : str :=
  js "# Rules format: KEYWORD => CATEGORY" ++ LF :: js "foo => BAR".

Definition hashKeyword : str := js "#1".

(* ------------------------------------------------------------------------- *)
(** ** Text utilities *)

(** [s.replace(/c/g, r)] for a single character [c]. *)
Definition replaceChar (c : ascii) (r : str) (s : str) : str :=
  flat_map (fun x => if eqChar x c then r else [x]) s.

Definition QUOT : ascii := ascii_of_nat 34.
Definition APOS : ascii := ascii_of_nat 39.

(** [escapeHtml]: the five replacements, the ampersand first. *)
Definition escapeHtml (s : str) : str :=
  replaceChar APOS (js "&#039;")
    (replaceChar QUOT (js "&quot;")
       (replaceChar ">"%char (js "&gt;")
          (replaceChar "<"%char (js "&lt;")
             (replaceChar "&"%char (js "&amp;") s)))).

(** [s.replace(/[class]+/g, r)]: every maximal run of characters of the
    class becomes [r]; [inRun] holds while a run is being passed. *)
Fixpoint replaceRuns (p : ascii -> bool) (r : str) (inRun : bool) (s : str)
  : str :=
  match s with
  | [] => []
  | c :: rest =>
      if p c then
        if inRun then replaceRuns p r true rest
        else r ++ replaceRuns p r true rest
      else c :: replaceRuns p r false rest
  end.

(** [forFilename]: white space becomes underscores. *)
Definition forFilename (label : str) : str :=
  replaceRuns isSpace ["_"%char] false label.

(** [\w] of a regular expression. *)
Definition isW (c : ascii) : bool :=
  isLetter c || isDigit c || eqChar c "_"%char.

(** [s.replace(/\b([a-z])/g, (m, p1) => p1.toUpperCase())]: a lower-case
    letter after a character that is not of [\w], or at the start, is put in
    upper case; [prevW] tells whether the character in front is of [\w]. *)
Fixpoint capitalise (prevW : bool) (s : str) : str :=
  match s with
  | [] => []
  | c :: rest =>
      (if isLower c && negb prevW then upperChar c else c)
        :: capitalise (isW c) rest
  end.

Definition isDashOrUnderscore (c : ascii) : bool :=
  eqChar c "_"%char || eqChar c "-"%char.

Definition toTitleCase (s : str) : str :=
  if negb (nonEmpty s) then []
  else
    capitalise false
      (trim (replaceRuns isSpace [" "%char] false
               (replaceRuns isDashOrUnderscore [" "%char] false
                  (toLowerCase s)))).

(* ------------------------------------------------------------------------- *)
(** ** Keyword derivation *)

Fixpoint isPrefix (p s : str) : bool :=
  match p with
  | [] => true
  | c :: p' =>
      match s with
      | d :: s' => eqChar c d && isPrefix p' s'
      | [] => false
      end
  end.

(** [hay.indexOf(needle)]: [None] for -1. *)
Fixpoint indexOf (needle hay : str) : option nat :=
  if isPrefix needle hay then Some 0%nat
  else
    match hay with
    | [] => None
    | _ :: hay' => option_map S (indexOf needle hay')
    end.

(** The class [[\s\-:\/*]]. *)
Definition markerSep (c : ascii) : bool :=
  isSpace c || eqChar c "-"%char || eqChar c ":"%char || eqChar c "/"%char
  || eqChar c "*"%char.

(** [/^[\s\-:\/*]+/] and [/^([A-Za-z0-9&._]+)/] *)
Definition leadingSeps : regex := Seq Bol (Plus markerSep).
Definition leadingToken : regex := Seq Bol (Grp (Plus isWordChar)).

(** [/([A-Za-z0-9&._]{3,})/] *)
Definition merchantToken : regex :=
  Grp (SeqOf [Cls isWordChar; Cls isWordChar; Cls isWordChar; Star isWordChar]).

Definition nextWordAfter (marker desc : str) : str :=
  let lower := toLowerCase desc in
  match indexOf (toLowerCase marker) lower with
  | None => []
  | Some i =>
      let after := skipn (i + List.length marker) desc in
      let after := removeFirst false leadingSeps after in
      match option_map groups (exec false leadingToken after) with
      | Some (m1 :: _) => m1
      | _ => []
      end
  end.

(** [/\bWORD\b/.test(s)] for a word made of [\w] characters: the word
    stands in [s] with no [\w] character on either side; [prevW] tells
    whether the character in front is of [\w]. *)
Fixpoint containsWord (word : str) (prevW : bool) (s : str) : bool :=
  (negb prevW && isPrefix word s
   && match skipn (List.length word) s with
      | [] => true
      | c :: _ => negb (isW c)
      end)
  || match s with
     | [] => false
     | c :: s' => containsWord word (isW c) s'
     end.

(** [deriveKeywordFromTxn], for a transaction that is there; it has no
    [desc] field. *)
Definition deriveKeywordFromTxn {N : Type} (txn : Txn N) : str :=
  let desc := trim (description txn) in
  if negb (nonEmpty desc) then []
  else
    let up := toUpperCase desc in
    if containsWord (js "PAYPAL") false up then
      let nxt := nextWordAfter (js "paypal") desc in
      toUpperCase (js "PAYPAL"
                   ++ (if nonEmpty nxt then " "%char :: nxt else []))
    else
      let generic :=
        match option_map groups (exec false merchantToken desc) with
        | Some (m1 :: _) => toUpperCase m1
        | _ => []
        end in
      match indexOf (js "VISA-") up with
      | Some visaPos =>
          let after := trim (skipn (visaPos + 5) desc) in
          let token := match splitWs after with
                       | t0 :: _ => t0
                       | [] => []
                       end in
          if nonEmpty token then toUpperCase token else generic
      | None => generic
      end.

(** What [escapeHtml] writes for one character. *)
Definition escapeChar (c : ascii) : str :=
  if eqChar c "&"%char then js "&amp;"
  else if eqChar c "<"%char then js "&lt;"
  else if eqChar c ">"%char then js "&gt;"
  else if eqChar c QUOT then js "&quot;"
  else if eqChar c APOS then js "&#039;"
  else [c].

(** The characters that open or close markup or an attribute value. *)
Definition isMarkup (c : ascii) : bool :=
  eqChar c "<"%char || eqChar c ">"%char || eqChar c QUOT || eqChar c APOS.

(** White space in normal form: single spaces only, none after a run when
    [inRun] holds. *)
Fixpoint normalWs (inRun : bool) (s : str) : bool :=
  match s with
  | [] => true
  | c :: rest =>
      if isSpace c then negb inRun && eqChar c " "%char && normalWs true rest
      else normalWs false rest
  end.

(** The string that [toTitleCase] capitalises. *)
Definition normalised (s : str) : str :=
  trim (replaceRuns isSpace [" "%char] false
          (replaceRuns isDashOrUnderscore [" "%char] false (toLowerCase s))).

(** The category the rules give a keyword: that of the first rule with the
    keyword. *)
Fixpoint lookupRule (kwLower : str) (rules : list Rule.t) : option str :=
  match rules with
  | [] => None
  | r :: rules' =>
      if eqStr (Rule.keyword r) kwLower then Some (Rule.category r)
      else lookupRule kwLower rules'
  end.

(* ------------------------------------------------------------------------- *)
(** ** The month filter *)

(** [String(n)] on an integer: its decimal digits, with a minus sign in
    front of a negative one. *)
Definition decimal (z : Z) : str :=
  list_ascii_of_string (NilZero.string_of_int (Z.to_int z)).

(** [s.padStart(n, c)] with a pad string of one character. *)
Definition padStart (n : nat) (c : ascii) (s : str) : str :=
  repeat c (n - List.length s) ++ s.

Definition yyyymm (d : Date) : str :=
  decimal (getFullYear d)
  ++ "-"%char :: padStart 2 "0"%char (decimal (getMonth d + 1)).

(** The test of the filter: [d && yyyymm(d) === MONTH_FILTER]. *)
Definition inMonth {N} (MONTH_FILTER : str) (t : Txn N) : bool :=
  match parseDateSmart (date t) with
  | Some d => eqStr (yyyymm d) MONTH_FILTER
  | None => false
  end.

(** [MONTH_FILTER] is the empty string when no month is selected. *)
Definition monthFilteredTxns {N} (MONTH_FILTER : str)
    (CURRENT_TXNS : list (Txn N)) : list (Txn N) :=
  if negb (nonEmpty MONTH_FILTER) then CURRENT_TXNS
  else filter (inMonth MONTH_FILTER) CURRENT_TXNS.

(** The dates [parseDateSmart] builds are never invalid, so the [isNaN]
    test of the source never fires. *)
Definition getFirstTxnMonth {N} (txns : list (Txn N)) : option str :=
  match txns with
  | [] => None
  | t :: _ =>
      match parseDateSmart (date t) with
      | Some d => Some (yyyymm d)
      | None => None
      end
  end.

(* ------------------------------------------------------------------------- *)
(** ** The category filter *)

(** [CURRENT_FILTER] is null or the empty string when no category is
    selected. *)
Definition getFilteredTxns {N} (CURRENT_FILTER : option str)
    (txns : list (Txn N)) : list (Txn N) :=
  match CURRENT_FILTER with
  | Some f =>
      if negb (nonEmpty f) then txns
      else filter (fun t => eqStr (effectiveCategory t) f) txns
  | None => txns
  end.

(** The categories of the rows, in the order of the rows. *)
Definition keys {N} (m : list (str * N)) : list str := map fst m.


(** Each row's total is at most the total of the row in front of it. *)
Fixpoint descending (rows : list (str * Qc)) : Prop :=
  match rows with
  | a :: rest =>
      match rest with
      | b :: _ => Qcle (snd b) (snd a) /\ descending rest
      | [] => True
      end
  | [] => True
  end.

(** What the map holds for a category, nothing counting as zero. *)
Definition held (k : str) (m : list (str * Qc)) : Qc :=
  match mapGet k m with
  | Some v => v
  | None => Q2Qc 0
  end.

(* ------------------------------------------------------------------------- *)
(** ** The pages of the transaction table *)

Definition PAGE_SIZE : Z := 10.

(** [Math.max(1, Math.ceil(n / PAGE_SIZE))] for the length of a list. *)
Definition totalPages (n : Z) : Z := Z.max 1 (- ((- n) / PAGE_SIZE)).

(** The two tests that bring [CURRENT_PAGE] back into range. *)
Definition clampPage (CURRENT_PAGE pages : Z) : Z :=
  let p := if (pages <? CURRENT_PAGE)%Z then pages else CURRENT_PAGE in
  if (p <? 1)%Z then 1%Z else p.

(** [a.slice(start, end)] for indices that are not negative. *)
Definition slice {A} (start end_ : Z) (a : list A) : list A :=
  firstn (Z.to_nat (end_ - start)) (skipn (Z.to_nat start) a).

(** The page [renderTransactionsTable] settles on and the items it shows. *)
Definition pageItems {A} (CURRENT_PAGE : Z) (filtered : list A) : Z * list A :=
  let pages := totalPages (Z.of_nat (List.length filtered)) in
  let page := clampPage CURRENT_PAGE pages in
  let start := ((page - 1) * PAGE_SIZE)%Z in
  (page, slice start (start + PAGE_SIZE) filtered).

(** The first and the last page number [renderPager] shows, and the pages
    the Prev and the Next button lead to. *)
Definition pagerWindow (totalPages cur : Z) : Z * Z :=
  let pages := if (totalPages =? 0)%Z then 1%Z else totalPages in
  let windowSize := 5%Z in
  let start := Z.max 1 (cur - windowSize / 2) in
  let end_ := Z.min pages (start + windowSize - 1) in
  let start := Z.max 1 (Z.min start (end_ - windowSize + 1)) in
  (start, end_).

Definition prevPage (cur : Z) : Z := Z.max 1 (cur - 1).

Definition nextPage (totalPages cur : Z) : Z :=
  let pages := if (totalPages =? 0)%Z then 1%Z else totalPages in
  Z.min pages (cur + 1).

(** The page numbers from 1 to [pages]. *)
Definition pageNumbers (pages : Z) : list Z :=
  map Z.of_nat (seq 1 (Z.to_nat pages)).


(** The string starts with three characters of the keyword class. *)
Definition threeWord (s : str) : bool :=
  match s with
  | a :: b :: c :: _ => isWordChar a && isWordChar b && isWordChar c
  | _ => false
  end.

(* ------------------------------------------------------------------------- *)
(** ** Transactions as shared objects *)

(** The transaction objects by address.  An array holds addresses, and the
    array that [filter] builds holds the addresses of the objects it keeps,
    so [categorise] on the filtered array writes to the objects of
    [CURRENT_TXNS]. *)
Definition heap : Type := list (Txn float).

(** The objects of an array. *)
Definition deref (h : heap) (arr : list nat) : list (Txn float) :=
  flat_map (fun r => match nth_error h r with
                     | Some t => [t]
                     | None => []
                     end) arr.

(** A write to the object at an address. *)
Fixpoint store (h : heap) (r : nat) (t : Txn float) : heap :=
  match h with
  | [] => []
  | x :: h' =>
      match r with
      | O => t :: h'
      | S r' => x :: store h' r' t
      end
  end.

Definition monthFilteredRefs (MONTH_FILTER : str) (h : heap)
    (CURRENT_TXNS : list nat) : list nat :=
  if negb (nonEmpty MONTH_FILTER) then CURRENT_TXNS
  else filter (fun r => match nth_error h r with
                        | Some t => inMonth MONTH_FILTER t
                        | None => false
                        end) CURRENT_TXNS.

(** The body of the loop of [categorise] on the object at an address:
    [t.category = ...]. *)
Definition categoriseRef (rules : list Rule.t) (h : heap) (r : nat) : heap :=
  match nth_error h r with
  | Some t => store h r (categoriseTxn rules t)
  | None => h
  end.

(** [categorise] on an array of addresses, each object in turn. *)
Definition categoriseRefs (txns : list nat) (rules : list Rule.t) (h : heap)
  : heap :=
  fold_left (categoriseRef rules) txns h.

(** What [applyRulesAndRender] does to the transactions: the rules are
    parsed from the text box and applied to the array
    [monthFilteredTxns()] returns. *)
Definition applyRules (rulesBox MONTH_FILTER : str) (CURRENT_TXNS : list nat)
    (h : heap) : heap :=
  let CURRENT_RULES := parseRules rulesBox in
  let txns := monthFilteredRefs MONTH_FILTER h CURRENT_TXNS in
  categoriseRefs txns CURRENT_RULES h.

(** [loadCsvText] on the parsed rows, with the rule text and the month
    filter the page holds: the loop builds the transaction objects,
    [CURRENT_TXNS] becomes the array of them, [applyRulesAndRender()]
    writes the categories, and the array is returned, so the transactions
    returned are the objects as [categorise] has left them. *)
Definition loadCsvText (rulesBox MONTH_FILTER : str) (rows : list row)
  : list (Txn float) :=
  let txns := importRows rows in
  let CURRENT_TXNS := seq 0 (List.length txns) in
  deref (applyRules rulesBox MONTH_FILTER CURRENT_TXNS txns) CURRENT_TXNS.

(** The transaction is in the list [monthFilteredTxns] gives. *)
Definition inSelectedMonth (MONTH_FILTER : str) (t : Txn float) : bool :=
  negb (nonEmpty MONTH_FILTER) || inMonth MONTH_FILTER t.

(** The transaction as [applyRulesAndRender] leaves it. *)
Definition recategorised (rulesBox MONTH_FILTER : str) (t : Txn float)
  : Txn float :=
  if inSelectedMonth MONTH_FILTER t
  then categoriseTxn (parseRules rulesBox) t
  else t.

(** A bank export with a title row and two data rows, and the same export
    without the title row. *)
Definition titleRow : row :=
  map js ["Account"; "Date"; "Effective Date"; "Cheque"; "Credit";
          "Debit Amount"; "Balance"; "Type"; "Code";
          "Long Description"]%string.

Definition coffeeRow : row :=
  map js [""; ""; "01/02/2024"; ""; ""; "4.50"; ""; ""; "";
          " COFFEE SHOP "]%string.

Definition rentRow : row :=
  map js [""; ""; "02/02/2024"; ""; ""; "1,200.00"; ""; ""; "";
          "RENT"]%string.

(** Every character of the string is an ASCII character.  On such strings
    [toLowerCase] and [toUpperCase] above are the conversions of
    JavaScript, which change the letters and keep the length; outside
    ASCII the conversions of JavaScript can change the length of a string
    (the sharp s becomes SS). *)
Definition asciiOnly (s : str) : bool :=
  forallb (fun c => (code c <? 128)%nat) s.

(* ------------------------------------------------------------------------- *)
(** ** Dates as they are written *)

(** The character of a decimal digit. *)
Definition digitChar (k : Z) : ascii := ascii_of_nat (48 + Z.to_nat k).

(** A number on two and on four decimal digits, zeros in front. *)
Definition written2 (n : Z) : str :=
  [digitChar (n / 10 mod 10); digitChar (n mod 10)]%Z.

Definition written4 (n : Z) : str :=
  [digitChar (n / 1000 mod 10); digitChar (n / 100 mod 10);
   digitChar (n / 10 mod 10); digitChar (n mod 10)]%Z.

(** A date written year first with hyphens, and day first with slashes,
    the year on four digits, the month and the day on two. *)
Definition isoText (y m d : Z) : str :=
  written4 y ++ "-"%char :: written2 m ++ "-"%char :: written2 d.

Definition dmyText (y m d : Z) : str :=
  written2 d ++ "/"%char :: written2 m ++ "/"%char :: written4 y.

(** The year [new Date] takes a year for. *)
Definition centuryYear (y : Z) : Z :=
  if (0 <=? y)%Z && (y <=? 99)%Z then (1900 + y)%Z else y.

(* ------------------------------------------------------------------------- *)
(** ** The month dropdown *)

(** [months.add(x)] on a [Set], which keeps insertion order. *)
Definition setAdd (x : str) (months : list str) : list str :=
  if existsb (eqStr x) months then months else months ++ [x].

(** The order of the default [sort]: strings by their code units. *)
Fixpoint leStr (a b : str) : bool :=
  match a with
  | [] => true
  | x :: a' =>
      match b with
      | [] => false
      | y :: b' =>
          if (code x <? code y)%nat then true
          else if (code y <? code x)%nat then false
          else leStr a' b'
      end
  end.

Fixpoint insertStr (x : str) (l : list str) : list str :=
  match l with
  | [] => [x]
  | y :: l' => if leStr y x then y :: insertStr x l' else x :: l
  end.

Definition sortStrings (l : list str) : list str :=
  fold_left (fun acc x => insertStr x acc) l [].

(** The values of the options [rebuildMonthDropdown] lists after
    "All months". *)
Definition monthOptions {N} (CURRENT_TXNS : list (Txn N)) : list str :=
  let months :=
    fold_left (fun months t =>
                 match parseDateSmart (date t) with
                 | Some d => setAdd (yyyymm d) months
                 | None => months
                 end) CURRENT_TXNS [] in
  sortStrings months.

(* ========================================================================= *)
(** * Properties *)

(* ------------------------------------------------------------------------- *)
(** ** Characters and strings *)

Section StringFacts.

Lemma eqChar_true (a b : ascii) : eqChar a b = true <-> a = b.
Proof. apply Ascii.eqb_eq. Qed.

Lemma eqChar_refl (a : ascii) : eqChar a a = true.
Proof. apply Ascii.eqb_refl. Qed.

Lemma eqStr_true (a b : str) : eqStr a b = true <-> a = b.
Proof.
  revert b; induction a as [|x a IH]; intros [|y b]; simpl;
    try (split; [discriminate | discriminate]); try tauto.
  rewrite andb_true_iff, eqChar_true, IH.
  split; [intros [-> ->]; reflexivity | intros H; inversion H; auto].
Qed.

Lemma eqStr_refl (a : str) : eqStr a a = true.
Proof. apply eqStr_true; reflexivity. Qed.

Lemma eqStr_false (a b : str) : eqStr a b = false <-> a <> b.
Proof.
  split.
  - intros H E. apply eqStr_true in E. congruence.
  - intros H. destruct (eqStr a b) eqn:E; [|reflexivity].
    apply eqStr_true in E. contradiction.
Qed.

Lemma nonEmpty_true (s : str) : nonEmpty s = true <-> s <> [].
Proof. destruct s; simpl; split; congruence. Qed.

(** Case conversion, character by character. *)
Lemma lowerChar_idem (c : ascii) : lowerChar (lowerChar c) = lowerChar c.
Proof. destruct c as [[] [] [] [] [] [] [] []]; reflexivity. Qed.

Lemma lower_upper_fixed (c : ascii) :
  lowerChar c = c -> lowerChar (upperChar c) = c.
Proof.
  destruct c as [[] [] [] [] [] [] [] []]; intros H;
    solve [reflexivity | discriminate H].
Qed.

Lemma upperChar_inj_lower (c d : ascii) :
  lowerChar c = c -> lowerChar d = d -> upperChar c = upperChar d -> c = d.
Proof.
  intros Hc Hd H.
  rewrite <- (lower_upper_fixed Hc), <- (lower_upper_fixed Hd), H.
  reflexivity.
Qed.

Lemma toLowerCase_idem (s : str) : toLowerCase (toLowerCase s) = toLowerCase s.
Proof.
  unfold toLowerCase. rewrite map_map.
  apply map_ext; intros; apply lowerChar_idem.
Qed.

Lemma toLowerCase_fixed (s : str) (c : ascii) :
  In c (toLowerCase s) -> lowerChar c = c.
Proof.
  unfold toLowerCase. rewrite in_map_iff.
  intros [x [<- _]]. apply lowerChar_idem.
Qed.

(** The pieces of [split(/\s+/)] are made of characters of the string. *)
Lemma splitRuns_chars (s : str) :
  forall b p c, In p (splitRuns b s) -> In c p -> In c s.
Proof.
  induction s as [|x s IH]; intros b p c Hp Hc; simpl in Hp.
  - destruct Hp as [<-|[]]. destruct Hc.
  - destruct (isSpace x).
    + right. destruct b; simpl in Hp.
      * eapply IH; eauto.
      * destruct Hp as [<-|Hp]; [destruct Hc | eapply IH; eauto].
    + destruct (splitRuns false s) as [|q qs] eqn:E.
      * destruct Hp as [<-|[]]. destruct Hc as [<-|[]]. now left.
      * destruct Hp as [<-|Hp].
        -- destruct Hc as [<-|Hc]; [now left|right].
           apply (IH false q c); [rewrite E; now left | exact Hc].
        -- right. apply (IH false p c); [rewrite E; now right | exact Hc].
Qed.

Lemma keywordTokens_lower (kw tok : str) (c : ascii) :
  In tok (keywordTokens kw) -> In c tok -> lowerChar c = c.
Proof.
  unfold keywordTokens, splitWs. intros Ht Hc.
  apply filter_In in Ht. destruct Ht as [Ht _].
  apply (toLowerCase_fixed kw). eapply splitRuns_chars; eauto.
Qed.

End StringFacts.

(* ------------------------------------------------------------------------- *)
(** ** The keyword expression *)

Section KeywordFacts.

Lemma run_Lit (A : Type) (tok : str) :
  forall b s cs (k : bool -> str -> list str -> option A),
    run true (Lit tok) b s cs k =
    match stripPrefix tok s with
    | Some rest => k (match tok with [] => b | _ :: _ => false end) rest cs
    | None => None
    end.
Proof.
  induction tok as [|c tok IH]; intros b s cs k; simpl.
  - reflexivity.
  - destruct s as [|d s]; [reflexivity|].
    destruct (sameChar true c d); [|reflexivity].
    rewrite IH. destruct (stripPrefix tok s); [|reflexivity].
    destruct tok; reflexivity.
Qed.

Lemma run_keywordRegex (A : Type) (tok : str) (b : bool) (s : str)
      (k : bool -> str -> list str -> option A) :
  (forall b' s' cs', k b' s' cs' <> None) ->
  isSome (run true (keywordRegex tok) b s [] k) = matchHere tok b s.
Proof.
  intros Hk.
  assert (Htail : forall b' s',
    isSome (run true (Seq (Lit tok) (Alt (Cls delim) Eol)) b' s' [] k)
    = tokenThenEdge tok s').
  { intros b' s'. simpl. rewrite run_Lit. unfold tokenThenEdge.
    destruct (stripPrefix tok s') as [rest|]; [|reflexivity].
    simpl. destruct rest as [|d rest]; simpl.
    - destruct (k _ [] []) eqn:E; [reflexivity | now apply Hk in E].
    - destruct (delim d); [|reflexivity].
      destruct (k false rest []) eqn:E; [reflexivity | now apply Hk in E]. }
  unfold keywordRegex, matchHere.
  change (run true (Seq ?r1 ?r2) b s [] k)
    with (run true r1 b s [] (fun b' s' cs' => run true r2 b' s' cs' k)).
  cbn [run].
  destruct b; cbn [andb orb].
  - pose proof (Htail true s) as H1. cbn [run] in H1.
    destruct (run true (Lit tok) true s [] _) eqn:E1.
    + simpl in H1. rewrite <- H1. reflexivity.
    + simpl in H1. rewrite <- H1. cbn [orb].
      destruct s as [|d s']; [reflexivity|].
      destruct (delim d); [|reflexivity].
      pose proof (Htail false s') as H2. cbn [run] in H2. exact H2.
  - destruct s as [|d s']; [reflexivity|].
    destruct (delim d); [|reflexivity].
    pose proof (Htail false s') as H2. cbn [run] in H2. exact H2.
Qed.

Lemma searchFrom_keywordRegex (tok : str) :
  forall s b pre,
    isSome (searchFrom true (keywordRegex tok) b pre s)
    = matchSomewhere tok b s.
Proof.
  induction s as [|c s IH]; intros b pre.
  - cbn [searchFrom matchSomewhere].
    rewrite <- (run_keywordRegex tok b []
                  (fun _ s' cs => Some (mkResult (rev pre) cs s')))
      by discriminate.
    destruct (run true (keywordRegex tok) b [] [] _); reflexivity.
  - cbn [searchFrom matchSomewhere].
    rewrite <- (run_keywordRegex tok b (c :: s)
                  (fun _ s' cs => Some (mkResult (rev pre) cs s')))
      by discriminate.
    destruct (run true (keywordRegex tok) b (c :: s) [] _); [reflexivity|].
    cbn [isSome orb]. apply IH.
Qed.

Lemma test_keywordRegex (tok text : str) :
  test true (keywordRegex tok) text = matchSomewhere tok true text.
Proof.
  unfold test, exec. rewrite <- searchFrom_keywordRegex with (pre := []).
  destruct (searchFrom _ _ _ _ _); reflexivity.
Qed.

End KeywordFacts.

Section MatcherSpec.

Lemma lowerFixed_cons (c : ascii) (s : str) :
  lowerFixed (c :: s) <-> lowerChar c = c /\ lowerFixed s.
Proof.
  unfold lowerFixed; split.
  - intros H; split; [apply H; now left | intros d Hd; apply H; now right].
  - intros [Hc Hs] d [<-|Hd]; auto.
Qed.

Lemma stripPrefix_lower (tok : str) :
  forall s rest,
    lowerFixed tok -> lowerFixed s ->
    (stripPrefix tok s = Some rest <-> s = tok ++ rest).
Proof.
  induction tok as [|c tok IH]; intros s rest Ht Hs; simpl.
  - split; [intros H; now inversion H | intros ->; reflexivity].
  - apply lowerFixed_cons in Ht. destruct Ht as [Hc Ht].
    destruct s as [|d s]; [split; discriminate|].
    apply lowerFixed_cons in Hs. destruct Hs as [Hd Hs].
    unfold sameChar, canon.
    destruct (eqChar (upperChar c) (upperChar d)) eqn:E.
    + apply eqChar_true in E. apply (upperChar_inj_lower Hc Hd) in E.
      subst d. rewrite (IH s rest Ht Hs).
      split; [intros ->; reflexivity | intros H; now inversion H].
    + split; [discriminate|]. intros H; inversion H; subst.
      rewrite eqChar_refl in E. discriminate.
Qed.

Lemma rightEdge_spec (post : str) : rightEdge post = true <-> rightBounded post.
Proof.
  unfold rightEdge, rightBounded, delim. destruct post as [|d q].
  - split; auto.
  - rewrite negb_true_iff. split.
    + intros H. right. now exists d, q.
    + intros [H|[c [q' [H1 H2]]]]; [discriminate | now inversion H1; subst].
Qed.

Lemma tokenThenEdge_spec (tok s : str) :
  lowerFixed tok -> lowerFixed s ->
  (tokenThenEdge tok s = true <->
   exists post, s = tok ++ post /\ rightBounded post).
Proof.
  intros Ht Hs. unfold tokenThenEdge. split.
  - destruct (stripPrefix tok s) as [rest|] eqn:E; [|discriminate].
    intros H. exists rest. split.
    + now apply (stripPrefix_lower rest Ht Hs).
    + now apply rightEdge_spec.
  - intros [post [H1 H2]].
    apply (stripPrefix_lower post Ht Hs) in H1. rewrite H1.
    now apply rightEdge_spec.
Qed.

Lemma matchSomewhere_sound (tok : str) :
  lowerFixed tok ->
  forall s b,
    lowerFixed s -> matchSomewhere tok b s = true ->
    exists pre post,
      s = pre ++ tok ++ post /\ leftEdge b pre /\ rightBounded post.
Proof.
  intros Ht. induction s as [|c s IH]; intros b Hs H;
    cbn [matchSomewhere] in H; apply orb_true_iff in H.
  - destruct H as [H|H]; [|discriminate].
    unfold matchHere in H. rewrite orb_false_r in H.
    apply andb_true_iff in H. destruct H as [-> H].
    apply (tokenThenEdge_spec Ht Hs) in H. destruct H as [post [H1 H2]].
    exists [], post. repeat split; auto. now left.
  - pose proof Hs as Hs0.
    apply lowerFixed_cons in Hs. destruct Hs as [Hc Hs].
    destruct H as [H|H].
    + unfold matchHere in H. apply orb_true_iff in H. destruct H as [H|H].
      * apply andb_true_iff in H. destruct H as [-> H].
        apply (tokenThenEdge_spec Ht Hs0) in H.
        destruct H as [post [H1 H2]].
        exists [], post. repeat split; auto. now left.
      * apply andb_true_iff in H. destruct H as [Hd H].
        apply (tokenThenEdge_spec Ht Hs) in H.
        destruct H as [post [H1 H2]].
        exists [c], post. split; [simpl; now rewrite H1|]. split; auto.
        right. exists [], c. split; auto.
        unfold delim in Hd. now apply negb_true_iff.
    + destruct (IH false Hs H) as [pre [post [H1 [H2 H3]]]].
      exists (c :: pre), post. split; [simpl; now rewrite H1|]. split; auto.
      right. destruct H2 as [[_ H2]|[p [d [H2 H4]]]]; [discriminate|].
      exists (c :: p), d. split; auto. simpl. now rewrite H2.
Qed.

Lemma matchSomewhere_complete (tok : str) :
  lowerFixed tok ->
  forall pre post b,
    lowerFixed (pre ++ tok ++ post) ->
    leftEdge b pre -> rightBounded post ->
    matchSomewhere tok b (pre ++ tok ++ post) = true.
Proof.
  intros Ht. induction pre as [|x pre IH]; intros post b Hs Hl Hr.
  - destruct Hl as [[_ ->]|[p [c [H _]]]]; [|now destruct p].
    assert (H : tokenThenEdge tok (tok ++ post) = true).
    { apply (tokenThenEdge_spec Ht Hs). now exists post. }
    simpl app. destruct (tok ++ post) eqn:E;
      cbn [matchSomewhere]; unfold matchHere; rewrite H; reflexivity.
  - simpl app. cbn [matchSomewhere]. apply orb_true_iff.
    simpl app in Hs. apply lowerFixed_cons in Hs. destruct Hs as [Hx Hs].
    destruct Hl as [[H _]|[p [c [H Hc]]]]; [discriminate|].
    destruct pre as [|y pre].
    + left. destruct p as [|? p]; [|now destruct p].
      simpl in H. inversion H; subst c.
      unfold matchHere. apply orb_true_iff. right.
      apply andb_true_iff. split.
      * unfold delim. now rewrite Hc.
      * apply (tokenThenEdge_spec Ht Hs). now exists post.
    + right. apply IH; auto. right.
      destruct p as [|z p]; [discriminate|].
      simpl in H. inversion H; subst. now exists p, c.
Qed.

(** What [re.test(text)] decides for a token, in the specification's words. *)
Lemma test_keywordRegex_spec (tok text : str) :
  lowerFixed tok -> lowerFixed text ->
  (test true (keywordRegex tok) text = true <-> boundedIn tok text).
Proof.
  intros Ht Hs. rewrite test_keywordRegex. split.
  - intros H. destruct (matchSomewhere_sound Ht true Hs H)
      as [pre [post [H1 [H2 H3]]]].
    exists pre, post. repeat split; auto.
    destruct H2 as [[-> _]|H2]; [now left | now right].
  - intros [pre [post [H1 [H2 H3]]]]. subst text.
    apply matchSomewhere_complete; auto.
    destruct H2 as [->|H2]; [left; auto | now right].
Qed.

Lemma lowerFixed_toLowerCase (s : str) : lowerFixed (toLowerCase s).
Proof. intros c; apply toLowerCase_fixed. Qed.

(** [matchesKeyword] is the matcher of the specification. *)
Lemma matchesKeyword_spec (desc keyword : str) :
  matchesKeyword desc keyword = true <-> keywordMatches keyword desc.
Proof.
  unfold matchesKeyword, keywordMatches.
  destruct keyword as [|k0 kw'] eqn:Ek; cbn [nonEmpty negb].
  - split; [discriminate | intros [H _]; now elim H].
  - rewrite <- Ek. clear Ek k0 kw'.
    destruct (keywordTokens keyword) as [|t0 ts] eqn:Et; cbn [List.length].
    + split; [discriminate | intros [H _]; now elim H].
    + change (0 <? S (List.length ts))%nat with true. cbn [negb].
      rewrite <- Et. rewrite forallb_forall. split.
      * intros H. split; [rewrite Et; discriminate|].
        intros tok Hin. apply test_keywordRegex_spec; auto.
        -- intros c Hc. eapply keywordTokens_lower; eauto.
        -- apply lowerFixed_toLowerCase.
      * intros [_ H] tok Hin. apply test_keywordRegex_spec; auto.
        -- intros c Hc. eapply keywordTokens_lower; eauto.
        -- apply lowerFixed_toLowerCase.
Qed.

End MatcherSpec.

(* ------------------------------------------------------------------------- *)
(** ** Categorisation *)

Section CategoriseFacts.

Lemma matchesKeyword_lower (desc keyword : str) :
  matchesKeyword (toLowerCase desc) keyword = matchesKeyword desc keyword.
Proof. unfold matchesKeyword. now rewrite toLowerCase_idem. Qed.

Lemma firstMatch_some (rules : list Rule.t) (t : Txn float) (c : str) :
  firstMatch (toLowerCase (description t)) rules = Some c ->
  exists r, firstMatchingRule rules t r /\ c = Rule.category r.
Proof.
  induction rules as [|r rules IH]; simpl; [discriminate|].
  rewrite matchesKeyword_lower.
  destruct (matchesKeyword (description t) (Rule.keyword r)) eqn:E.
  - intros H; inversion H; subst. exists r. split; [|reflexivity].
    exists [], rules. split; [reflexivity|]. split; [intros ? []|].
    now apply matchesKeyword_spec.
  - intros H. destruct (IH H) as [r' [[pre [post [H1 [H2 H3]]]] H4]].
    exists r'. split; [|exact H4].
    exists (r :: pre), post. split; [simpl; now rewrite H1|]. split; auto.
    intros r0 [<-|Hin]; [|now apply H2].
    intros Hm. apply matchesKeyword_spec in Hm. congruence.
Qed.

Lemma firstMatch_none (rules : list Rule.t) (t : Txn float) :
  firstMatch (toLowerCase (description t)) rules = None ->
  noRuleMatches rules t.
Proof.
  induction rules as [|r rules IH]; simpl; [intros _ ? []|].
  rewrite matchesKeyword_lower.
  destruct (matchesKeyword (description t) (Rule.keyword r)) eqn:E;
    [discriminate|].
  intros H r0 [<-|Hin]; [|now apply IH].
  intros Hm. apply matchesKeyword_spec in Hm. congruence.
Qed.

(** The first matching rule is unique, so [firstMatch] finds it. *)
Lemma firstMatch_of_rule (rules : list Rule.t) (t : Txn float) (r : Rule.t) :
  firstMatchingRule rules t r ->
  firstMatch (toLowerCase (description t)) rules = Some (Rule.category r).
Proof.
  intros [pre [post [-> [Hpre Hr]]]].
  induction pre as [|r0 pre IH]; simpl; rewrite matchesKeyword_lower.
  - apply matchesKeyword_spec in Hr. now rewrite Hr.
  - destruct (matchesKeyword (description t) (Rule.keyword r0)) eqn:E.
    + apply matchesKeyword_spec in E. elim (Hpre r0); [now left | exact E].
    + apply IH. intros r' Hin. apply Hpre. now right.
Qed.

Lemma firstMatch_of_none (rules : list Rule.t) (t : Txn float) :
  noRuleMatches rules t ->
  firstMatch (toLowerCase (description t)) rules = None.
Proof.
  intros H. destruct (firstMatch _ rules) as [c|] eqn:E; [|reflexivity].
  destruct (firstMatch_some _ _ E) as [r [[pre [post [-> [_ Hr]]]] _]].
  elim (H r); [apply in_or_app; right; now left | exact Hr].
Qed.

Lemma category_categoriseTxn (rules : list Rule.t) (t : Txn float) :
  category (categoriseTxn rules t) =
  Some (orElse (override (firstMatch (toLowerCase (description t)) rules)
                         (absAmount t)) UNCATEGORISED).
Proof. reflexivity. Qed.

Lemma override_some (c : str) (t : Txn float) :
  c <> [] ->
  orElse (override (Some c) (absAmount t)) UNCATEGORISED
  = if petrolOverride c t then COFFEE else c.
Proof.
  intros Hc. unfold override, petrolOverride.
  apply nonEmpty_true in Hc. rewrite Hc. cbn [andb].
  destruct (eqStr (toUpperCase c) PETROL && PrimFloat.leb (absAmount t) 2);
    simpl; [reflexivity | now rewrite Hc].
Qed.

Lemma categoriseTxn_assigned (rules : list Rule.t) (t : Txn float) :
  wellFormed rules ->
  exists c, categoriseTxn rules t = setCategory t c
            /\ assignedCategory rules t c.
Proof.
  intros Hwf. eexists. split; [reflexivity|].
  destruct (firstMatch (toLowerCase (description t)) rules) as [c|] eqn:E.
  - destruct (firstMatch_some _ _ E) as [r [Hr ->]].
    left. exists r. split; [exact Hr|].
    apply override_some. apply Hwf.
    destruct Hr as [pre [post [-> _]]]. apply in_or_app; right; now left.
  - right. split; [now apply firstMatch_none | reflexivity].
Qed.

(** The rule parser keeps a rule only with a keyword and a category. *)
Lemma parseRules_wellFormed (text : str) : wellFormed (parseRules text).
Proof.
  unfold wellFormed, parseRules.
  induction (splitLines text) as [|l ls IH]; simpl; [intros ? []|].
  destruct (parseRuleLine l) as [r0|] eqn:E; [|exact IH].
  intros r [<-|Hin]; [|now apply IH].
  unfold parseRuleLine in E.
  destruct (negb (nonEmpty (trim l)) || startsWithChar "#" (trim l));
    [discriminate|].
  destruct (splitArrow (trim l)) as [|p0 [|p1 ps]]; try discriminate.
  destruct (nonEmpty (toLowerCase (trim p0))
            && nonEmpty (toUpperCase (trim p1))) eqn:E2; [|discriminate].
  inversion E; subst; simpl.
  apply andb_true_iff in E2. now apply nonEmpty_true.
Qed.

End CategoriseFacts.

Section OverrideFacts.

Lemma abs_opp (x : float) : PrimFloat.abs (PrimFloat.opp x) = PrimFloat.abs x.
Proof.
  apply Prim2SF_inj. rewrite !abs_spec, opp_spec.
  destruct (Prim2SF x); reflexivity.
Qed.

Lemma is_nan_Prim2SF (x : float) :
  PrimFloat.is_nan x = match Prim2SF x with S754_nan => true | _ => false end.
Proof.
  unfold Prim2SF. destruct (PrimFloat.is_nan x); [reflexivity|].
  destruct (PrimFloat.is_zero x); [reflexivity|].
  destruct (PrimFloat.is_infinity x); [reflexivity|].
  destruct (Z.frexp x) as [r e].
  destruct (Uint63.to_Z (normfr_mantissa r)); try reflexivity.
  all: destruct (shr_fexp _ _ _ _ _) as [sh e'].
  all: destruct (shr_m sh); reflexivity.
Qed.

Lemma is_nan_opp (x : float) :
  PrimFloat.is_nan (PrimFloat.opp x) = PrimFloat.is_nan x.
Proof.
  rewrite !is_nan_Prim2SF, opp_spec. destruct (Prim2SF x); reflexivity.
Qed.

Lemma is_zero_opp (x : float) :
  PrimFloat.is_zero (PrimFloat.opp x) = PrimFloat.is_zero x.
Proof.
  unfold PrimFloat.is_zero. rewrite !FloatAxioms.eqb_spec, opp_spec.
  change (Prim2SF 0) with (S754_zero false).
  destruct (Prim2SF x) as [| | |s m e]; try reflexivity.
  all: destruct s; reflexivity.
Qed.

(** The amount [categorise] compares does not depend on the sign. *)
Lemma absAmount_negated (t : Txn float) : absAmount (negated t) = absAmount t.
Proof.
  unfold absAmount, negated; cbn [amount truthy F64].
  rewrite is_nan_opp, is_zero_opp.
  destruct (negb _); [apply abs_opp | reflexivity].
Qed.

Lemma absAmount_le (t : Txn float) :
  PrimFloat.leb (PrimFloat.abs (amount t)) 2%float = true ->
  PrimFloat.leb (absAmount t) 2%float = true.
Proof.
  unfold absAmount. destruct (truthy (amount t)); [auto | reflexivity].
Qed.

Lemma firstMatchingRule_negated (rules : list Rule.t) (t : Txn float)
      (r : Rule.t) :
  firstMatchingRule rules t r -> firstMatchingRule rules (negated t) r.
Proof. intros H; exact H. Qed.

Lemma category_of_first_match (rules : list Rule.t) (t : Txn float)
      (r : Rule.t) :
  wellFormed rules -> firstMatchingRule rules t r ->
  category (categoriseTxn rules t)
  = Some (if petrolOverride (Rule.category r) t then COFFEE
          else Rule.category r).
Proof.
  intros Hwf Hr. rewrite category_categoriseTxn, (firstMatch_of_rule Hr).
  f_equal. apply override_some. apply Hwf.
  destruct Hr as [pre [post [-> _]]]. apply in_or_app; right; now left.
Qed.

Lemma example_first_match :
  firstMatchingRule exampleRules exampleTxn (Rule.mk (js "petrol") PETROL).
Proof.
  exists [Rule.mk (js "woolworths") (js "GROCERIES")], []. split.
  - vm_compute. reflexivity.
  - split.
    + intros r' [<-|[]] Hm. apply matchesKeyword_spec in Hm.
      vm_compute in Hm. discriminate.
    + apply matchesKeyword_spec. vm_compute. reflexivity.
Qed.

Lemma grocery_first_match :
  firstMatchingRule exampleRules groceryTxn
                    (Rule.mk (js "woolworths") (js "GROCERIES")).
Proof.
  exists [], [Rule.mk (js "petrol") PETROL]. split.
  - vm_compute. reflexivity.
  - split; [intros r' []|].
    apply matchesKeyword_spec. vm_compute. reflexivity.
Qed.

End OverrideFacts.

(** C1 (as amended).  For every list of rules with categories and every
    list of transactions, [categorise] gives each transaction the category
    of the first rule in list order whose keyword matches (every white-space
    delimited token of the keyword stands in the lower-cased description
    between non-word characters or string edges; a keyword without tokens
    never matches), with COFFEE in its place when that category is PETROL
    and the absolute amount is at most 2, and the sentinel UNCATEGORISED
    when no rule matches. *)
Theorem categorise_first_match (rules : list Rule.t) (txns : list (Txn float)) :
  wellFormed rules ->
  Forall2 (fun t t' => exists c, t' = setCategory t c
                                 /\ assignedCategory rules t c)
          txns (categorise txns rules).
Proof.
  intros Hwf. unfold categorise.
  induction txns as [|t txns IH]; simpl; constructor; auto.
  now apply categoriseTxn_assigned.
Qed.

Lemma categorise_first_match_witness :
  wellFormed exampleRules /\
  Forall2 (fun t t' => exists c, t' = setCategory t c
                                 /\ assignedCategory exampleRules t c)
          [exampleTxn] (categorise [exampleTxn] exampleRules).
Proof.
  split.
  - apply parseRules_wellFormed.
  - apply (@categorise_first_match exampleRules [exampleTxn]).
    apply parseRules_wellFormed.
Defined.

(** C1 as stated fails on the specification's own example: the first rule
    that matches "PETROL STATION #4" has category PETROL, and [categorise]
    assigns COFFEE. *)
Lemma categorise_first_match_overridden :
  ~ (forall r, firstMatchingRule exampleRules exampleTxn r ->
               category (categoriseTxn exampleRules exampleTxn)
               = Some (Rule.category r)).
Proof.
  intros H. pose proof example_first_match as Hr.
  specialize (H _ Hr). vm_compute in H. discriminate.
Qed.


Section AmountAboveTwo.

Lemma SFcompare_above (m2 m : BinNums.positive) (e2 e : Z) :
  SFltb (S754_finite false m2 e2) (S754_finite false m e) = true ->
  SFleb (S754_finite false m e) (S754_finite false m2 e2) = false.
Proof.
  unfold SFltb, SFleb, SFcompare.
  rewrite (Z.compare_antisym e2 e).
  destruct (e2 ?= e)%Z; cbn [CompOpp]; try discriminate; [|reflexivity].
  change (PosDef.Pos.compare_cont Eq m2 m) with (Pos.compare m2 m).
  change (PosDef.Pos.compare_cont Eq m m2) with (Pos.compare m m2).
  rewrite (Pos.compare_antisym m2 m).
  destruct (Pos.compare m2 m); try discriminate. reflexivity.
Qed.

(** An amount whose absolute value is more than 2 is a number other than
    zero, and its absolute value is not at most 2. *)
Lemma above_two (a : float) :
  PrimFloat.ltb 2%float (PrimFloat.abs a) = true ->
  truthy a = true /\ PrimFloat.leb (PrimFloat.abs a) 2%float = false.
Proof.
  intros H. rewrite FloatAxioms.ltb_spec, abs_spec in H.
  cbn [truthy F64]. unfold PrimFloat.is_zero.
  rewrite FloatAxioms.eqb_spec, is_nan_Prim2SF, FloatAxioms.leb_spec, abs_spec.
  assert (E2 : exists m2 e2, Prim2SF 2 = S754_finite false m2 e2)
    by (eexists _, _; vm_compute; reflexivity).
  destruct E2 as [m2 [e2 E2]]. rewrite E2 in *.
  change (Prim2SF 0) with (S754_zero false).
  destruct (Prim2SF a) as [s|s| |s m e]; try discriminate H.
  - now destruct s.
  - split; [now destruct s|]. now apply SFcompare_above.
Qed.

Lemma absAmount_above (t : Txn float) :
  PrimFloat.ltb 2%float (PrimFloat.abs (amount t)) = true ->
  PrimFloat.leb (absAmount t) 2%float = false.
Proof.
  intros H. destruct (@above_two _ H) as [Ht Hl].
  unfold absAmount. now rewrite Ht.
Qed.

Lemma above_negated (t : Txn float) :
  PrimFloat.ltb 2%float (PrimFloat.abs (amount t)) = true ->
  PrimFloat.ltb 2%float (PrimFloat.abs (amount (negated t))) = true.
Proof. unfold negated; cbn [amount]. now rewrite abs_opp. Qed.

(** What [categorise] stores when a rule matches, without a condition on
    the rules. *)
Lemma category_of_match (rules : list Rule.t) (t : Txn float) (r : Rule.t) :
  firstMatchingRule rules t r ->
  category (categoriseTxn rules t)
  = Some (orElse (override (Some (Rule.category r)) (absAmount t))
                 UNCATEGORISED).
Proof.
  intros Hr. now rewrite category_categoriseTxn, (firstMatch_of_rule Hr).
Qed.

Lemma petrol_nonEmpty (c : str) : toUpperCase c = PETROL -> nonEmpty c = true.
Proof. destruct c; [discriminate | reflexivity]. Qed.

End AmountAboveTwo.

(** C2.  For every rule list and every transaction with a matching rule:
    when the category of the first matching rule is PETROL in any letter
    case and the absolute value of the amount is at most 2, [categorise]
    assigns COFFEE, and it does so for the amount of either sign; when the
    category is PETROL and the absolute value of the amount is more than 2,
    the category is assigned as the rule has it, for either sign; and a
    category that is not PETROL is assigned as the rule has it, whatever
    the amount.  (A rule whose category is the empty string, which the
    rule parser never produces, selects no category: the sentinel is
    assigned, as when no rule matches.) *)
Theorem petrol_override (rules : list Rule.t) (t : Txn float) (r : Rule.t) :
  firstMatchingRule rules t r ->
  (toUpperCase (Rule.category r) = PETROL ->
   (PrimFloat.leb (PrimFloat.abs (amount t)) 2%float = true ->
    category (categoriseTxn rules t) = Some COFFEE
    /\ category (categoriseTxn rules (negated t)) = Some COFFEE)
   /\ (PrimFloat.ltb 2%float (PrimFloat.abs (amount t)) = true ->
       category (categoriseTxn rules t) = Some (Rule.category r)
       /\ category (categoriseTxn rules (negated t))
          = Some (Rule.category r)))
  /\ (toUpperCase (Rule.category r) <> PETROL ->
      Rule.category r <> [] ->
      category (categoriseTxn rules t) = Some (Rule.category r))
  /\ (Rule.category r = [] ->
      category (categoriseTxn rules t) = Some UNCATEGORISED).
Proof.
  intros Hr.
  pose proof (category_of_match Hr) as E.
  pose proof (category_of_match (firstMatchingRule_negated Hr)) as En.
  unfold override in E, En. split; [|split].
  - intros Hp. pose proof (@petrol_nonEmpty _ Hp) as Hne.
    rewrite Hne, Hp, eqStr_refl in E, En. cbn [andb] in E, En. split.
    + intros Hle. rewrite absAmount_negated in En.
      rewrite (absAmount_le t Hle) in E, En. now split.
    + intros Hgt. rewrite absAmount_negated in En.
      rewrite (absAmount_above t Hgt) in E, En.
      cbn [orElse] in E, En. rewrite Hne in E, En. now split.
  - intros Hp Hne. apply eqStr_false in Hp. apply nonEmpty_true in Hne.
    rewrite Hne, Hp in E. cbn [andb orElse] in E. now rewrite Hne in E.
  - intros Hc. now rewrite Hc in E.
Qed.

Lemma petrol_override_witness :
  (category (categoriseTxn exampleRules exampleTxn) = Some COFFEE
   /\ category (categoriseTxn exampleRules (negated exampleTxn)) = Some COFFEE)
  /\ (category (categoriseTxn exampleRules fuelTxn) = Some PETROL
      /\ category (categoriseTxn exampleRules (negated fuelTxn))
         = Some PETROL)
  /\ category (categoriseTxn exampleRules groceryTxn) = Some (js "GROCERIES").
Proof.
  split; [|split].
  - refine (proj1 (proj1 (@petrol_override exampleRules exampleTxn
                            (Rule.mk (js "petrol") PETROL)
                            example_first_match) _) _); reflexivity.
  - refine (proj2 (proj1 (@petrol_override exampleRules fuelTxn
                            (Rule.mk (js "petrol") PETROL)
                            example_first_match) _) _); reflexivity.
  - refine (proj1 (proj2 (@petrol_override exampleRules groceryTxn
                            (Rule.mk (js "woolworths") (js "GROCERIES"))
                            grocery_first_match)) _ _);
      [intros H; vm_compute in H | ]; discriminate.
Defined.

(** C3 (as amended).  After [categorise], a transaction that no rule
    matched has the string UNCATEGORISED stored in its category field; the
    aggregation and display boundary reads an absent or empty category as
    UNCATEGORISED as well. *)
Theorem unmatched_stores_sentinel (rules : list Rule.t) (t : Txn float) :
  noRuleMatches rules t ->
  category (categoriseTxn rules t) = Some UNCATEGORISED
  /\ (forall u : Txn float,
         category u = None \/ category u = Some [] ->
         effectiveCategory u = UNCATEGORISED).
Proof.
  intros Hn. split.
  - now rewrite category_categoriseTxn, (firstMatch_of_none Hn).
  - intros u [H|H]; unfold effectiveCategory; rewrite H; reflexivity.
Qed.

Lemma unmatched_stores_sentinel_witness :
  category (categoriseTxn [] exampleTxn) = Some UNCATEGORISED
  /\ (forall u : Txn float,
         category u = None \/ category u = Some [] ->
         effectiveCategory u = UNCATEGORISED).
Proof.
  apply (@unmatched_stores_sentinel [] exampleTxn).
  intros r Hin. destruct Hin.
Defined.

(** C3 as stated fails: with no rule at all, the category stored by
    [categorise] is the sentinel string, neither absent nor empty. *)
Lemma categorise_writes_sentinel :
  ~ (noRuleMatches [] exampleTxn ->
     category (categoriseTxn [] exampleTxn) = None
     \/ category (categoriseTxn [] exampleTxn) = Some []).
Proof.
  intros H. destruct H as [H|H].
  - intros r [].
  - vm_compute in H. discriminate.
  - vm_compute in H. discriminate.
Qed.

(** C4 (as amended).  The keyword "cafe" does not match "CAFE.COM", where
    the period after it is a word character and no boundary, and does not
    match "ecafe"; it matches "CAFE COM", and the keyword "cafe.com"
    matches "CAFE.COM". *)
Theorem cafe_boundaries :
  matchesKeyword (js "CAFE.COM") (js "cafe") = false
  /\ matchesKeyword (js "ecafe") (js "cafe") = false
  /\ matchesKeyword (js "CAFE COM") (js "cafe") = true
  /\ matchesKeyword (js "CAFE.COM") (js "cafe.com") = true
  /\ isWordChar "."%char = true
  /\ ~ keywordMatches (js "cafe") (js "CAFE.COM").
Proof.
  repeat split; try (vm_compute; reflexivity).
  intros H. apply matchesKeyword_spec in H. vm_compute in H. discriminate.
Qed.

(** C4 as stated fails in its first half: "cafe" does not match
    "CAFE.COM". *)
Lemma cafe_dot_com_not_matched :
  ~ (matchesKeyword (js "CAFE.COM") (js "cafe") = true
     /\ matchesKeyword (js "ecafe") (js "cafe") = false).
Proof. intros [H _]. vm_compute in H. discriminate. Qed.

(* ------------------------------------------------------------------------- *)
(** ** Amounts and the importer *)

Section AmountFacts.

Lemma truthy_not_nan (x : float) : truthy x = true -> isNaN x = false.
Proof.
  cbn [truthy F64]. unfold isNaN. rewrite negb_true_iff, orb_false_iff. tauto.
Qed.

Lemma parseAmount_not_nan (raw : option str) : isNaN (parseAmount raw) = false.
Proof.
  destruct raw as [s|]; [|reflexivity]. unfold parseAmount.
  destruct (truthy (Number (cleanAmount s))) eqn:E;
    [now apply truthy_not_nan | reflexivity].
Qed.

Lemma parseAmount_falsy (s : str) :
  truthy (Number (cleanAmount s)) = false -> parseAmount (Some s) = 0%float.
Proof. unfold parseAmount. now intros ->. Qed.

Lemma startIdx_zero (rows : list row) : startIdx rows = 0%nat.
Proof.
  destruct rows as [|r0 rows]; [reflexivity|].
  unfold startIdx. now rewrite parseAmount_not_nan.
Qed.

Lemma importRow_header (r0 : row) : headerRow r0 = true -> importRow r0 = None.
Proof.
  unfold headerRow, importRow. intros H.
  destruct (List.length r0 <? 10)%nat; [reflexivity|].
  apply negb_true_iff in H.
  rewrite <- andb_assoc, H, andb_false_r. reflexivity.
Qed.

End AmountFacts.

(** C6 (as amended).  [parseAmount] returns a number for every input and
    never NaN: it returns exactly 0 for [null] and [undefined], and whenever
    the cleaned-up string converts to NaN or to a zero; a cleaned-up string
    of digits beyond the range of a double yields Infinity, which it
    returns. *)
Theorem parseAmount_total (raw : option str) :
  isNaN (parseAmount raw) = false
  /\ (raw = None -> parseAmount raw = 0%float)
  /\ (forall s, raw = Some s ->
                isNaN (Number (cleanAmount s)) = true
                \/ PrimFloat.is_zero (Number (cleanAmount s)) = true ->
                parseAmount raw = 0%float)
  /\ (forall s, raw = Some s ->
                truthy (Number (cleanAmount s)) = true ->
                parseAmount raw = Number (cleanAmount s))
  /\ parseAmount (Some hugeAmount) = infinity.
Proof.
  split; [apply parseAmount_not_nan|].
  split; [now intros ->|].
  split.
  - intros s -> H. apply parseAmount_falsy. cbn [truthy F64].
    apply negb_false_iff. unfold isNaN in H.
    destruct H as [->| ->]; [now rewrite orb_true_r | reflexivity].
  - split; [|vm_compute; reflexivity].
    intros s -> H. unfold parseAmount. now rewrite H.
Qed.

Lemma parseAmount_total_witness :
  parseAmount (Some (js "$1,234.56")) = Number (js "1234.56")
  /\ parseAmount (Some (js "Amount")) = 0%float
  /\ parseAmount (Some (js "-")) = 0%float.
Proof.
  pose proof (@parseAmount_total (Some (js "$1,234.56"))) as [_ [_ [_ [H1 _]]]].
  pose proof (@parseAmount_total (Some (js "Amount"))) as [_ [_ [H2 _]]].
  pose proof (@parseAmount_total (Some (js "-"))) as [_ [_ [H3 _]]].
  split; [|split].
  - apply (H1 (js "$1,234.56") eq_refl). reflexivity.
  - apply (H2 (js "Amount") eq_refl). right. reflexivity.
  - apply (H3 (js "-") eq_refl). left. reflexivity.
Defined.

(** C6 as stated fails: four hundred digits do not convert to a finite
    number, and the result is Infinity, neither 0 nor finite. *)
Lemma parseAmount_infinite :
  ~ (isFinite (Number (cleanAmount hugeAmount)) = false ->
     parseAmount (Some hugeAmount) = 0%float
     /\ isFinite (parseAmount (Some hugeAmount)) = true).
Proof.
  intros H. destruct H as [_ H].
  - vm_compute. reflexivity.
  - vm_compute in H. discriminate.
Qed.

(* ------------------------------------------------------------------------- *)
(** ** The objects of the import *)

Section SharedObjects.

Lemma nth_error_store (h : heap) (r0 r : nat) (x : Txn float) :
  nth_error (store h r0 x) r
  = if (r =? r0)%nat
    then match nth_error h r0 with Some _ => Some x | None => None end
    else nth_error h r.
Proof.
  revert r0 r; induction h as [|y h IH]; intros r0 r; simpl.
  - destruct (r =? r0)%nat; destruct r, r0; reflexivity.
  - destruct r0 as [|r0], r as [|r]; simpl; try reflexivity. apply IH.
Qed.

Lemma categoriseRefs_none (rules : list Rule.t) (txns : list nat) :
  forall h r, nth_error h r = None ->
              nth_error (categoriseRefs txns rules h) r = None.
Proof.
  unfold categoriseRefs.
  induction txns as [|r0 txns IH]; intros h r H; simpl; [exact H|].
  apply IH. unfold categoriseRef.
  destruct (nth_error h r0) as [t0|] eqn:E0; [|exact H].
  rewrite nth_error_store. destruct (Nat.eqb_spec r r0); [|exact H].
  subst. congruence.
Qed.

Lemma categoriseRefs_spec (rules : list Rule.t) (txns : list nat) :
  forall h r t,
    nth_error h r = Some t ->
    (In r txns ->
     nth_error (categoriseRefs txns rules h) r = Some (categoriseTxn rules t))
    /\ (~ In r txns -> nth_error (categoriseRefs txns rules h) r = Some t).
Proof.
  unfold categoriseRefs.
  induction txns as [|r0 txns IH]; intros h r t H.
  - split; [intros [] | intros _; exact H].
  - cbn [fold_left]. set (h1 := categoriseRef rules h r0).
    assert (H1 : nth_error h1 r
                 = Some (if (r =? r0)%nat then categoriseTxn rules t else t)).
    { unfold h1, categoriseRef. destruct (Nat.eqb_spec r r0) as [->|Hn].
      - rewrite H, nth_error_store, Nat.eqb_refl. now rewrite H.
      - destruct (nth_error h r0); [|exact H].
        rewrite nth_error_store. apply Nat.eqb_neq in Hn. now rewrite Hn. }
    destruct (IH h1 r _ H1) as [I1 I2]. split.
    + intros Hin. destruct (in_dec Nat.eq_dec r txns) as [Hr|Hr].
      * rewrite (I1 Hr). now destruct (r =? r0)%nat.
      * rewrite (I2 Hr). destruct (Nat.eqb_spec r r0); [reflexivity|].
        destruct Hin; [congruence | contradiction].
    + intros Hn. rewrite I2 by (intros Hr; apply Hn; now right).
      destruct (Nat.eqb_spec r r0); [|reflexivity].
      exfalso. apply Hn. left. congruence.
Qed.

Lemma inMonth_categoriseTxn (f : str) (rules : list Rule.t) (t : Txn float) :
  inMonth f (categoriseTxn rules t) = inMonth f t.
Proof. reflexivity. Qed.

End SharedObjects.

Section ImportFacts.

Lemma deref_all (h pre : heap) :
  deref (pre ++ h) (seq (List.length pre) (List.length h)) = h.
Proof.
  revert pre; induction h as [|t h IH]; intros pre; [reflexivity|].
  cbn [List.length seq]. unfold deref in *. cbn [flat_map].
  rewrite nth_error_app2 by lia. rewrite Nat.sub_diag. cbn [nth_error app].
  f_equal. specialize (IH (pre ++ [t])).
  rewrite <- app_assoc, length_app in IH. cbn [app List.length] in IH.
  now rewrite Nat.add_1_r in IH.
Qed.

(** On the array of all the objects, [applyRulesAndRender] leaves each
    transaction re-categorised when it is in the selected month and as it
    was otherwise. *)
Lemma applyRules_all (rulesBox f : str) (h : heap) :
  applyRules rulesBox f (seq 0 (List.length h)) h
  = map (recategorised rulesBox f) h.
Proof.
  apply nth_error_ext. intros r. rewrite nth_error_map.
  destruct (nth_error h r) as [t|] eqn:E; cbn [option_map].
  - unfold applyRules.
    destruct (@categoriseRefs_spec (parseRules rulesBox)
                (monthFilteredRefs f h (seq 0 (List.length h))) h r t E)
      as [I1 I2].
    assert (Hr : In r (seq 0 (List.length h))).
    { apply in_seq. split; [lia|]. apply nth_error_Some. congruence. }
    unfold recategorised, inSelectedMonth, monthFilteredRefs in *.
    destruct (negb (nonEmpty f)); cbn [orb].
    + now apply I1.
    + destruct (inMonth f t) eqn:Em.
      * apply I1. apply filter_In. split; [exact Hr|]. now rewrite E.
      * apply I2. intros Hin. apply filter_In in Hin.
        destruct Hin as [_ Hin]. rewrite E in Hin. congruence.
  - now apply categoriseRefs_none.
Qed.

Lemma loadCsvText_map (rulesBox f : str) (rows : list row) :
  loadCsvText rulesBox f rows
  = map (recategorised rulesBox f) (collect importRow rows).
Proof.
  unfold loadCsvText, importRows. rewrite startIdx_zero. cbn [skipn].
  rewrite applyRules_all.
  rewrite <- (length_map (recategorised rulesBox f)).
  apply (deref_all _ []).
Qed.

Lemma fieldsOf_recategorised (rulesBox f : str) (t : Txn float) :
  fieldsOf (recategorised rulesBox f t) = fieldsOf t.
Proof. unfold recategorised. now destruct (inSelectedMonth f t). Qed.

Lemma orElse_some_nil (s : str) : orElse (Some s) [] = s.
Proof. now destruct s. Qed.

Lemma cell_nth (r : row) (i : nat) :
  (i < List.length r)%nat -> cell r i = Some (nth i r []).
Proof. intros H. unfold cell. now apply nth_error_nth'. Qed.

(** The loop treats a row as the specification's data row. *)
Lemma importRow_dataRow (r : row) :
  option_map fieldsOf (importRow r) = dataRow r.
Proof.
  unfold importRow, dataRow.
  destruct (Nat.ltb_spec (List.length r) 10) as [L|L].
  - replace (10 <=? List.length r)%nat with false
      by (symmetry; apply Nat.leb_gt; lia).
    reflexivity.
  - replace (10 <=? List.length r)%nat with true
      by (symmetry; apply Nat.leb_le; lia).
    rewrite (@cell_nth r COL.DATE), (@cell_nth r COL.DEBIT),
      (@cell_nth r COL.LONGDESC)
      by (unfold COL.DATE, COL.DEBIT, COL.LONGDESC; lia).
    rewrite !orElse_some_nil. cbn [andb].
    set (d := nth COL.DATE r []).
    set (a := parseAmount (Some (nth COL.DEBIT r []))).
    set (desc := trim (nth COL.LONGDESC r [])).
    destruct (nonEmpty d || nonEmpty desc), (isFinite a), (nonZero a);
      reflexivity.
Qed.

Lemma collect_fields (rows : list row) :
  map fieldsOf (collect importRow rows) = collect dataRow rows.
Proof.
  induction rows as [|r rows IH]; [reflexivity|]. cbn [collect].
  rewrite <- importRow_dataRow.
  destruct (importRow r); cbn [option_map map]; now rewrite IH.
Qed.

Lemma loadCsvText_fields (rulesBox f : str) (rows : list row) :
  map fieldsOf (loadCsvText rulesBox f rows) = collect dataRow rows.
Proof.
  rewrite loadCsvText_map, map_map, <- collect_fields.
  apply map_ext. apply fieldsOf_recategorised.
Qed.

Lemma dataRow_header (r0 : row) : headerRow r0 = true -> dataRow r0 = None.
Proof.
  unfold headerRow, dataRow. intros H. apply negb_true_iff in H.
  destruct (Nat.leb_spec 10 (List.length r0)) as [L|L]; [|reflexivity].
  rewrite (@cell_nth r0 COL.DEBIT) in H by (unfold COL.DEBIT; lia).
  now rewrite H.
Qed.

Lemma dataRow_kept (r0 : row) :
  headerRow r0 = false -> (10 <= List.length r0)%nat ->
  nth COL.DATE r0 [] <> [] \/ trim (nth COL.LONGDESC r0 []) <> [] ->
  dataRow r0 = Some (nth COL.DATE r0 [],
                     parseAmount (Some (nth COL.DEBIT r0 [])),
                     trim (nth COL.LONGDESC r0 [])).
Proof.
  unfold headerRow, dataRow. intros H L Hd. apply negb_false_iff in H.
  rewrite (@cell_nth r0 COL.DEBIT) in H by (unfold COL.DEBIT; lia).
  rewrite H. apply Nat.leb_le in L. rewrite L. cbn [andb].
  replace (nonEmpty (nth COL.DATE r0 [])
           || nonEmpty (trim (nth COL.LONGDESC r0 []))) with true;
    [reflexivity|].
  symmetry. apply orb_true_iff.
  destruct Hd as [Hd|Hd]; [left | right]; now apply nonEmpty_true.
Qed.

End ImportFacts.

(** C7.  The import follows the header rule.  In the dates, amounts and
    descriptions of the transactions it returns, [loadCsvText] is the
    import of the specification: the first row is skipped exactly when its
    amount cell does not parse to a finite non-zero number, and every other
    row, the first included otherwise, is treated as a data row.  A first
    row that is skipped leaves the transactions of the rows after it; a
    first row with a finite non-zero amount, ten cells and a date or a
    description gives the first transaction, with the date, the parsed
    amount and the description of its cells. *)
Theorem header_row_skipped (rulesBox MONTH_FILTER : str) :
  (forall rows,
      map fieldsOf (loadCsvText rulesBox MONTH_FILTER rows)
      = importWithHeaderRule rows)
  /\ (forall r0 rest,
         headerRow r0 = true ->
         map fieldsOf (loadCsvText rulesBox MONTH_FILTER (r0 :: rest))
         = collect dataRow rest)
  /\ (forall r0 rest,
         headerRow r0 = false ->
         (10 <= List.length r0)%nat ->
         nth COL.DATE r0 [] <> [] \/ trim (nth COL.LONGDESC r0 []) <> [] ->
         map fieldsOf (loadCsvText rulesBox MONTH_FILTER (r0 :: rest))
         = (nth COL.DATE r0 [],
            parseAmount (Some (nth COL.DEBIT r0 [])),
            trim (nth COL.LONGDESC r0 []))
             :: collect dataRow rest)
  /\ (forall r0 rest,
         headerRow r0 = false ->
         map fieldsOf (loadCsvText rulesBox MONTH_FILTER (r0 :: rest))
         = collect dataRow (r0 :: rest)).
Proof.
  split; [|split; [|split]].
  - intros [|r0 rest]; rewrite loadCsvText_fields; [reflexivity|].
    unfold importWithHeaderRule.
    destruct (headerRow r0) eqn:E; [|reflexivity].
    cbn [collect]. now rewrite (@dataRow_header r0 E).
  - intros r0 rest H. rewrite loadCsvText_fields. cbn [collect].
    now rewrite (@dataRow_header r0 H).
  - intros r0 rest H L Hd. rewrite loadCsvText_fields. cbn [collect].
    now rewrite (@dataRow_kept r0 H L Hd).
  - intros r0 rest _. apply loadCsvText_fields.
Qed.

Lemma header_row_skipped_witness :
  map fieldsOf (loadCsvText sampleRules [] [titleRow; coffeeRow; rentRow])
  = [(js "01/02/2024", parseAmount (Some (js "4.50")), js "COFFEE SHOP");
     (js "02/02/2024", parseAmount (Some (js "1,200.00")), js "RENT")]
  /\ map fieldsOf (loadCsvText sampleRules [] [coffeeRow; rentRow])
     = [(js "01/02/2024", parseAmount (Some (js "4.50")), js "COFFEE SHOP");
        (js "02/02/2024", parseAmount (Some (js "1,200.00")), js "RENT")].
Proof.
  pose proof (@header_row_skipped sampleRules []) as [_ [H1 [H2 _]]].
  split.
  - rewrite (H1 titleRow [coffeeRow; rentRow]);
      vm_compute; reflexivity.
  - rewrite (H2 coffeeRow [rentRow]).
    + vm_compute. reflexivity.
    + vm_compute. reflexivity.
    + vm_compute. lia.
    + left. vm_compute. discriminate.
Defined.

(* ------------------------------------------------------------------------- *)
(** ** Category totals *)

Section SortFacts.
Context {N : Type} {AN : Arith N}.

Lemma insertRow_perm (x : str * N) (l : list (str * N)) :
  Permutation (insertRow x l) (x :: l).
Proof.
  induction l as [|y l IH]; simpl; [reflexivity|].
  destruct (positive (compareRows y x)); [reflexivity|].
  rewrite IH. apply perm_swap.
Qed.

Lemma sortRows_perm_acc (m acc : list (str * N)) :
  Permutation (fold_left (fun a x => insertRow x a) m acc) (acc ++ m).
Proof.
  revert acc; induction m as [|x m IH]; intros acc; simpl.
  - now rewrite app_nil_r.
  - rewrite IH, insertRow_perm. apply Permutation_middle.
Qed.

(** Sorting rearranges the rows and nothing else. *)
Lemma sortRows_perm (m : list (str * N)) : Permutation (sortRows m) m.
Proof. apply (sortRows_perm_acc m []). Qed.

End SortFacts.

Section ExactTotals.
Local Open Scope Qc_scope.

Lemma truthy_exact (x : Qc) : (if truthy x then x else 0) = x.
Proof.
  cbn [truthy Exact]. destruct (Qc_eq_bool x (Q2Qc 0)) eqn:E; [|reflexivity].
  apply Qc_eq_bool_correct in E. now subst.
Qed.

Lemma falsy_exact (x : Qc) : truthy x = false <-> x = 0.
Proof.
  cbn [truthy Exact]. rewrite negb_false_iff. split.
  - apply Qc_eq_bool_correct.
  - intros ->. reflexivity.
Qed.

Lemma sumRows_acc (m : list (str * Qc)) (acc : Qc) :
  fold_left (fun a row => add a (snd row)) m acc = acc + total m.
Proof.
  revert acc; induction m as [|kv m IH]; intros acc; simpl.
  - ring.
  - rewrite IH. cbn [add Exact]. ring.
Qed.

Lemma sumRows_total (m : list (str * Qc)) : sumRows m = total m.
Proof. unfold sumRows. rewrite sumRows_acc. cbn [zero Exact]. ring. Qed.

Lemma total_perm (m m' : list (str * Qc)) :
  Permutation m m' -> total m = total m'.
Proof.
  induction 1; simpl; try congruence; ring.
Qed.

Lemma total_mapSet (k : str) (a : Qc) (m : list (str * Qc)) :
  total (mapSet k (add (getOrZero k m) a) m) = total m + a.
Proof.
  unfold getOrZero.
  assert (H : forall v, total (mapSet k v m)
                        = total m - match mapGet k m with
                                    | Some v' => v'
                                    | None => 0
                                    end + v).
  { induction m as [|[k' v'] m IH]; intros v; simpl.
    - ring.
    - destruct (eqStr k k'); simpl; [ring | rewrite IH; ring]. }
  rewrite H. cbn [add zero Exact].
  destruct (mapGet k m) as [v'|]; [rewrite truthy_exact|]; ring.
Qed.

Lemma sumAmounts_acc (txns : list (Txn Qc)) (acc : Qc) :
  fold_left (fun a t => add a (amount t)) txns acc = acc + amountsTotal txns.
Proof.
  revert acc; induction txns as [|t txns IH]; intros acc; simpl.
  - ring.
  - rewrite IH. cbn [add Exact]. ring.
Qed.

Lemma sumAmounts_total (txns : list (Txn Qc)) :
  sumAmounts txns = amountsTotal txns.
Proof. unfold sumAmounts. rewrite sumAmounts_acc. cbn [zero Exact]. ring. Qed.

Lemma total_accumulate (txns : list (Txn Qc)) (m : list (str * Qc)) :
  total (fold_left accumulate txns m) = total m + amountsTotal txns.
Proof.
  revert m; induction txns as [|t txns IH]; intros m; simpl.
  - ring.
  - rewrite IH. unfold accumulate. rewrite total_mapSet. ring.
Qed.

Lemma sumPercentages_acc (g : Qc) (rows : list (str * Qc)) (acc : Qc) :
  g <> 0 ->
  fold_left (fun a row => add a (percentage g (snd row))) rows acc
  = acc + total rows / g * Q2Qc 100.
Proof.
  intros Hg. revert acc; induction rows as [|kv rows IH]; intros acc; simpl.
  - unfold Qcdiv. ring.
  - rewrite IH. unfold percentage.
    destruct (truthy g) eqn:E; [|apply falsy_exact in E; contradiction].
    cbn [add mul div hundred Exact]. unfold Qcdiv. ring.
Qed.

End ExactTotals.

(** C8 (as amended).  In the program's double arithmetic the grand total
    is the sum of the row totals in row order, the rows are the per-category
    sums in some order, and every percentage is 0 when the grand total is
    zero.  In exact arithmetic the sum of the row totals, the grand total
    and the signed sum of all amounts are equal, every percentage is 0 when
    the grand total is 0, and the percentages sum to 100 otherwise; in
    double arithmetic the last two equalities hold up to rounding only. *)
Theorem totals_consistent :
  (forall txns : list (Txn float),
      let rows := fst (computeCategoryTotals txns) in
      let grand := snd (computeCategoryTotals txns) in
      sumRows rows = grand
      /\ Permutation rows (fold_left accumulate txns [])
      /\ (PrimFloat.is_zero grand = true ->
          forall rowTotal, percentage grand rowTotal = 0%float))
  /\ (forall txns : list (Txn Qc),
         let rows := fst (computeCategoryTotals txns) in
         let grand := snd (computeCategoryTotals txns) in
         sumRows rows = grand
         /\ grand = sumAmounts txns
         /\ (grand = Q2Qc 0 ->
             forall rowTotal, percentage grand rowTotal = Q2Qc 0)
         /\ (grand <> Q2Qc 0 -> sumPercentages grand rows = Q2Qc 100)).
Proof.
  split; intros txns rows grand.
  - split; [reflexivity|]. split.
    + apply sortRows_perm.
    + intros H row. unfold percentage. cbn [truthy F64]. now rewrite H.
  - assert (Hg : grand = sumAmounts txns).
    { unfold grand. cbn [computeCategoryTotals snd].
      rewrite sumRows_total, (total_perm (sortRows_perm _)).
      rewrite total_accumulate, sumAmounts_total. simpl. ring. }
    split; [reflexivity|]. split; [exact Hg|]. split.
    + intros H row. unfold percentage.
      apply falsy_exact in H. now rewrite H.
    + intros H. unfold sumPercentages. rewrite (sumPercentages_acc _ _ H).
      replace (total rows) with grand
        by (unfold grand, rows; cbn [computeCategoryTotals fst snd];
            apply sumRows_total).
      cbn [zero Exact]. field. exact H.
Qed.

Lemma totals_consistent_witness :
  snd (computeCategoryTotals [entry "A" (Q2Qc 1); entry "B" (Q2Qc 3)])
  = sumAmounts [entry "A" (Q2Qc 1); entry "B" (Q2Qc 3)]
  /\ sumPercentages
       (snd (computeCategoryTotals [entry "A" (Q2Qc 1); entry "B" (Q2Qc 3)]))
       (fst (computeCategoryTotals [entry "A" (Q2Qc 1); entry "B" (Q2Qc 3)]))
     = Q2Qc 100.
Proof.
  pose proof (proj2 totals_consistent
                [entry "A" (Q2Qc 1); entry "B" (Q2Qc 3)]) as [_ [H2 [_ H4]]].
  split; [exact H2|]. apply H4.
  intros H. apply (f_equal this) in H. vm_compute in H. discriminate H.
Defined.

(** C8 as stated fails in double arithmetic: 0.10 in one category and 0.20
    and 0.30 in another give the grand total 0.6, while the three amounts
    add up to 0.6000000000000001. *)
Lemma totals_rounding :
  ~ (sumRows (fst (computeCategoryTotals threeAmounts))
     = snd (computeCategoryTotals threeAmounts)
     /\ snd (computeCategoryTotals threeAmounts) = sumAmounts threeAmounts).
Proof. intros [_ H]. vm_compute in H. discriminate H. Qed.

(* ------------------------------------------------------------------------- *)
(** ** The calendar *)

(** Tactics: the closed table entries evaluated, the comparisons of a
    chain decided one after the other. *)
Ltac eval_daysBefore :=
  repeat match goal with
         | |- context [Calendar.daysBefore ?b ?n] =>
             let v := eval vm_compute in (Calendar.daysBefore b n) in
             change (Calendar.daysBefore b n) with v
         | H : context [Calendar.daysBefore ?b ?n] |- _ =>
             let v := eval vm_compute in (Calendar.daysBefore b n) in
             change (Calendar.daysBefore b n) with v in H
         end.

Ltac split_ltb :=
  repeat match goal with
         | |- context [(?a <? ?b)%Z] => destruct (Z.ltb_spec a b)
         end.

Section CalendarFacts.
Local Open Scope Z_scope.

Lemma InLeapYear_cases (y : Z) :
  (InLeapYear y = true
   /\ y mod 4 = 0 /\ (y mod 100 <> 0 \/ y mod 400 = 0))
  \/ (InLeapYear y = false
      /\ (y mod 4 <> 0 \/ (y mod 100 = 0 /\ y mod 400 <> 0))).
Proof.
  unfold InLeapYear.
  destruct (Z.eqb_spec (y mod 4) 0), (Z.eqb_spec (y mod 100) 0),
    (Z.eqb_spec (y mod 400) 0); simpl; intuition lia.
Qed.

Lemma DayFromYear_step (y : Z) :
  DayFromYear (y + 1) = DayFromYear y + DaysInYear y.
Proof.
  unfold DaysInYear.
  destruct (InLeapYear_cases y) as [[-> H]|[-> H]]; unfold DayFromYear;
    Z.div_mod_to_equations; lia.
Qed.

(** [YearFromDay] is the year the day falls in. *)
Lemma YearFromDay_bounds (d : Z) :
  DayFromYear (YearFromDay d) <= d < DayFromYear (YearFromDay d + 1).
Proof.
  unfold YearFromDay.
  set (y := 1970 + d * 400 / 146097).
  assert (Hy : 146097 * (y - 1970) <= 400 * d < 146097 * (y - 1969)).
  { unfold y. Z.div_mod_to_equations. lia. }
  clearbody y.
  destruct (Z.ltb_spec d (DayFromYear y)).
  - replace (y - 1 + 1) with y by lia. split; [|lia].
    unfold DayFromYear in *. Z.div_mod_to_equations. lia.
  - destruct (Z.leb_spec (DayFromYear (y + 1)) d).
    + split; [lia|]. unfold DayFromYear in *. Z.div_mod_to_equations. lia.
    + lia.
Qed.

Lemma DayFromYear_mono (a b : Z) : a <= b -> DayFromYear a <= DayFromYear b.
Proof. intros H. unfold DayFromYear. Z.div_mod_to_equations. lia. Qed.

Lemma YearFromDay_unique (d y : Z) :
  DayFromYear y <= d < DayFromYear (y + 1) -> YearFromDay d = y.
Proof.
  intros H. pose proof (YearFromDay_bounds d) as B.
  destruct (Z.lt_trichotomy (YearFromDay d) y) as [L|[E|G]]; [|exact E|].
  - pose proof (@DayFromYear_mono (YearFromDay d + 1) y ltac:(lia)). lia.
  - pose proof (@DayFromYear_mono (y + 1) (YearFromDay d) ltac:(lia)). lia.
Qed.

Lemma DayWithinYear_bounds (d : Z) :
  0 <= DayWithinYear d < DaysInYear (YearFromDay d).
Proof.
  unfold DayWithinYear. pose proof (YearFromDay_bounds d) as B.
  rewrite DayFromYear_step in B. lia.
Qed.

(** The getters show a day of the calendar. *)
Lemma fields_valid (d : Z) :
  0 <= MonthFromDay d <= 11
  /\ 1 <= DateFromDay d
     <= daysInMonth (InLeapYear (YearFromDay d)) (MonthFromDay d).
Proof.
  pose proof (DayWithinYear_bounds d) as B.
  unfold DateFromDay, MonthFromDay, DaysInYear in *.
  set (w := DayWithinYear d) in *. clearbody w.
  destruct (InLeapYear (YearFromDay d));
    change (daysBefore true 1) with 31; change (daysBefore false 1) with 31;
    cbn [daysBefore Z.leb Z.eqb Z.compare Pos.compare Pos.compare_cont
         Z.add Pos.add Pos.succ Pos.eqb];
    split_ltb; cbv [daysInMonth daysBefore]; simpl; lia.
Qed.

Lemma month_cases (m : Z) :
  0 <= m <= 11 ->
  m = 0 \/ m = 1 \/ m = 2 \/ m = 3 \/ m = 4 \/ m = 5 \/ m = 6 \/ m = 7
  \/ m = 8 \/ m = 9 \/ m = 10 \/ m = 11.
Proof. lia. Qed.

Ltac each_month H :=
  destruct (month_cases H)
    as [->|[->|[->|[->|[->|[->|[->|[->|[->|[->|[->| ->]]]]]]]]]]].

Lemma daysBefore_range (leap : bool) (m : Z) :
  0 <= m <= 11 ->
  0 <= daysBefore leap m
  /\ 28 <= daysBefore leap (m + 1) - daysBefore leap m
  /\ daysBefore leap (m + 1) <= (if leap then 366 else 365).
Proof.
  intros H. each_month H; destruct leap; vm_compute; intuition discriminate.
Qed.

(** The month of a day of the year, from the table. *)
Lemma month_of_yearday (leap : bool) (w m : Z) :
  0 <= m <= 11 ->
  daysBefore leap m <= w < daysBefore leap (m + 1) ->
  (if w <? daysBefore leap 1 then 0
   else if w <? daysBefore leap 2 then 1
   else if w <? daysBefore leap 3 then 2
   else if w <? daysBefore leap 4 then 3
   else if w <? daysBefore leap 5 then 4
   else if w <? daysBefore leap 6 then 5
   else if w <? daysBefore leap 7 then 6
   else if w <? daysBefore leap 8 then 7
   else if w <? daysBefore leap 9 then 8
   else if w <? daysBefore leap 10 then 9
   else if w <? daysBefore leap 11 then 10
   else 11) = m.
Proof.
  intros Hm Hw.
  each_month Hm; destruct leap; eval_daysBefore;
    repeat match goal with
           | |- context [?a <? ?b] =>
               destruct (Z.ltb_spec a b); cbv iota; try lia
           end.
Qed.

Lemma MakeDay_in_year (y m d : Z) :
  0 <= m <= 11 ->
  MakeDay y m d = DayFromYear y + daysBefore (InLeapYear y) m + d - 1.
Proof.
  intros H. unfold MakeDay.
  replace (m / 12) with 0 by (Z.div_mod_to_equations; lia).
  replace (m mod 12) with m by (Z.div_mod_to_equations; lia).
  now rewrite Z.add_0_r.
Qed.

Lemma MakeDay_fields (y m d : Z) :
  0 <= m <= 11 ->
  1 <= d <= daysInMonth (InLeapYear y) m ->
  YearFromDay (MakeDay y m d) = y
  /\ MonthFromDay (MakeDay y m d) = m
  /\ DateFromDay (MakeDay y m d) = d.
Proof.
  intros Hm Hd. rewrite (MakeDay_in_year y d Hm).
  set (leap := InLeapYear y) in *. unfold daysInMonth in Hd.
  pose proof (daysBefore_range leap Hm) as R.
  assert (Hy : YearFromDay (DayFromYear y + daysBefore leap m + d - 1) = y).
  { apply YearFromDay_unique. rewrite DayFromYear_step. unfold DaysInYear.
    fold leap. destruct leap; lia. }
  split; [exact Hy|].
  unfold DateFromDay, MonthFromDay, DayWithinYear. rewrite Hy. fold leap.
  replace (DayFromYear y + daysBefore leap m + d - 1 - DayFromYear y)
    with (daysBefore leap m + d - 1) by lia.
  rewrite (@month_of_yearday leap (daysBefore leap m + d - 1) m Hm) by lia.
  split; [reflexivity | lia].
Qed.

End CalendarFacts.

(* ------------------------------------------------------------------------- *)
(** ** Dates *)

Section RegexFacts.
Variable A : Type.

Lemma starRun_some (p : ascii -> bool) (k : bool -> str -> option A) :
  forall s b x, starRun p k b s = Some x -> exists b' s', k b' s' = Some x.
Proof.
  induction s as [|c s IH]; intros b x H; simpl in H.
  - now exists b, [].
  - destruct (p c); [|now exists b, (c :: s)].
    destruct (starRun p k false s) eqn:E.
    + inversion H; subst. now apply IH in E.
    + now exists b, (c :: s).
Qed.

Lemma run_groups (ic : bool) (r : regex) :
  uniform r = true ->
  forall b s cs (k : bool -> str -> list str -> option A) x,
    run ic r b s cs k = Some x ->
    exists b' s' new,
      List.length new = groupCount r /\ k b' s' (cs ++ new) = Some x.
Proof.
  induction r as [| | |c|p|r1 IH1 r2 IH2|r1 IH1 r2 IH2|p|r1 IH1];
    intros Hu b s cs k x H; cbn [run groupCount] in *.
  - exists b, s, []. now rewrite app_nil_r.
  - destruct b; [|discriminate]. exists true, s, []. now rewrite app_nil_r.
  - destruct s; [|discriminate]. exists b, [], []. now rewrite app_nil_r.
  - destruct s as [|d s]; [discriminate|].
    destruct (sameChar ic c d); [|discriminate].
    exists false, s, []. now rewrite app_nil_r.
  - destruct s as [|d s]; [discriminate|].
    destruct (p d); [|discriminate].
    exists false, s, []. now rewrite app_nil_r.
  - cbn [uniform] in Hu. apply andb_true_iff in Hu. destruct Hu as [U1 U2].
    destruct (IH1 U1 _ _ _ _ _ H) as [b1 [s1 [n1 [L1 H1]]]].
    destruct (IH2 U2 _ _ _ _ _ H1) as [b2 [s2 [n2 [L2 H2]]]].
    exists b2, s2, (n1 ++ n2). split.
    + rewrite length_app. lia.
    + now rewrite app_assoc.
  - cbn [uniform] in Hu. apply andb_true_iff in Hu. destruct Hu as [Hu U3].
    apply andb_true_iff in Hu. destruct Hu as [U1 U2].
    apply Nat.eqb_eq in U3.
    destruct (run ic r1 b s cs k) eqn:E.
    + inversion H; subst. now apply IH1 in E.
    + rewrite U3. now apply IH2 in H.
  - apply starRun_some in H. destruct H as [b' [s' H]].
    exists b', s', []. now rewrite app_nil_r.
  - cbn [uniform] in Hu.
    destruct (IH1 Hu _ _ _ _ _ H) as [b1 [s1 [n1 [L1 H1]]]].
    exists b1, s1, (n1 ++ [firstn (List.length s - List.length s1) s]). split.
    + rewrite length_app. simpl. lia.
    + now rewrite app_assoc.
Qed.
End RegexFacts.

(** An expression that starts with [^] matches at the start or nowhere. *)
Lemma searchFrom_anchored (ic : bool) (r : regex) :
  forall s pre, searchFrom ic (Seq Bol r) false pre s = None.
Proof.
  induction s as [|c s IH]; intros pre; cbn [searchFrom run]; auto.
Qed.

Lemma exec_anchored (ic : bool) (r : regex) (s : str) :
  exec ic (Seq Bol r) s
  = run ic (Seq Bol r) true s [] (fun _ s' cs => Some (mkResult [] cs s')).
Proof.
  unfold exec. destruct s as [|c s]; cbn [searchFrom rev].
  - destruct (run ic (Seq Bol r) true [] [] _); reflexivity.
  - destruct (run ic (Seq Bol r) true (c :: s) [] _); [reflexivity|].
    apply searchFrom_anchored.
Qed.

Lemma exec_groups (ic : bool) (r : regex) (s : str) (m : result) :
  uniform r = true ->
  exec ic (Seq Bol r) s = Some m ->
  List.length (groups m) = groupCount r.
Proof.
  intros Hu H. rewrite exec_anchored in H.
  destruct (@run_groups _ ic (Seq Bol r) Hu _ _ _ _ _ H)
    as [b' [s' [new [L E]]]].
  inversion E; subst. exact L.
Qed.

Lemma three_groups (l : list str) :
  List.length l = 3%nat -> exists a b c, l = [a; b; c].
Proof.
  destruct l as [|a [|b [|c [|d l]]]]; try discriminate. now exists a, b, c.
Qed.

Lemma digit_not_sep (c : ascii) :
  isDigit c = true -> (eqChar c "/"%char || eqChar c "-"%char) = false.
Proof.
  destruct c as [[] [] [] [] [] [] [] []]; intros H;
    solve [reflexivity | discriminate H].
Qed.

Lemma iso_not_dmy (s : str) (m : result) :
  exec false dmyPattern s = Some m -> exec false isoPattern s = None.
Proof.
  unfold dmyPattern, isoPattern. cbn [SeqOf]. rewrite !exec_anchored.
  intros H.
  destruct s as [|c0 [|c1 [|c2 s]]]; try reflexivity.
  - cbn in H |- *. destruct (isDigit c0); reflexivity.
  - cbn in H |- *. destruct (isDigit c0); [|reflexivity].
    destruct (isDigit c1); reflexivity.
  - cbn in H |- *.
    destruct (isDigit c0) eqn:D0; [|reflexivity].
    destruct (isDigit c1) eqn:D1.
    + destruct (isDigit c2) eqn:D2; [|reflexivity].
      rewrite (digit_not_sep c2 D2) in H.
      rewrite (digit_not_sep c1 D1) in H. discriminate.
    + reflexivity.
Qed.

Section DateFacts.
Local Open Scope Z_scope.

Lemma exec_iso_groups (s : str) (m : result) :
  exec false isoPattern s = Some m -> exists a b c, groups m = [a; b; c].
Proof.
  intros H. apply three_groups.
  exact (@exec_groups false
           (SeqOf [Grp digits4; dateSep; Grp digits12; dateSep; Grp digits12;
                   Eol]) s m eq_refl H).
Qed.

Lemma exec_dmy_groups (s : str) (m : result) :
  exec false dmyPattern s = Some m -> exists a b c, groups m = [a; b; c].
Proof.
  intros H. apply three_groups.
  exact (@exec_groups false
           (SeqOf [Grp digits12; dateSep; Grp digits12; dateSep; Grp digits4;
                   Eol]) s m eq_refl H).
Qed.

Lemma matched_nonEmpty (r : regex) (s : str) (m : result) :
  exec false r [] = None -> exec false r (trim s) = Some m -> nonEmpty s = true.
Proof.
  intros H0 H. destruct s; [|reflexivity].
  change (trim []) with (@nil ascii) in H. congruence.
Qed.

(** The first pattern wins. *)
Lemma parse_iso (s : str) (m : result) :
  exec false isoPattern (trim s) = Some m ->
  exists gy gm gd,
    groups m = [gy; gm; gd]
    /\ parseDateSmart s = Some (newDate (toInt gy) (toInt gm - 1) (toInt gd)).
Proof.
  intros H. destruct (exec_iso_groups _ H) as [gy [gm [gd G]]].
  exists gy, gm, gd. split; [exact G|].
  unfold parseDateSmart.
  rewrite (matched_nonEmpty isoPattern s eq_refl H). cbn [negb].
  rewrite H. cbn [option_map]. now rewrite G.
Qed.

(** The second pattern is read when the first fails, day first. *)
Lemma parse_dmy (s : str) (m : result) :
  exec false dmyPattern (trim s) = Some m ->
  exists gd gm gy,
    groups m = [gd; gm; gy]
    /\ parseDateSmart s = Some (newDate (toInt gy) (toInt gm - 1) (toInt gd)).
Proof.
  intros H. destruct (exec_dmy_groups _ H) as [gd [gm [gy G]]].
  exists gd, gm, gy. split; [exact G|].
  unfold parseDateSmart.
  rewrite (matched_nonEmpty dmyPattern s eq_refl H). cbn [negb].
  rewrite (iso_not_dmy _ H), H. cbn [option_map]. now rewrite G.
Qed.

Lemma parse_prose_only (s : str) :
  exec false isoPattern (trim s) = None ->
  exec false dmyPattern (trim s) = None ->
  parseDateSmart s
  = if nonEmpty s then parseProse (removeFirst true timePrefix (trim s))
    else None.
Proof.
  intros H1 H2. unfold parseDateSmart. rewrite H1, H2.
  destruct (nonEmpty s); reflexivity.
Qed.

Lemma newDate_year (y m d : Z) : 100 <= y -> newDate y m d = mkDate (MakeDay y m d).
Proof.
  intros H. unfold newDate.
  destruct (Z.leb_spec y 99); [lia|]. now rewrite andb_false_r.
Qed.

(** A date never shows digits that are no day of the calendar. *)
Lemma shown_inCalendar (t : Date) :
  inCalendar (getFullYear t) (getMonth t + 1) (getDate t).
Proof.
  unfold inCalendar, getFullYear, getMonth, getDate.
  pose proof (fields_valid (dayNumber t)) as [H1 H2].
  replace (MonthFromDay (dayNumber t) + 1 - 1)
    with (MonthFromDay (dayNumber t)) by lia.
  lia.
Qed.

Lemma shown_differs (y m d : Z) :
  ~ inCalendar y m d -> shown (newDate y (m - 1) d) <> (y, m, d).
Proof.
  intros H E. apply H. unfold shown in E.
  pose proof (shown_inCalendar (newDate y (m - 1) d)) as V.
  set (t := newDate y (m - 1) d) in *.
  injection E as E1 E2 E3. now rewrite E1, E2, E3 in V.
Qed.

(** A day past the end of a month, up to 31, is a day of the next month. *)
Lemma day_overflow (y m d : Z) :
  100 <= y -> 1 <= m <= 12 ->
  daysInMonth (InLeapYear y) (m - 1) < d <= 31 ->
  shown (newDate y (m - 1) d)
  = (y, m + 1, d - daysInMonth (InLeapYear y) (m - 1)).
Proof.
  intros Hy Hm Hd. rewrite (newDate_year _ _ Hy). unfold shown.
  assert (Hm' : 0 <= m - 1 <= 11) by lia.
  assert (Hnext : 0 <= m <= 11
                  /\ d - daysInMonth (InLeapYear y) (m - 1)
                     <= daysInMonth (InLeapYear y) m).
  { unfold daysInMonth in *. replace (m - 1 + 1) with m in * by lia.
    destruct (InLeapYear y);
      (assert (T : m = 1 \/ m = 2 \/ m = 3 \/ m = 4 \/ m = 5 \/ m = 6
                   \/ m = 7 \/ m = 8 \/ m = 9 \/ m = 10 \/ m = 11 \/ m = 12)
        by lia);
      destruct T as [->|[->|[->|[->|[->|[->|[->|[->|[->|[->|[->| ->]]]]]]]]]]];
      simpl Z.sub in *; simpl Z.add in *; eval_daysBefore; lia. }
  destruct Hnext as [Hm2 Hd2].
  assert (E : MakeDay y (m - 1) d
              = MakeDay y m (d - daysInMonth (InLeapYear y) (m - 1))).
  { rewrite (MakeDay_in_year y d Hm'), (MakeDay_in_year y _ Hm2).
    unfold daysInMonth. replace (m - 1 + 1) with m by lia. lia. }
  rewrite E.
  destruct (@MakeDay_fields y m (d - daysInMonth (InLeapYear y) (m - 1)) Hm2)
    as [F1 [F2 F3]]; [lia|].
  unfold getFullYear, getMonth, getDate; cbn [dayNumber].
  now rewrite F1, F2, F3.
Qed.

(** Month 13 is January of the next year. *)
Lemma month_overflow (y d : Z) :
  100 <= y -> 1 <= d <= 31 -> shown (newDate y 12 d) = (y + 1, 1, d).
Proof.
  intros Hy Hd. rewrite (newDate_year _ _ Hy). unfold shown.
  unfold getFullYear, getMonth, getDate; cbn [dayNumber].
  assert (E : MakeDay y 12 d = MakeDay (y + 1) 0 d).
  { unfold MakeDay. change (12 / 12) with 1. change (12 mod 12) with 0.
    change (0 / 12) with 0. change (0 mod 12) with 0.
    now rewrite (Z.add_0_r (y + 1)). }
  rewrite E.
  assert (H0 : 0 <= 0 <= 11) by lia.
  assert (H1 : 1 <= d <= daysInMonth (InLeapYear (y + 1)) 0).
  { unfold daysInMonth. simpl Z.add. eval_daysBefore. lia. }
  destruct (@MakeDay_fields (y + 1) 0 d H0 H1) as [F1 [F2 F3]].
  now rewrite F1, F2, F3.
Qed.

End DateFacts.

(** C5.  The three patterns are tried in a fixed order and the numeric form
    with a one or two digit first field reads the day before the month:
    "01/02/2024" is 1 February 2024, "2024-02-01" is 1 February 2024 and
    "1 March, 2024" is 1 March 2024; an input that matches none of the three
    patterns is unparseable, nothing else is tried. *)
Theorem date_precedence :
  shownDate "01/02/2024" = Some (2024, 2, 1)%Z
  /\ shownDate "2024-02-01" = Some (2024, 2, 1)%Z
  /\ shownDate "1 March, 2024" = Some (2024, 3, 1)%Z
  /\ (forall s m,
         exec false isoPattern (trim s) = Some m ->
         exists gy gm gd,
           groups m = [gy; gm; gd]
           /\ parseDateSmart s
              = Some (newDate (toInt gy) (toInt gm - 1) (toInt gd)))
  /\ (forall s m,
         exec false isoPattern (trim s) = None ->
         exec false dmyPattern (trim s) = Some m ->
         exists gd gm gy,
           groups m = [gd; gm; gy]
           /\ parseDateSmart s
              = Some (newDate (toInt gy) (toInt gm - 1) (toInt gd)))
  /\ (forall s,
         exec false isoPattern (trim s) = None ->
         exec false dmyPattern (trim s) = None ->
         exec true prosePattern (removeFirst true timePrefix (trim s)) = None ->
         parseDateSmart s = None).
Proof.
  split; [vm_compute; reflexivity|].
  split; [vm_compute; reflexivity|].
  split; [vm_compute; reflexivity|].
  split; [exact parse_iso|].
  split; [intros s m _; apply parse_dmy|].
  intros s H1 H2 H3. rewrite (parse_prose_only s H1 H2).
  unfold parseProse. rewrite H3. now destruct (nonEmpty s).
Qed.

Lemma date_precedence_witness :
  parseDateSmart (js "March 1, 2024") = None
  /\ exists gd gm gy,
       toInt gd = 1%Z /\ toInt gm = 2%Z /\ toInt gy = 2024%Z
       /\ parseDateSmart (js "01/02/2024")
          = Some (newDate (toInt gy) (toInt gm - 1) (toInt gd)).
Proof.
  pose proof date_precedence as [_ [_ [_ [_ [H2 H3]]]]].
  split.
  - apply (H3 (js "March 1, 2024")); reflexivity.
  - destruct (H2 (js "01/02/2024")
                 (mkResult [] [js "01"; js "02"; js "2024"] [])
                 eq_refl eq_refl) as [gd [gm [gy [G E]]]].
    exists gd, gm, gy. injection G as <- <- <-.
    split; [reflexivity|]. split; [reflexivity|]. split; [reflexivity|].
    exact E.
Defined.

(** C10 (as amended).  The date parser does not check the day and the
    month of the numeric patterns against the calendar: every input that
    matches the YYYY-MM-DD or the D/M/YYYY pattern yields a date, never the
    unparseable result; the date is a day of the calendar, so it does not
    show the digits of the input when their day or month is out of range;
    a day up to 31 past the end of its month is the day of the next month,
    month 13 is January of the next year, "31/02/2024" is 2 March 2024 and
    "2024-13-05" is 5 January 2025. *)
Theorem out_of_range_rolls_over :
  (forall s m,
      exec false isoPattern (trim s) = Some m ->
      exists gy gm gd,
        groups m = [gy; gm; gd]
        /\ parseDateSmart s
           = Some (newDate (toInt gy) (toInt gm - 1) (toInt gd)))
  /\ (forall s m,
         exec false dmyPattern (trim s) = Some m ->
         exists gd gm gy,
           groups m = [gd; gm; gy]
           /\ parseDateSmart s
              = Some (newDate (toInt gy) (toInt gm - 1) (toInt gd)))
  /\ (forall y m d,
         inCalendar (getFullYear (newDate y (m - 1) d))
                    (getMonth (newDate y (m - 1) d) + 1)
                    (getDate (newDate y (m - 1) d))
         /\ (~ inCalendar y m d -> shown (newDate y (m - 1) d) <> (y, m, d)))
  /\ (forall y m d,
         (100 <= y)%Z -> (1 <= m <= 12)%Z ->
         (daysInMonth (InLeapYear y) (m - 1) < d <= 31)%Z ->
         shown (newDate y (m - 1) d)
         = (y, m + 1, d - daysInMonth (InLeapYear y) (m - 1))%Z)
  /\ (forall y d,
         (100 <= y)%Z -> (1 <= d <= 31)%Z ->
         shown (newDate y 12 d) = (y + 1, 1, d)%Z)
  /\ shownDate "31/02/2024" = Some (2024, 3, 2)%Z
  /\ shownDate "2024-13-05" = Some (2025, 1, 5)%Z.
Proof.
  split; [exact parse_iso|].
  split; [exact parse_dmy|].
  split; [intros y m d; split; [apply shown_inCalendar | apply shown_differs]|].
  split; [exact day_overflow|].
  split; [exact month_overflow|].
  split; vm_compute; reflexivity.
Qed.

Lemma out_of_range_rolls_over_witness :
  shown (newDate 2024 (2 - 1) 31) = (2024, 2 + 1, 31 - 29)%Z
  /\ shown (newDate 2024 (2 - 1) 31) <> (2024, 2, 31)%Z
  /\ shown (newDate 2024 12 5) = (2024 + 1, 1, 5)%Z.
Proof.
  pose proof out_of_range_rolls_over as [_ [_ [H3 [H4 [H5 _]]]]].
  split; [|split].
  - apply (H4 2024 2 31)%Z; [lia | lia | vm_compute; split; [reflexivity | discriminate]].
  - apply (proj2 (H3 2024 2 31)%Z). unfold inCalendar. vm_compute.
    intros [_ [_ H]]. now apply H.
  - apply (H5 2024 5)%Z; lia.
Defined.

(** C10 as stated fails in its "adjacent month or year": "99/01/2024" is
    read as the 99th day from the start of January 2024, 8 April 2024. *)
Lemma far_roll_over :
  shownDate "99/01/2024" = Some (2024, 4, 8)%Z
  /\ ~ (forall t, parseDateSmart (js "99/01/2024") = Some t ->
                  adjacentMonthOrYear 2024 1 t).
Proof.
  split; [vm_compute; reflexivity|].
  intros H. specialize (H (newDate 2024 0 99) ltac:(vm_compute; reflexivity)).
  unfold adjacentMonthOrYear in H. vm_compute in H.
  destruct H as [[_ [H|H]]|[H|H]]; discriminate H.
Qed.

(* ------------------------------------------------------------------------- *)
(** ** Rule upsert *)

Section LineFacts.

Lemma eqChar_false (a b : ascii) : eqChar a b = false <-> a <> b.
Proof. apply Ascii.eqb_neq. Qed.

Lemma endsWithCR_tail (c : ascii) (l : str) :
  endsWithCR (c :: l) = false -> endsWithCR l = false.
Proof. destruct l; [reflexivity | auto]. Qed.

Lemma splitLines_cons (l : str) :
  ~ In LF l -> endsWithCR l = false ->
  forall rest, splitLines (l ++ LF :: rest) = l :: splitLines rest.
Proof.
  induction l as [|c l IH]; intros Hn He rest.
  - reflexivity.
  - assert (Hc : eqChar c LF = false).
    { apply eqChar_false. intros ->. apply Hn. now left. }
    assert (Hn' : ~ In LF l) by (intros H; apply Hn; now right).
    pose proof (IH Hn' (endsWithCR_tail c l He) rest) as E.
    destruct l as [|d l].
    + cbn [app splitLines]. rewrite Hc. cbn [endsWithCR] in He. rewrite He.
      reflexivity.
    + assert (Hd : eqChar d LF = false).
      { apply eqChar_false. intros ->. apply Hn'. now left. }
      change ((c :: d :: l) ++ LF :: rest)
        with (c :: (d :: l) ++ LF :: rest).
      change (splitLines (c :: (d :: l) ++ LF :: rest))
        with (if eqChar c LF then [] :: splitLines ((d :: l) ++ LF :: rest)
              else if eqChar c CR && eqChar d LF
                   then [] :: splitLines (l ++ LF :: rest)
                   else match splitLines ((d :: l) ++ LF :: rest) with
                        | l0 :: ls => (c :: l0) :: ls
                        | [] => [[c]]
                        end).
      now rewrite Hc, Hd, andb_false_r, E.
Qed.

Lemma splitLines_single (l : str) : ~ In LF l -> splitLines l = [l].
Proof.
  induction l as [|c l IH]; intros Hn; [reflexivity|].
  assert (Hc : eqChar c LF = false).
  { apply eqChar_false. intros ->. apply Hn. now left. }
  assert (Hn' : ~ In LF l) by (intros H; apply Hn; now right).
  cbn [splitLines]. rewrite Hc. destruct l as [|d l]; [reflexivity|].
  assert (Hd : eqChar d LF = false).
  { apply eqChar_false. intros ->. apply Hn'. now left. }
  rewrite Hd, andb_false_r. now rewrite (IH Hn').
Qed.

(** Splitting what was joined gives the lines back. *)
Lemma splitLines_joinLines (ls : list str) :
  ls <> [] -> Forall lineOk ls -> splitLines (joinLines ls) = ls.
Proof.
  induction ls as [|l ls IH]; intros Hne Hok; [congruence|].
  inversion Hok as [|? ? [Hn He] Hok']; subst.
  destruct ls as [|l2 ls].
  - simpl. now apply splitLines_single.
  - change (joinLines (l :: l2 :: ls)) with (l ++ LF :: joinLines (l2 :: ls)).
    rewrite (@splitLines_cons l Hn He). f_equal. apply IH; [discriminate | exact Hok'].
Qed.

Lemma splitLines_nonempty (s : str) : splitLines s <> [].
Proof.
  induction s as [|c s IH]; [discriminate|]. cbn [splitLines].
  destruct (eqChar c LF); [discriminate|].
  destruct s as [|d s]; [discriminate|].
  destruct (eqChar c CR && eqChar d LF); [discriminate|].
  destruct (splitLines (d :: s)); discriminate.
Qed.

Lemma splitLines_noLF (s : str) :
  forall l, In l (splitLines s) -> ~ In LF l.
Proof.
  assert (H : forall n s, (List.length s <= n)%nat ->
                          forall l, In l (splitLines s) -> ~ In LF l).
  { induction n as [|n IH]; intros s0 Hlen l Hin.
    - destruct s0; [|simpl in Hlen; lia].
      destruct Hin as [<-|[]]. intros [].
    - destruct s0 as [|c s0]; [destruct Hin as [<-|[]]; intros []|].
      simpl in Hlen. cbn [splitLines] in Hin.
      destruct (eqChar c LF) eqn:Ec.
      + destruct Hin as [<-|Hin]; [intros []|]. apply (IH s0); [lia | exact Hin].
      + apply eqChar_false in Ec.
        destruct s0 as [|d s0].
        * destruct Hin as [<-|[]]. intros [E|[]]. congruence.
        * destruct (eqChar c CR && eqChar d LF) eqn:Et.
          -- destruct Hin as [<-|Hin]; [intros []|].
             simpl in Hlen. apply (IH s0); [lia | exact Hin].
          -- destruct (splitLines (d :: s0)) as [|l0 ls0] eqn:Es.
             ++ destruct Hin as [<-|[]]. intros [E|[]]. congruence.
             ++ destruct Hin as [<-|Hin].
                ** intros [E|E]; [congruence|].
                   apply (IH (d :: s0) ltac:(lia) l0); [rewrite Es; now left | exact E].
                ** apply (IH (d :: s0) ltac:(lia) l). rewrite Es. now right. }
  intros l. apply (H (List.length s) s). lia.
Qed.

End LineFacts.

Section TrimFacts.

Lemma dropWhile_stop (p : ascii -> bool) (c : ascii) (y : str) :
  p c = false ->
  forall x, dropWhile p (x ++ c :: y) = dropWhile p x ++ c :: y.
Proof.
  intros Hc. induction x as [|a x IH]; simpl.
  - now rewrite Hc.
  - destruct (p a); [exact IH | reflexivity].
Qed.

Lemma trimEnd_stop (a b : str) (c : ascii) :
  isSpace c = false -> trimEnd (a ++ c :: b) = a ++ c :: trimEnd b.
Proof.
  intros Hc. unfold trimEnd.
  rewrite rev_app_distr. simpl rev. rewrite <- app_assoc. simpl app.
  rewrite (dropWhile_stop isSpace c (rev a) Hc).
  rewrite rev_app_distr. simpl rev. rewrite rev_involutive.
  now rewrite <- app_assoc.
Qed.

Lemma dropWhile_length (p : ascii -> bool) (s : str) :
  dropWhile p s = s \/ (List.length (dropWhile p s) < List.length s)%nat.
Proof.
  induction s as [|c s IH]; simpl; [now left|].
  destruct (p c); [|now left]. right. destruct IH as [->|H]; lia.
Qed.

Lemma trimEnd_length (s : str) : (List.length (trimEnd s) <= List.length s)%nat.
Proof.
  unfold trimEnd. rewrite length_rev.
  destruct (dropWhile_length isSpace (rev s)) as [->|H];
    rewrite length_rev in *; lia.
Qed.

Lemma trim_fixed (s : str) : trim s = s -> trimStart s = s /\ trimEnd s = s.
Proof.
  unfold trim. intros H.
  assert (E : trimStart s = s).
  { unfold trimStart in *.
    destruct (dropWhile_length isSpace s) as [E|L]; [exact E|].
    pose proof (trimEnd_length (dropWhile isSpace s)) as L2.
    rewrite H in L2. lia. }
  split; [exact E | now rewrite E in H].
Qed.

Lemma trimStart_head (c : ascii) (s : str) :
  trimStart (c :: s) = c :: s -> isSpace c = false.
Proof.
  unfold trimStart. simpl. destruct (isSpace c); [|reflexivity].
  intros H. destruct (dropWhile_length isSpace s) as [E|L].
  - rewrite E in H. apply (f_equal (@List.length ascii)) in H. simpl in H. lia.
  - apply (f_equal (@List.length ascii)) in H. simpl in H. lia.
Qed.

Lemma trimEnd_space (s : str) : trimEnd (s ++ [" "%char]) = trimEnd s.
Proof. unfold trimEnd. rewrite rev_app_distr. reflexivity. Qed.

Lemma hasArrow_snoc (s : str) (c : ascii) :
  hasArrow s = false -> eqChar c ">"%char = false -> hasArrow (s ++ [c]) = false.
Proof.
  intros H Hc. induction s as [|a s IH]; [reflexivity|].
  destruct s as [|d s].
  - simpl. now rewrite Hc, andb_false_r.
  - cbn [hasArrow] in H. apply orb_false_iff in H. destruct H as [H1 H2].
    change ((a :: d :: s) ++ [c]) with (a :: d :: (s ++ [c])).
    cbn [hasArrow]. rewrite H1. cbn [orb]. apply (IH H2).
Qed.

Lemma splitArrow_nonempty (s : str) : splitArrow s <> [].
Proof.
  induction s as [|c s IH]; [discriminate|]. cbn [splitArrow].
  destruct s as [|d s]; [discriminate|].
  destruct (eqChar c "=" && eqChar d ">"); [discriminate|].
  destruct (splitArrow (d :: s)); discriminate.
Qed.

(** The first piece is what stands in front of the first arrow. *)
Lemma splitArrow_first (p rest : str) :
  hasArrow p = false ->
  splitArrow (p ++ "="%char :: ">"%char :: rest) = p :: splitArrow rest.
Proof.
  induction p as [|c p IH]; intros H; [reflexivity|].
  destruct p as [|d p].
  - cbn [app splitArrow]. rewrite andb_false_r. reflexivity.
  - cbn [hasArrow] in H. apply orb_false_iff in H. destruct H as [H1 H2].
    change ((c :: d :: p) ++ "="%char :: ">"%char :: rest)
      with (c :: d :: (p ++ "="%char :: ">"%char :: rest)).
    cbn [splitArrow]. rewrite H1.
    pose proof (IH H2) as E.
    change ((d :: p) ++ "="%char :: ">"%char :: rest)
      with (d :: (p ++ "="%char :: ">"%char :: rest)) in E.
    cbn [splitArrow] in E. rewrite E. reflexivity.
Qed.

End TrimFacts.

Section UpsertFacts.

(** The line written for a plain keyword is a line of that keyword. *)
Lemma ruleLine_hasKeyword (kw cat : str) :
  kw <> [] -> plainKeyword kw ->
  lineHasKeyword (toLowerCase kw) (ruleLine kw cat) = true.
Proof.
  intros Hne [Ht [Ha [_ Hh]]].
  destruct (@trim_fixed kw Ht) as [Hs He].
  destruct kw as [|k0 kw']; [congruence|].
  pose proof (@trimStart_head _ _ Hs) as Hk0.
  set (kw := k0 :: kw') in *.
  assert (Hline : trim (ruleLine kw cat)
                  = (kw ++ [" "%char]) ++ "="%char :: ">"%char
                       :: trimEnd (" "%char :: cat)).
  { unfold trim, ruleLine, trimStart.
    assert (E : dropWhile isSpace (kw ++ js " => " ++ cat)
                = kw ++ js " => " ++ cat).
    { unfold kw. simpl. now rewrite Hk0. }
    rewrite E.
    change (kw ++ js " => " ++ cat)
      with (kw ++ " "%char :: "="%char :: ">"%char :: " "%char :: cat).
    replace (kw ++ " "%char :: "="%char :: ">"%char :: " "%char :: cat)
      with ((kw ++ [" "%char; "="%char]) ++ ">"%char :: " "%char :: cat)
      by (now rewrite <- app_assoc).
    rewrite trimEnd_stop by reflexivity.
    now rewrite <- !app_assoc. }
  unfold lineHasKeyword. rewrite Hline.
  assert (Hnon : nonEmpty ((kw ++ [" "%char]) ++ "="%char :: ">"%char
                             :: trimEnd (" "%char :: cat)) = true)
    by reflexivity.
  rewrite Hnon. cbn [negb orb].
  assert (Hhash : startsWithChar "#"%char
                    ((kw ++ [" "%char]) ++ "="%char :: ">"%char
                       :: trimEnd (" "%char :: cat)) = false)
    by exact Hh.
  rewrite Hhash.
  rewrite splitArrow_first
    by (apply hasArrow_snoc; [exact Ha | reflexivity]).
  destruct (splitArrow (trimEnd (" "%char :: cat))) as [|p1 ps] eqn:Ep;
    [now apply splitArrow_nonempty in Ep|].
  assert (Hp0 : trim (kw ++ [" "%char]) = kw).
  { unfold trim, trimStart.
    assert (E : dropWhile isSpace (kw ++ [" "%char]) = kw ++ [" "%char]).
    { unfold kw. simpl. now rewrite Hk0. }
    rewrite E, trimEnd_space. exact He. }
  rewrite Hp0. apply eqStr_refl.
Qed.

Lemma updateLines_found (kwLower newLine : str) (pre post : list str) :
  (forall x, In x pre -> lineHasKeyword kwLower x = false) ->
  lineHasKeyword kwLower newLine = true ->
  updateLines kwLower newLine (pre ++ newLine :: post)
  = Some (pre ++ newLine :: post).
Proof.
  intros Hpre Hnew. induction pre as [|x pre IH]; simpl.
  - now rewrite Hnew.
  - rewrite (Hpre x) by now left.
    rewrite IH; [reflexivity|]. intros y Hy. apply Hpre. now right.
Qed.

Lemma updateLines_some (kwLower newLine : str) (ls ls' : list str) :
  updateLines kwLower newLine ls = Some ls' ->
  exists pre l post,
    ls = pre ++ l :: post /\ ls' = pre ++ newLine :: post
    /\ forall x, In x pre -> lineHasKeyword kwLower x = false.
Proof.
  revert ls'; induction ls as [|l ls IH]; intros ls' H; simpl in H;
    [discriminate|].
  destruct (lineHasKeyword kwLower l) eqn:E.
  - inversion H; subst. exists [], l, ls. repeat split. intros ? [].
  - destruct (updateLines kwLower newLine ls) as [r|] eqn:Er; [|discriminate].
    inversion H; subst.
    destruct (IH r eq_refl) as [pre [l0 [post [H1 [H2 H3]]]]].
    exists (l :: pre), l0, post. split; [simpl; now rewrite H1|].
    split; [simpl; now rewrite H2|].
    intros x [<-|Hx]; auto.
Qed.

Lemma updateLines_none (kwLower newLine : str) (ls : list str) :
  updateLines kwLower newLine ls = None ->
  forall x, In x ls -> lineHasKeyword kwLower x = false.
Proof.
  induction ls as [|l ls IH]; intros H x Hx; simpl in H; [destruct Hx|].
  destruct (lineHasKeyword kwLower l) eqn:E; [discriminate|].
  destruct (updateLines kwLower newLine ls) eqn:Er; [discriminate|].
  destruct Hx as [<-|Hx]; auto.
Qed.

Lemma endsWithCR_app (a b : str) :
  b <> [] -> endsWithCR (a ++ b) = endsWithCR b.
Proof.
  intros Hb. induction a as [|c a IH]; [reflexivity|].
  simpl app. cbn [endsWithCR].
  destruct (a ++ b) eqn:E; [|exact IH].
  apply app_eq_nil in E. destruct E; congruence.
Qed.

Lemma ruleLine_ok (kw cat : str) :
  cat <> [] -> plainKeyword kw -> plainCategory cat ->
  lineOk (ruleLine kw cat).
Proof.
  intros Hne [_ [_ [Hk _]]] [Hc He]. unfold lineOk, ruleLine. split.
  - intros H. apply in_app_or in H. destruct H as [H|H]; [now apply Hk|].
    apply in_app_or in H. destruct H as [H|H]; [|now apply Hc].
    simpl in H. repeat (destruct H as [H|H]; [discriminate H|]). exact H.
  - rewrite app_assoc. now rewrite endsWithCR_app.
Qed.

End UpsertFacts.

(** C9 (as amended).  For every rule text none of whose lines ends in a
    carriage return, every keyword without white space around it, without
    an arrow or a line feed in it and without [#] in front, and every
    category without a line feed in it and without a carriage return at its
    end, a second upsert of the same keyword and category leaves the text of
    the first unchanged. *)
Theorem upsert_idempotent (text kw cat : str) :
  plainText text -> plainKeyword kw -> plainCategory cat ->
  upsert (upsert text kw cat) kw cat = upsert text kw cat.
Proof.
  intros Htext Hkw Hcat. unfold upsert, addOrUpdateRuleLine.
  destruct (nonEmpty kw) eqn:Ek; cbn [negb orb snd]; [|reflexivity].
  destruct (nonEmpty cat) eqn:Ec; cbn [negb orb snd]; [|reflexivity].
  apply nonEmpty_true in Ek, Ec.
  pose proof (ruleLine_hasKeyword cat Ek Hkw) as Hnew.
  pose proof (ruleLine_ok Ec Hkw Hcat) as Hok.
  set (new := ruleLine kw cat) in *.
  set (kwl := toLowerCase kw) in *.
  assert (Hlines : Forall lineOk (splitLines text)).
  { apply Forall_forall. intros l Hl. split.
    - now apply (splitLines_noLF text).
    - unfold plainText in Htext. rewrite Forall_forall in Htext. auto. }
  set (ls := splitLines text) in *.
  assert (Hfix : forall ls',
             ls' <> [] -> Forall lineOk ls' ->
             updateLines kwl new ls' = Some ls' ->
             joinLines match updateLines kwl new (splitLines (joinLines ls'))
                       with
                       | Some r => r
                       | None => splitLines (joinLines ls') ++ [new]
                       end = joinLines ls').
  { intros ls' Hne Hall Hup. rewrite (splitLines_joinLines Hne Hall).
    now rewrite Hup. }
  destruct (updateLines kwl new ls) as [ls'|] eqn:Eu.
  - destruct (updateLines_some _ _ _ Eu) as [pre [l [post [E1 [E2 Hpre]]]]].
    apply Hfix.
    + rewrite E2. now destruct pre.
    + rewrite E2. rewrite E1 in Hlines.
      apply Forall_app in Hlines. destruct Hlines as [Hp Hq].
      inversion Hq; subst. apply Forall_app. split; [exact Hp|].
      constructor; assumption.
    + rewrite E2. now apply updateLines_found.
  - apply Hfix.
    + now destruct ls.
    + apply Forall_app. split; [exact Hlines | now constructor].
    + apply updateLines_found; [|exact Hnew].
      now apply (updateLines_none _ _ _ Eu).
Qed.

Lemma upsert_idempotent_witness :
  upsert (upsert sampleRules (js "FOO") (js "BAZ")) (js "FOO") (js "BAZ")
  = upsert sampleRules (js "FOO") (js "BAZ").
Proof.
  apply (@upsert_idempotent sampleRules (js "FOO") (js "BAZ")).
  - unfold plainText. vm_compute. repeat constructor.
  - unfold plainKeyword. repeat split; try reflexivity.
    simpl. intuition discriminate.
  - unfold plainCategory. split; [|reflexivity].
    simpl. intuition discriminate.
Defined.

(** C9 as stated fails for a keyword that starts with [#]: the line
    written for it is a comment to the next upsert, which appends the line
    once more. *)
Lemma upsert_appends_again :
  upsert (upsert sampleRules hashKeyword (js "FOOD")) hashKeyword (js "FOOD")
  <> upsert sampleRules hashKeyword (js "FOOD").
Proof. vm_compute. discriminate. Qed.

(* ========================================================================= *)
(** * Further properties of the code *)

(* ------------------------------------------------------------------------- *)
(** ** Text utilities *)

Section EscapeFacts.

Lemma flat_map_flat_map {A B C} (f : A -> list B) (g : B -> list C) (l : list A) :
  flat_map g (flat_map f l) = flat_map (fun x => flat_map g (f x)) l.
Proof.
  induction l as [|x l IH]; simpl; [reflexivity|].
  now rewrite flat_map_app, IH.
Qed.

Lemma escapeChar_pass (c : ascii) :
  replaceChar APOS (js "&#039;")
    (replaceChar QUOT (js "&quot;")
       (replaceChar ">"%char (js "&gt;")
          (replaceChar "<"%char (js "&lt;")
             (replaceChar "&"%char (js "&amp;") [c]))))
  = escapeChar c.
Proof. destruct c as [[] [] [] [] [] [] [] []]; reflexivity. Qed.

Lemma replaceChar_app (c : ascii) (r a b : str) :
  replaceChar c r (a ++ b) = replaceChar c r a ++ replaceChar c r b.
Proof. apply flat_map_app. Qed.

Lemma escapeHtml_app (a b : str) :
  escapeHtml (a ++ b) = escapeHtml a ++ escapeHtml b.
Proof. unfold escapeHtml. now rewrite !replaceChar_app. Qed.

Lemma escapeHtml_flat (s : str) : escapeHtml s = flat_map escapeChar s.
Proof.
  induction s as [|c s IH]; [reflexivity|].
  change (c :: s) with ([c] ++ s). rewrite escapeHtml_app, IH.
  unfold escapeHtml at 1. now rewrite escapeChar_pass.
Qed.

Lemma escapeChar_clean (c d : ascii) : In d (escapeChar c) -> isMarkup d = false.
Proof.
  destruct c as [[] [] [] [] [] [] [] []]; simpl;
    intros H; repeat (destruct H as [<-|H]; [reflexivity|]); destruct H.
Qed.

Lemma escapeChar_head (c : ascii) :
  exists d rest, escapeChar c = d :: rest.
Proof. destruct c as [[] [] [] [] [] [] [] []]; eexists; eexists; reflexivity. Qed.

(** The six kinds of output form a prefix code. *)
Lemma escapeChar_prefix_free (x y : ascii) (a b : str) :
  escapeChar x ++ a = escapeChar y ++ b -> x = y /\ a = b.
Proof.
  unfold escapeChar.
  destruct (eqChar x "&") eqn:X1; [apply eqChar_true in X1; subst x|];
  [|destruct (eqChar x "<") eqn:X2; [apply eqChar_true in X2; subst x|]];
  [| |destruct (eqChar x ">") eqn:X3; [apply eqChar_true in X3; subst x|]];
  [| | |destruct (eqChar x QUOT) eqn:X4; [apply eqChar_true in X4; subst x|]];
  [| | | |destruct (eqChar x APOS) eqn:X5; [apply eqChar_true in X5; subst x|]].
  all: destruct (eqChar y "&") eqn:Y1; [apply eqChar_true in Y1; subst y|];
    [|destruct (eqChar y "<") eqn:Y2; [apply eqChar_true in Y2; subst y|]];
    [| |destruct (eqChar y ">") eqn:Y3; [apply eqChar_true in Y3; subst y|]];
    [| | |destruct (eqChar y QUOT) eqn:Y4; [apply eqChar_true in Y4; subst y|]];
    [| | | |destruct (eqChar y APOS) eqn:Y5; [apply eqChar_true in Y5; subst y|]].
  all: simpl; intros H; try discriminate H.
  all: try (injection H as H; split; [reflexivity | exact H]).
  all: try (injection H as H0 H; subst;
            first [ rewrite eqChar_refl in X1; discriminate
                  | rewrite eqChar_refl in Y1; discriminate
                  | split; [reflexivity | exact H] ]).
  injection H as -> ->. now split.
Qed.

End EscapeFacts.

(** X1.  [escapeHtml] is the one-pass escape: each of the five characters
    is replaced by its entity once, an ampersand written by a replacement
    is not escaped again; the result holds no angle bracket and no quote;
    and two strings with the same escape are equal. *)
Theorem escapeHtml_single_pass :
  (forall s, escapeHtml s = flat_map escapeChar s)
  /\ (forall s c, In c (escapeHtml s) -> isMarkup c = false)
  /\ (forall a b, escapeHtml a = escapeHtml b -> a = b).
Proof.
  split; [exact escapeHtml_flat|]. split.
  - intros s c. rewrite escapeHtml_flat, in_flat_map.
    intros [x [_ H]]. now apply (escapeChar_clean x).
  - intros a b. rewrite !escapeHtml_flat. revert b.
    induction a as [|x a IH]; intros [|y b]; simpl; intros H.
    + reflexivity.
    + destruct (escapeChar_head y) as [d [r E]]. rewrite E in H. discriminate.
    + destruct (escapeChar_head x) as [d [r E]]. rewrite E in H. discriminate.
    + apply escapeChar_prefix_free in H. destruct H as [-> H].
      f_equal. now apply IH.
Qed.

Section RunFacts.

Lemma replaceRuns_chars (p : ascii -> bool) (r : str) (s : str) :
  forall b c, In c (replaceRuns p r b s) ->
              In c r \/ (In c s /\ p c = false).
Proof.
  induction s as [|x s IH]; intros b c H; simpl in H; [destruct H|].
  destruct (p x) eqn:E.
  - destruct b.
    + destruct (IH _ _ H) as [H1|[H1 H2]]; [now left | right; split; [now right | exact H2]].
    + apply in_app_or in H. destruct H as [H|H]; [now left|].
      destruct (IH _ _ H) as [H1|[H1 H2]]; [now left | right; split; [now right | exact H2]].
  - destruct H as [<-|H]; [right; split; [now left | exact E]|].
    destruct (IH _ _ H) as [H1|[H1 H2]]; [now left | right; split; [now right | exact H2]].
Qed.

Lemma replaceRuns_none (p : ascii -> bool) (r : str) (s : str) :
  (forall c, In c s -> p c = false) ->
  forall b, replaceRuns p r b s = s.
Proof.
  induction s as [|x s IH]; intros H b; simpl; [reflexivity|].
  rewrite (H x) by now left. f_equal. apply IH. intros c Hc. apply H. now right.
Qed.

Lemma replaceRuns_length (p : ascii -> bool) (x : ascii) (s : str) :
  forall b, (List.length (replaceRuns p [x] b s) <= List.length s)%nat.
Proof.
  induction s as [|c s IH]; intros b; simpl; [lia|].
  pose proof (IH true) as H1. pose proof (IH false) as H2.
  destruct (p c); [destruct b|]; simpl; lia.
Qed.

End RunFacts.

(** X2.  [forFilename] leaves no white space in a label, never makes it
    longer, and changes nothing in a label without white space; so it is
    idempotent. *)
Theorem forFilename_no_space (label : str) :
  (forall c, In c (forFilename label) -> isSpace c = false)
  /\ (List.length (forFilename label) <= List.length label)%nat
  /\ ((forall c, In c label -> isSpace c = false) -> forFilename label = label)
  /\ forFilename (forFilename label) = forFilename label.
Proof.
  assert (H : forall c, In c (forFilename label) -> isSpace c = false).
  { intros c Hc. apply replaceRuns_chars in Hc.
    destruct Hc as [[<-|[]]|[_ Hc]]; [reflexivity | exact Hc]. }
  split; [exact H|]. split; [apply replaceRuns_length|]. split.
  - intros Hn. now apply replaceRuns_none.
  - now apply replaceRuns_none.
Qed.

Section TitleFacts.

Lemma lower_capitalise (s : str) :
  lowerFixed s -> forall b, toLowerCase (capitalise b s) = s.
Proof.
  induction s as [|c s IH]; intros H b; [reflexivity|].
  apply lowerFixed_cons in H. destruct H as [Hc Hs].
  simpl. f_equal; [|now apply IH].
  destruct (isLower c && negb b); [now apply lower_upper_fixed | exact Hc].
Qed.

Lemma normalWs_replaceRuns (s : str) :
  forall b, normalWs b (replaceRuns isSpace [" "%char] b s) = true.
Proof.
  induction s as [|c s IH]; intros b; simpl; [reflexivity|].
  destruct (isSpace c) eqn:E.
  - destruct b; [apply IH|].
    simpl. apply IH.
  - simpl. rewrite E. apply IH.
Qed.

Lemma normalWs_fixed (s : str) :
  forall b, normalWs b s = true -> replaceRuns isSpace [" "%char] b s = s.
Proof.
  induction s as [|c s IH]; intros b H; simpl in *; [reflexivity|].
  destruct (isSpace c).
  - apply andb_true_iff in H. destruct H as [H H3].
    apply andb_true_iff in H. destruct H as [H1 H2].
    destruct b; [discriminate|]. apply eqChar_true in H2. subst c.
    simpl. f_equal. now apply IH.
  - f_equal. now apply IH.
Qed.

Lemma normalWs_weaken (s : str) : normalWs true s = true -> normalWs false s = true.
Proof.
  destruct s as [|c s]; [reflexivity|]. simpl.
  destruct (isSpace c); [discriminate | auto].
Qed.

Lemma normalWs_dropWhile (s : str) :
  forall b, normalWs b s = true -> normalWs false (dropWhile isSpace s) = true.
Proof.
  induction s as [|c s IH]; intros b H; simpl in *; [reflexivity|].
  destruct (isSpace c) eqn:E.
  - apply andb_true_iff in H. destruct H as [_ H]. now apply (IH true).
  - simpl. now rewrite E.
Qed.

Lemma normalWs_prefix (a b : str) :
  forall f, normalWs f (a ++ b) = true -> normalWs f a = true.
Proof.
  induction a as [|c a IH]; intros f H; simpl in *; [reflexivity|].
  destruct (isSpace c).
  - apply andb_true_iff in H. destruct H as [H1 H2].
    rewrite H1. now apply IH.
  - now apply IH.
Qed.

Lemma dropWhile_suffix (p : ascii -> bool) (s : str) :
  exists a, s = a ++ dropWhile p s.
Proof.
  induction s as [|c s [a IH]]; simpl; [now exists []|].
  destruct (p c); [|now exists []].
  exists (c :: a). simpl. now rewrite <- IH.
Qed.

Lemma trimEnd_prefix (s : str) : exists b, s = trimEnd s ++ b.
Proof.
  unfold trimEnd. destruct (dropWhile_suffix isSpace (rev s)) as [a H].
  exists (rev a). rewrite <- rev_app_distr, <- H. now rewrite rev_involutive.
Qed.

Lemma normalWs_trim (s : str) :
  normalWs false s = true -> normalWs false (trim s) = true.
Proof.
  intros H. unfold trim.
  destruct (trimEnd_prefix (trimStart s)) as [b E].
  apply (normalWs_prefix _ b). rewrite <- E.
  now apply (normalWs_dropWhile s false).
Qed.

Lemma dropWhile_idem (p : ascii -> bool) (s : str) :
  dropWhile p (dropWhile p s) = dropWhile p s.
Proof.
  induction s as [|c s IH]; simpl; [reflexivity|].
  destruct (p c) eqn:E; [exact IH | simpl; now rewrite E].
Qed.

Lemma trimEnd_idem (s : str) : trimEnd (trimEnd s) = trimEnd s.
Proof. unfold trimEnd. now rewrite rev_involutive, dropWhile_idem. Qed.

Lemma trimStart_trimEnd (s : str) :
  trimStart s = s -> trimStart (trimEnd s) = trimEnd s.
Proof.
  destruct s as [|c s]; [reflexivity|]. intros H.
  pose proof (trimStart_head H) as Hc.
  change (c :: s) with ([] ++ c :: s). rewrite (@trimEnd_stop [] s c Hc).
  simpl. unfold trimStart. simpl. now rewrite Hc.
Qed.

(** [trim] is idempotent. *)
Lemma trim_idem (s : str) : trim (trim s) = trim s.
Proof.
  unfold trim at 1.
  assert (H : trimStart (trim s) = trim s).
  { unfold trim. apply trimStart_trimEnd. apply dropWhile_idem. }
  rewrite H. unfold trim. apply trimEnd_idem.
Qed.

Lemma sublist_trim (s : str) (c : ascii) : In c (trim s) -> In c s.
Proof.
  unfold trim. intros H.
  destruct (trimEnd_prefix (trimStart s)) as [b E].
  destruct (dropWhile_suffix isSpace s) as [a E2].
  rewrite E2. apply in_or_app. right. unfold trimStart in E. rewrite E.
  apply in_or_app. now left.
Qed.

End TitleFacts.

Section TitleCase.

Lemma normalised_chars (s : str) (c : ascii) :
  In c (normalised s) -> lowerChar c = c /\ isDashOrUnderscore c = false.
Proof.
  intros H. apply sublist_trim in H. apply replaceRuns_chars in H.
  destruct H as [[<-|[]]|[H _]]; [split; reflexivity|].
  apply replaceRuns_chars in H.
  destruct H as [[<-|[]]|[H Hd]]; [split; reflexivity|].
  split; [now apply (toLowerCase_fixed s) | exact Hd].
Qed.

Lemma normalised_fixed (s : str) :
  forall b, normalised (capitalise b (normalised s)) = normalised s.
Proof.
  intros b. unfold normalised at 1.
  rewrite lower_capitalise
    by (intros c Hc; now apply (normalised_chars s)).
  rewrite (@replaceRuns_none isDashOrUnderscore [" "%char] (normalised s))
    by (intros c Hc; now apply (normalised_chars s)).
  rewrite normalWs_fixed.
  - unfold normalised. apply trim_idem.
  - unfold normalised. apply normalWs_trim. apply normalWs_replaceRuns.
Qed.

Lemma upperChar_keeps_dash (c : ascii) :
  isDashOrUnderscore (upperChar c) = isDashOrUnderscore c.
Proof. destruct c as [[] [] [] [] [] [] [] []]; reflexivity. Qed.

Lemma capitalise_chars (s : str) :
  forall b c, In c (capitalise b s) ->
              exists d, In d s /\ (c = d \/ c = upperChar d).
Proof.
  induction s as [|x s IH]; intros b c H; simpl in H; [destruct H|].
  destruct H as [H|H].
  - exists x. split; [now left|].
    destruct (isLower x && negb b); [now right | now left].
  - destruct (IH _ _ H) as [d [Hd Hc]]. exists d. split; [now right | exact Hc].
Qed.

(** X3.  [toTitleCase] is idempotent, and its result holds no underscore
    and no dash. *)
Theorem toTitleCase_idempotent (s : str) :
  toTitleCase (toTitleCase s) = toTitleCase s
  /\ forall c, In c (toTitleCase s) -> isDashOrUnderscore c = false.
Proof.
  unfold toTitleCase. destruct (nonEmpty s); cbn [negb]; [|split; [reflexivity | intros c []]].
  fold (normalised s). split.
  - destruct (capitalise false (normalised s)) as [|c0 r] eqn:E; [reflexivity|].
    cbn [nonEmpty negb]. rewrite <- E.
    fold (normalised (capitalise false (normalised s))).
    now rewrite normalised_fixed.
  - intros c Hc. apply capitalise_chars in Hc. destruct Hc as [d [Hd [->| ->]]].
    + now apply (normalised_chars s).
    + rewrite upperChar_keeps_dash. now apply (normalised_chars s).
Qed.

End TitleCase.

(* ------------------------------------------------------------------------- *)
(** ** Amounts *)

Section AmountMore.

Lemma cleanAmount_app (a b : str) :
  cleanAmount (a ++ b) = cleanAmount a ++ cleanAmount b.
Proof. unfold cleanAmount. now rewrite !filter_app. Qed.

Lemma cleanAmount_kept (s : str) (c : ascii) :
  In c (cleanAmount s) ->
  In c s /\ (isDigit c = true \/ c = "-"%char \/ c = "."%char).
Proof.
  unfold cleanAmount. intros H. apply filter_In in H. destruct H as [H Hc].
  apply filter_In in H. destruct H as [H Ha]. split; [exact H|].
  unfold amountChar in Ha. apply negb_true_iff in Hc. rewrite Hc in Ha.
  rewrite orb_false_r in Ha.
  apply orb_true_iff in Ha. destruct Ha as [Ha|Ha].
  - apply orb_true_iff in Ha. destruct Ha as [Ha|Ha]; [now left|].
    right. left. now apply eqChar_true.
  - right. right. now apply eqChar_true.
Qed.

Lemma takeWhile_nil (p : ascii -> bool) (s : str) :
  (forall c, In c s -> p c = false) -> takeWhile p s = [].
Proof.
  destruct s as [|c s]; [reflexivity|]. intros H. simpl.
  now rewrite (H c) by now left.
Qed.

Lemma forallb_digit_nil (s : str) :
  (forall c, In c s -> isDigit c = false) ->
  forallb isDigit s && nonEmpty s = false.
Proof.
  destruct s as [|c s]; [reflexivity|]. intros H. simpl.
  now rewrite (H c) by now left.
Qed.

(** Without a digit there is no number. *)
Lemma Number_body_nan (neg : bool) (body : str) :
  (forall c, In c body -> isDigit c = false) ->
  (let ip := takeWhile isDigit body in
   let rest := skipn (List.length ip) body in
   let value (fp : str) : float :=
     let v := nearestDouble (digitsValue (ip ++ fp)) (List.length fp) in
     if neg then PrimFloat.opp v else v in
   match rest with
   | [] => if nonEmpty ip then value [] else nan
   | c :: fp =>
       if eqChar c "."%char && forallb isDigit fp
          && (nonEmpty ip || nonEmpty fp)
       then value fp else nan
   end) = nan.
Proof.
  intros Hb. rewrite (takeWhile_nil isDigit body Hb). cbn [List.length skipn].
  destruct body as [|c fp]; [reflexivity|]. cbn [nonEmpty orb].
  assert (Hf : forallb isDigit fp && nonEmpty fp = false).
  { apply forallb_digit_nil. intros d Hd. apply Hb. now right. }
  rewrite <- andb_assoc, Hf, andb_false_r. reflexivity.
Qed.

(** Without a digit there is no number. *)
Lemma Number_no_digit (s : str) :
  (forall c, In c s -> isDigit c = false) ->
  Number s = 0%float \/ Number s = nan.
Proof.
  intros H. destruct s as [|c0 s0]; [now left|]. right.
  unfold Number. destruct (eqChar c0 "-").
  - exact (@Number_body_nan true s0 (fun c Hc => H c (or_intror Hc))).
  - exact (@Number_body_nan false (c0 :: s0) H).
Qed.

End AmountMore.

(** X4.  [parseAmount] reads only the digits, minus signs and periods of
    a cell: a character outside these three kinds, a comma included, can be
    taken out of the cell without changing the result; and a cell without a
    digit, such as a header title, parses to 0. *)
Theorem parseAmount_ignores_other (s1 s2 : str) (c : ascii) :
  (amountChar c = false \/ c = ","%char ->
   parseAmount (Some (s1 ++ c :: s2)) = parseAmount (Some (s1 ++ s2)))
  /\ ((forall d, In d s1 -> isDigit d = false) ->
      parseAmount (Some s1) = 0%float).
Proof.
  split.
  - intros H. unfold parseAmount.
    assert (E : cleanAmount (s1 ++ c :: s2) = cleanAmount (s1 ++ s2)).
    { rewrite !cleanAmount_app. f_equal.
      change (c :: s2) with ([c] ++ s2). rewrite cleanAmount_app.
      unfold cleanAmount at 1. simpl.
      destruct H as [H| ->]; [now rewrite H | reflexivity]. }
    now rewrite E.
  - intros H. unfold parseAmount.
    destruct (@Number_no_digit (cleanAmount s1)) as [E|E].
    + intros d Hd. apply cleanAmount_kept in Hd. now apply H.
    + now rewrite E.
    + now rewrite E.
Qed.

Lemma parseAmount_ignores_other_witness :
  parseAmount (Some (js "$1,234.56")) = parseAmount (Some (js "1234.56"))
  /\ parseAmount (Some (js "Amount ($)")) = 0%float.
Proof.
  split.
  - transitivity (parseAmount (Some (js "1,234.56"))).
    + apply (proj1 (parseAmount_ignores_other [] (js "1,234.56") "$"%char)).
      left. reflexivity.
    + apply (proj1 (parseAmount_ignores_other (js "1") (js "234.56") ","%char)).
      right. reflexivity.
  - apply (proj2 (parseAmount_ignores_other (js "Amount ($)") [] "x"%char)).
    intros d H. simpl in H.
    repeat (destruct H as [<-|H]; [reflexivity|]). destruct H.
Defined.

(* ------------------------------------------------------------------------- *)
(** ** The matcher and the rules *)

Section MatcherMore.

Lemma lower_upper_char (c : ascii) : lowerChar (upperChar c) = lowerChar c.
Proof. destruct c as [[] [] [] [] [] [] [] []]; reflexivity. Qed.

Lemma upper_lower_char (c : ascii) : upperChar (lowerChar c) = upperChar c.
Proof. destruct c as [[] [] [] [] [] [] [] []]; reflexivity. Qed.

Lemma upperChar_idem (c : ascii) : upperChar (upperChar c) = upperChar c.
Proof. destruct c as [[] [] [] [] [] [] [] []]; reflexivity. Qed.

Lemma toLowerCase_upper (s : str) : toLowerCase (toUpperCase s) = toLowerCase s.
Proof.
  unfold toLowerCase, toUpperCase. rewrite map_map.
  apply map_ext. exact lower_upper_char.
Qed.

Lemma toUpperCase_idem (s : str) : toUpperCase (toUpperCase s) = toUpperCase s.
Proof.
  unfold toUpperCase. rewrite map_map. apply map_ext. exact upperChar_idem.
Qed.

Lemma toUpperCase_app (a b : str) :
  toUpperCase (a ++ b) = toUpperCase a ++ toUpperCase b.
Proof. apply map_app. Qed.

Lemma toLowerCase_app (a b : str) :
  toLowerCase (a ++ b) = toLowerCase a ++ toLowerCase b.
Proof. apply map_app. Qed.

Lemma nonEmpty_map (f : ascii -> ascii) (s : str) :
  nonEmpty (map f s) = nonEmpty s.
Proof. now destruct s. Qed.

(** [matchesKeyword] reads its arguments through their lower case. *)
Lemma matchesKeyword_by_lower (d d' k k' : str) :
  toLowerCase d = toLowerCase d' -> toLowerCase k = toLowerCase k' ->
  matchesKeyword d k = matchesKeyword d' k'.
Proof.
  intros Hd Hk. unfold matchesKeyword, keywordTokens. rewrite Hd, Hk.
  replace (nonEmpty k) with (nonEmpty k'); [reflexivity|].
  rewrite <- (nonEmpty_map lowerChar k), <- (nonEmpty_map lowerChar k').
  fold (toLowerCase k) (toLowerCase k'). now rewrite Hk.
Qed.

(** The tokens do not depend on the state the split starts in. *)
Lemma tokens_any_state (s : str) :
  filter nonEmpty (splitRuns true s) = filter nonEmpty (splitRuns false s).
Proof.
  destruct s as [|c s]; [reflexivity|]. simpl.
  destruct (isSpace c); reflexivity.
Qed.

Lemma splitRuns_app_space (b : str) :
  forall a, exists p ps qs,
    splitRuns false (a ++ " "%char :: b) = p :: ps
    /\ splitRuns false a = p :: qs
    /\ filter nonEmpty ps
       = filter nonEmpty qs ++ filter nonEmpty (splitRuns false b).
Proof.
  induction a as [|c a [p [ps [qs [E1 [E2 E3]]]]]].
  - exists [], (splitRuns true b), []. repeat split. apply tokens_any_state.
  - simpl app. cbn [splitRuns]. destruct (isSpace c).
    + exists [], (splitRuns true (a ++ " "%char :: b)), (splitRuns true a).
      repeat split. rewrite !tokens_any_state, E1, E2. simpl.
      destruct (nonEmpty p); simpl; now rewrite E3.
    + rewrite E1, E2. exists (c :: p), ps, qs. repeat split. exact E3.
Qed.

Lemma tokens_app_space (a b : str) :
  filter nonEmpty (splitWs (a ++ " "%char :: b))
  = filter nonEmpty (splitWs a) ++ filter nonEmpty (splitWs b).
Proof.
  unfold splitWs.
  destruct (splitRuns_app_space b a) as [p [ps [qs [E1 [E2 E3]]]]].
  rewrite E1, E2. simpl. destruct (nonEmpty p); simpl; now rewrite E3.
Qed.

Lemma keywordTokens_app_space (a b : str) :
  keywordTokens (a ++ " "%char :: b) = keywordTokens a ++ keywordTokens b.
Proof.
  unfold keywordTokens. rewrite toLowerCase_app.
  change (toLowerCase (" "%char :: b)) with (" "%char :: toLowerCase b).
  apply tokens_app_space.
Qed.

End MatcherMore.

Section MatcherAnd.

Lemma matchesKeyword_forallb (d k : str) :
  keywordTokens k <> [] ->
  matchesKeyword d k
  = forallb (fun tok => test true (keywordRegex tok) (toLowerCase d))
            (keywordTokens k).
Proof.
  intros H. unfold matchesKeyword.
  destruct k as [|c k]; [now elim H|]. cbn [nonEmpty negb].
  destruct (keywordTokens (c :: k)); [now elim H | reflexivity].
Qed.

End MatcherAnd.

(** X5.  On ASCII strings matching is insensitive to letter case: a
    description or a keyword in upper case matches exactly as the original
    does, and so do the two in lower case. *)
Theorem matchesKeyword_case_insensitive (desc keyword : str) :
  asciiOnly desc = true -> asciiOnly keyword = true ->
  matchesKeyword (toUpperCase desc) keyword = matchesKeyword desc keyword
  /\ matchesKeyword desc (toUpperCase keyword) = matchesKeyword desc keyword
  /\ matchesKeyword (toLowerCase desc) (toLowerCase keyword)
     = matchesKeyword desc keyword.
Proof.
  intros _ _.
  split; [|split]; apply matchesKeyword_by_lower;
    auto using toLowerCase_upper, toLowerCase_idem.
Qed.

Lemma matchesKeyword_case_insensitive_witness :
  matchesKeyword (toUpperCase (js "Joe's Cafe *42")) (js "cafe")
  = matchesKeyword (js "Joe's Cafe *42") (js "cafe")
  /\ matchesKeyword (js "Joe's Cafe *42") (toUpperCase (js "cafe"))
     = matchesKeyword (js "Joe's Cafe *42") (js "cafe").
Proof.
  pose proof (@matchesKeyword_case_insensitive
                (js "Joe's Cafe *42") (js "cafe") eq_refl eq_refl)
    as [H1 [H2 _]].
  split; [exact H1 | exact H2].
Defined.

(** X6.  The tokens of a keyword are joined by "and": a keyword made of
    two parts with a space between them, each part with a token, matches a
    description exactly when both parts match it; so the order of the parts
    does not matter. *)
Theorem matchesKeyword_all_tokens (desc a b : str) :
  keywordTokens a <> [] -> keywordTokens b <> [] ->
  matchesKeyword desc (a ++ " "%char :: b)
  = matchesKeyword desc a && matchesKeyword desc b
  /\ matchesKeyword desc (a ++ " "%char :: b)
     = matchesKeyword desc (b ++ " "%char :: a).
Proof.
  intros Ha Hb.
  assert (H : forall x y, keywordTokens x <> [] -> keywordTokens y <> [] ->
                          matchesKeyword desc (x ++ " "%char :: y)
                          = matchesKeyword desc x && matchesKeyword desc y).
  { intros x y Hx Hy.
    rewrite (@matchesKeyword_forallb desc x Hx), (@matchesKeyword_forallb desc y Hy).
    rewrite matchesKeyword_forallb.
    - now rewrite keywordTokens_app_space, forallb_app.
    - rewrite keywordTokens_app_space. destruct (keywordTokens x); [now elim Hx | discriminate]. }
  split; [now apply H|].
  rewrite (H a b Ha Hb), (H b a Hb Ha). apply andb_comm.
Qed.

Lemma matchesKeyword_all_tokens_witness :
  matchesKeyword (js "PAYPAL *JOHNSSTORE 0412") (js "paypal" ++ " "%char :: js "johnsstore")
  = matchesKeyword (js "PAYPAL *JOHNSSTORE 0412") (js "paypal")
    && matchesKeyword (js "PAYPAL *JOHNSSTORE 0412") (js "johnsstore")
  /\ matchesKeyword (js "PAYPAL *JOHNSSTORE 0412") (js "paypal" ++ " "%char :: js "johnsstore")
     = matchesKeyword (js "PAYPAL *JOHNSSTORE 0412") (js "johnsstore" ++ " "%char :: js "paypal").
Proof.
  apply (@matchesKeyword_all_tokens (js "PAYPAL *JOHNSSTORE 0412")
           (js "paypal") (js "johnsstore")).
  - vm_compute. discriminate.
  - vm_compute. discriminate.
Defined.

(* ------------------------------------------------------------------------- *)
(** ** Categorisation, again *)

Section CategoriseMore.

Lemma override_nonEmpty (m : option str) (amt : float) :
  orElse (override m amt) UNCATEGORISED <> [].
Proof.
  destruct m as [c|]; simpl; [|discriminate].
  destruct (nonEmpty c && eqStr (toUpperCase c) PETROL && PrimFloat.leb amt 2);
    simpl; [discriminate|].
  destruct (nonEmpty c) eqn:E; [now apply nonEmpty_true | discriminate].
Qed.

Lemma firstMatch_app_some (d : str) (rules more : list Rule.t) (c : str) :
  firstMatch d rules = Some c -> firstMatch d (rules ++ more) = Some c.
Proof.
  induction rules as [|r rules IH]; simpl; [discriminate|].
  destruct (matchesKeyword d (Rule.keyword r)); auto.
Qed.

Lemma firstMatch_app_none (d : str) (rules more : list Rule.t) :
  firstMatch d rules = None -> firstMatch d (rules ++ more) = firstMatch d more.
Proof.
  induction rules as [|r rules IH]; simpl; [reflexivity|].
  destruct (matchesKeyword d (Rule.keyword r)); [discriminate | auto].
Qed.

End CategoriseMore.

(** X7.  [categorise] keeps the number and the order of the transactions
    and their date, amount and description, stores a non-empty category in
    each of them, does not read the category a transaction had before (a
    category assigned by hand is overwritten), and is idempotent. *)
Theorem categorise_overwrites (rules : list Rule.t) (txns : list (Txn float)) :
  Forall2 (fun t t' => date t' = date t /\ amount t' = amount t
                       /\ description t' = description t
                       /\ exists c, category t' = Some c /\ c <> [])
          txns (categorise txns rules)
  /\ (forall t c, categoriseTxn rules (setCategory t c) = categoriseTxn rules t)
  /\ categorise (categorise txns rules) rules = categorise txns rules.
Proof.
  split; [|split].
  - unfold categorise. induction txns as [|t txns IH]; simpl; constructor; auto.
    repeat split. eexists. split; [reflexivity|]. apply override_nonEmpty.
  - reflexivity.
  - unfold categorise. rewrite map_map. apply map_ext. reflexivity.
Qed.

(** X8.  Rules added after the rules of a list change the category of a
    transaction only if no rule of the list matches it: a rule appended by
    an upsert never recategorises a transaction an earlier rule matches. *)
Theorem appended_rules_only_unmatched
        (rules more : list Rule.t) (t : Txn float) (c : str) :
  (firstMatch (toLowerCase (description t)) rules = Some c ->
   categoriseTxn (rules ++ more) t = categoriseTxn rules t)
  /\ (firstMatch (toLowerCase (description t)) rules = None ->
      categoriseTxn (rules ++ more) t = categoriseTxn more t).
Proof.
  split; intros H; unfold categoriseTxn.
  - now rewrite (@firstMatch_app_some _ _ more _ H), H.
  - now rewrite (@firstMatch_app_none _ _ more H).
Qed.

Lemma appended_rules_only_unmatched_witness :
  categoriseTxn (exampleRules ++ [Rule.mk (js "station") (js "FUEL")]) exampleTxn
  = categoriseTxn exampleRules exampleTxn.
Proof.
  apply (proj1 (appended_rules_only_unmatched exampleRules
                  [Rule.mk (js "station") (js "FUEL")] exampleTxn PETROL)).
  vm_compute. reflexivity.
Defined.

(* ------------------------------------------------------------------------- *)
(** ** The importer, again *)

Section ImportMore.

Lemma collect_app {A B} (f : A -> option B) (l1 l2 : list A) :
  collect f (l1 ++ l2) = collect f l1 ++ collect f l2.
Proof.
  induction l1 as [|x l1 IH]; simpl; [reflexivity|].
  destruct (f x); simpl; now rewrite IH.
Qed.

Lemma collect_In {A B} (f : A -> option B) (l : list A) (y : B) :
  In y (collect f l) <-> exists x, In x l /\ f x = Some y.
Proof.
  induction l as [|x l IH]; simpl.
  - split; [intros [] | intros [x [[] _]]].
  - destruct (f x) as [z|] eqn:E; simpl; rewrite IH; split.
    + intros [<-|[x' [H1 H2]]]; [exists x; auto | exists x'; auto].
    + intros [x' [[<-|H1] H2]]; [left; congruence | right; exists x'; auto].
    + intros [x' [H1 H2]]. exists x'. auto.
    + intros [x' [[<-|H1] H2]]; [congruence | exists x'; auto].
Qed.

Lemma collect_length {A B} (f : A -> option B) (l : list A) :
  (List.length (collect f l) <= List.length l)%nat.
Proof.
  induction l as [|x l IH]; simpl; [lia|]. destruct (f x); simpl; lia.
Qed.

Lemma importRow_some (r : row) (t : Txn float) :
  importRow r = Some t ->
  (10 <= List.length r)%nat
  /\ amount t = parseAmount (cell r COL.DEBIT)
  /\ isFinite (amount t) = true /\ nonZero (amount t) = true
  /\ (date t <> [] \/ description t <> [])
  /\ trim (description t) = description t
  /\ category t = None.
Proof.
  unfold importRow. destruct (List.length r <? 10)%nat eqn:L; [discriminate|].
  apply Nat.ltb_ge in L.
  destruct (_ && _ && _) eqn:E; [|discriminate].
  intros H; inversion H; subst; clear H. cbn [date amount description category].
  apply andb_true_iff in E. destruct E as [E E3].
  apply andb_true_iff in E. destruct E as [E1 E2].
  repeat split; auto.
  - apply orb_true_iff in E1. destruct E1 as [E1|E1];
      [left | right]; now apply nonEmpty_true.
  - apply trim_idem.
Qed.

End ImportMore.

(** X9.  Every transaction [loadCsvText] returns comes from a row of at
    least ten cells, has a finite amount other than zero, a date or a
    description, and a description without white space around it.  It has
    the category [applyRulesAndRender] wrote, which is not empty, when no
    month is selected or its date is in the selected month, and no
    category otherwise.  There are no more transactions than rows, and the
    rows of two files one after the other import as the two files do. *)
Theorem loadCsvText_valid (rulesBox MONTH_FILTER : str)
    (rows rows' : list row) :
  Forall (fun t => isFinite (amount t) = true /\ nonZero (amount t) = true
                   /\ (date t <> [] \/ description t <> [])
                   /\ trim (description t) = description t
                   /\ (if inSelectedMonth MONTH_FILTER t
                       then exists c, category t = Some c /\ c <> []
                       else category t = None)
                   /\ exists r, In r rows /\ (10 <= List.length r)%nat
                                /\ amount t = parseAmount (cell r COL.DEBIT))
         (loadCsvText rulesBox MONTH_FILTER rows)
  /\ (List.length (loadCsvText rulesBox MONTH_FILTER rows)
      <= List.length rows)%nat
  /\ loadCsvText rulesBox MONTH_FILTER (rows ++ rows')
     = loadCsvText rulesBox MONTH_FILTER rows
       ++ loadCsvText rulesBox MONTH_FILTER rows'.
Proof.
  rewrite !loadCsvText_map. split; [|split].
  - apply Forall_forall. intros t Ht. apply in_map_iff in Ht.
    destruct Ht as [t0 [<- Ht]]. apply collect_In in Ht.
    destruct Ht as [r [Hr Ht]]. apply importRow_some in Ht.
    destruct Ht as [H1 [H2 [H3 [H4 [H5 [H6 H7]]]]]].
    assert (Hs : inSelectedMonth MONTH_FILTER
                   (recategorised rulesBox MONTH_FILTER t0)
                 = inSelectedMonth MONTH_FILTER t0)
      by (unfold recategorised;
          now destruct (inSelectedMonth MONTH_FILTER t0) eqn:E).
    rewrite Hs. unfold recategorised.
    destruct (inSelectedMonth MONTH_FILTER t0);
      cbn [categoriseTxn setCategory date amount description category].
    + repeat split; auto.
      * eexists. split; [reflexivity | apply override_nonEmpty].
      * exists r. auto.
    + repeat split; auto. exists r. auto.
  - rewrite length_map. apply collect_length.
  - now rewrite collect_app, map_app.
Qed.

(* ------------------------------------------------------------------------- *)
(** ** The rule text, again *)

Section RuleTextMore.

Lemma isSpace_lower (c : ascii) : isSpace (lowerChar c) = isSpace c.
Proof. destruct c as [[] [] [] [] [] [] [] []]; reflexivity. Qed.

Lemma isSpace_upper (c : ascii) : isSpace (upperChar c) = isSpace c.
Proof. destruct c as [[] [] [] [] [] [] [] []]; reflexivity. Qed.

Lemma dropWhile_map (f : ascii -> ascii) (s : str) :
  (forall c, isSpace (f c) = isSpace c) ->
  dropWhile isSpace (map f s) = map f (dropWhile isSpace s).
Proof.
  intros H. induction s as [|c s IH]; simpl; [reflexivity|].
  rewrite H. destruct (isSpace c); [exact IH | reflexivity].
Qed.

(** [trim] and the case conversions commute. *)
Lemma trim_map (f : ascii -> ascii) (s : str) :
  (forall c, isSpace (f c) = isSpace c) -> trim (map f s) = map f (trim s).
Proof.
  intros H. unfold trim, trimStart, trimEnd.
  now rewrite (dropWhile_map f s H), <- map_rev, (dropWhile_map f _ H), map_rev.
Qed.

Lemma parseRuleLine_some (l : str) (r : Rule.t) :
  parseRuleLine l = Some r ->
  exists p0 p1 ps,
    splitArrow (trim l) = p0 :: p1 :: ps
    /\ Rule.keyword r = toLowerCase (trim p0)
    /\ Rule.category r = toUpperCase (trim p1)
    /\ Rule.keyword r <> [] /\ Rule.category r <> []
    /\ lineHasKeyword (Rule.keyword r) l = true.
Proof.
  unfold parseRuleLine, lineHasKeyword.
  destruct (negb (nonEmpty (trim l)) || startsWithChar "#" (trim l));
    [discriminate|].
  destruct (splitArrow (trim l)) as [|p0 [|p1 ps]]; try discriminate.
  destruct (nonEmpty (toLowerCase (trim p0))
            && nonEmpty (toUpperCase (trim p1))) eqn:E; [|discriminate].
  intros H; inversion H; subst; clear H. cbn [Rule.keyword Rule.category].
  apply andb_true_iff in E. destruct E as [E1 E2].
  exists p0, p1, ps. repeat split; try (now apply nonEmpty_true).
  apply eqStr_refl.
Qed.

End RuleTextMore.

(** X10.  Every rule [parseRules] returns has a keyword and a category
    that are not empty, have no white space around them and are in lower
    case and in upper case in turn; there are no more rules than lines. *)
Theorem parseRules_normal (text : str) :
  Forall (fun r => Rule.keyword r <> [] /\ Rule.category r <> []
                   /\ toLowerCase (Rule.keyword r) = Rule.keyword r
                   /\ toUpperCase (Rule.category r) = Rule.category r
                   /\ trim (Rule.keyword r) = Rule.keyword r
                   /\ trim (Rule.category r) = Rule.category r)
         (parseRules text)
  /\ (List.length (parseRules text) <= List.length (splitLines text))%nat.
Proof.
  split; [|apply collect_length].
  apply Forall_forall. intros r Hr. unfold parseRules in Hr.
  apply collect_In in Hr. destruct Hr as [l [_ Hl]].
  destruct (parseRuleLine_some l Hl) as [p0 [p1 [ps [_ [Hk [Hc [Nk [Nc _]]]]]]]].
  repeat split; auto.
  - rewrite Hk. apply toLowerCase_idem.
  - rewrite Hc. apply toUpperCase_idem.
  - rewrite Hk. unfold toLowerCase.
    rewrite (trim_map lowerChar _ isSpace_lower). now rewrite trim_idem.
  - rewrite Hc. unfold toUpperCase.
    rewrite (trim_map upperChar _ isSpace_upper). now rewrite trim_idem.
Qed.

Section UpsertMore.

Lemma updateLines_first (kwLower newLine : str) (ls ls' : list str) :
  updateLines kwLower newLine ls = Some ls' ->
  exists pre l post,
    ls = pre ++ l :: post /\ ls' = pre ++ newLine :: post
    /\ lineHasKeyword kwLower l = true
    /\ forall x, In x pre -> lineHasKeyword kwLower x = false.
Proof.
  revert ls'; induction ls as [|l ls IH]; intros ls' H; simpl in H;
    [discriminate|].
  destruct (lineHasKeyword kwLower l) eqn:E.
  - inversion H; subst. exists [], l, ls. repeat split; auto. intros ? [].
  - destruct (updateLines kwLower newLine ls) as [r|] eqn:Er; [|discriminate].
    inversion H; subst.
    destruct (IH r eq_refl) as [pre [l0 [post [H1 [H2 [H3 H4]]]]]].
    exists (l :: pre), l0, post. split; [simpl; now rewrite H1|].
    split; [simpl; now rewrite H2|]. split; [exact H3|].
    intros x [<-|Hx]; auto.
Qed.

Lemma hasArrow_false_split (s : str) : hasArrow s = false -> splitArrow s = [s].
Proof.
  induction s as [|c s IH]; intros H; [reflexivity|].
  destruct s as [|d s]; [reflexivity|].
  cbn [hasArrow] in H. apply orb_false_iff in H. destruct H as [H1 H2].
  cbn [splitArrow]. rewrite H1.
  pose proof (IH H2) as E. cbn [splitArrow] in E. now rewrite E.
Qed.

Lemma dropWhile_keep (p : ascii -> bool) (c : ascii) (l x : str) :
  p c = false -> dropWhile p ((c :: l) ++ x) = (c :: l) ++ x.
Proof. intros H. simpl. now rewrite H. Qed.

Lemma trimEnd_cons (c : ascii) (s : str) :
  s <> [] -> trimEnd s = s -> trimEnd (c :: s) = c :: s.
Proof.
  intros Hne H. unfold trimEnd in *. simpl rev.
  apply (f_equal (@rev ascii)) in H. rewrite rev_involutive in H.
  destruct (rev s) as [|h l] eqn:E.
  - apply (f_equal (@rev ascii)) in E. rewrite rev_involutive in E.
    simpl in E. congruence.
  - assert (Hh : isSpace h = false).
    { simpl in H. destruct (isSpace h); [|reflexivity].
      destruct (dropWhile_length isSpace l) as [E2|L].
      - rewrite E2 in H. apply (f_equal (@List.length ascii)) in H.
        simpl in H. lia.
      - apply (f_equal (@List.length ascii)) in H. simpl in H. lia. }
    rewrite (@dropWhile_keep isSpace h l [c] Hh).
    rewrite <- E. change (rev s ++ [c]) with (rev (c :: s)).
    apply rev_involutive.
Qed.

(** The line written for a plain keyword and a plain, trimmed category
    without an arrow is the rule of that keyword and category. *)
Lemma parseRuleLine_ruleLine (kw cat : str) :
  kw <> [] -> plainKeyword kw ->
  cat <> [] -> trim cat = cat -> hasArrow cat = false ->
  parseRuleLine (ruleLine kw cat)
  = Some (Rule.mk (toLowerCase kw) (toUpperCase cat)).
Proof.
  intros Hne [Ht [Ha [_ Hh]]] Hc Htc Hac.
  destruct (@trim_fixed kw Ht) as [Hs He].
  destruct (@trim_fixed cat Htc) as [Hcs Hce].
  destruct kw as [|k0 kw']; [congruence|].
  pose proof (@trimStart_head _ _ Hs) as Hk0.
  set (kw := k0 :: kw') in *.
  assert (HY : trimEnd (" "%char :: cat) = " "%char :: cat)
    by (now apply trimEnd_cons).
  assert (Hline : trim (ruleLine kw cat)
                  = (kw ++ [" "%char]) ++ "="%char :: ">"%char
                       :: " "%char :: cat).
  { unfold trim, ruleLine, trimStart.
    assert (E : dropWhile isSpace (kw ++ js " => " ++ cat)
                = kw ++ js " => " ++ cat).
    { unfold kw. simpl. now rewrite Hk0. }
    rewrite E.
    change (kw ++ js " => " ++ cat)
      with (kw ++ " "%char :: "="%char :: ">"%char :: " "%char :: cat).
    replace (kw ++ " "%char :: "="%char :: ">"%char :: " "%char :: cat)
      with ((kw ++ [" "%char; "="%char]) ++ ">"%char :: " "%char :: cat)
      by (now rewrite <- app_assoc).
    rewrite trimEnd_stop by reflexivity. rewrite HY.
    now rewrite <- !app_assoc. }
  unfold parseRuleLine. rewrite Hline.
  assert (Hnon : nonEmpty ((kw ++ [" "%char]) ++ "="%char :: ">"%char
                             :: " "%char :: cat) = true) by reflexivity.
  assert (Hhash : startsWithChar "#"%char
                    ((kw ++ [" "%char]) ++ "="%char :: ">"%char
                       :: " "%char :: cat) = false) by exact Hh.
  rewrite Hnon, Hhash. cbn [negb orb].
  rewrite splitArrow_first
    by (apply hasArrow_snoc; [exact Ha | reflexivity]).
  assert (Hsp : hasArrow (" "%char :: cat) = false).
  { destruct cat as [|c0 cat']; [congruence|]. cbn [hasArrow]. exact Hac. }
  rewrite (hasArrow_false_split _ Hsp).
  assert (Hp0 : trim (kw ++ [" "%char]) = kw).
  { unfold trim, trimStart.
    assert (E : dropWhile isSpace (kw ++ [" "%char]) = kw ++ [" "%char]).
    { unfold kw. simpl. now rewrite Hk0. }
    rewrite E, trimEnd_space. exact He. }
  assert (Hp1 : trim (" "%char :: cat) = cat) by exact Htc.
  rewrite Hp0, Hp1.
  assert (N1 : nonEmpty (toLowerCase kw) = true) by reflexivity.
  assert (N2 : nonEmpty (toUpperCase cat) = true).
  { unfold toUpperCase. rewrite nonEmpty_map. now apply nonEmpty_true. }
  now rewrite N1, N2.
Qed.

Lemma lookupRule_collect (k c : str) (pre post : list str) (new : str) :
  (forall x, In x pre -> lineHasKeyword k x = false) ->
  parseRuleLine new = Some (Rule.mk k c) ->
  lookupRule k (collect parseRuleLine (pre ++ new :: post)) = Some c.
Proof.
  intros Hpre Hnew. induction pre as [|x pre IH]; simpl.
  - rewrite Hnew. simpl. now rewrite eqStr_refl.
  - destruct (parseRuleLine x) as [r|] eqn:E.
    + simpl. destruct (eqStr (Rule.keyword r) k) eqn:Ek.
      * apply eqStr_true in Ek. subst k.
        destruct (parseRuleLine_some x E) as [_ [_ [_ [_ [_ [_ [_ [_ H]]]]]]]].
        rewrite (Hpre x) in H by now left. discriminate.
      * apply IH. intros y Hy. apply Hpre. now right.
    + apply IH. intros y Hy. apply Hpre. now right.
Qed.

End UpsertMore.

(** X11.  With an empty keyword or category [addOrUpdateRuleLine] returns
    false and leaves the text as it is.  Otherwise it returns true and the
    text is the lines of the old text joined by line feeds, with the first
    line that holds a rule for the keyword replaced by the new line and
    every other line left as it was, or, when no line holds the keyword,
    with the new line added after the last. *)
Theorem upsert_one_line (box kw cat : str) :
  (kw = [] \/ cat = [] -> addOrUpdateRuleLine box kw cat = (false, box))
  /\ (kw <> [] -> cat <> [] ->
      exists lines',
        addOrUpdateRuleLine box kw cat = (true, joinLines lines')
        /\ ((exists pre l post,
                splitLines box = pre ++ l :: post
                /\ lines' = pre ++ ruleLine kw cat :: post
                /\ lineHasKeyword (toLowerCase kw) l = true
                /\ forall x, In x pre ->
                             lineHasKeyword (toLowerCase kw) x = false)
            \/ ((forall x, In x (splitLines box) ->
                           lineHasKeyword (toLowerCase kw) x = false)
                /\ lines' = splitLines box ++ [ruleLine kw cat]))).
Proof.
  unfold addOrUpdateRuleLine. split.
  - intros [-> | ->]; [reflexivity|]. now rewrite orb_true_r.
  - intros Hk Hc. apply nonEmpty_true in Hk, Hc. rewrite Hk, Hc.
    cbn [negb orb].
    destruct (updateLines (toLowerCase kw) (ruleLine kw cat) (splitLines box))
      as [ls'|] eqn:E.
    + exists ls'. split; [reflexivity|]. left.
      destruct (updateLines_first _ _ _ E) as [pre [l [post H]]].
      now exists pre, l, post.
    + eexists. split; [reflexivity|]. right. split; [|reflexivity].
      now apply (updateLines_none _ _ _ E).
Qed.

Lemma upsert_one_line_witness :
  addOrUpdateRuleLine sampleRules [] (js "BAZ") = (false, sampleRules)
  /\ exists lines',
       addOrUpdateRuleLine sampleRules (js "FOO") (js "BAZ")
       = (true, joinLines lines').
Proof.
  pose proof (@upsert_one_line sampleRules [] (js "BAZ")) as [H1 _].
  pose proof (@upsert_one_line sampleRules (js "FOO") (js "BAZ")) as [_ H2].
  split.
  - apply H1. now left.
  - destruct H2 as [lines' [H _]]; [discriminate | discriminate |].
    now exists lines'.
Defined.

(** X12.  After an upsert of a plain keyword with a category that has no
    white space around it and no arrow in it, the rules parsed from the
    text give the keyword that category: the first rule with the keyword in
    lower case has the category in upper case. *)
Theorem upsert_then_lookup (text kw cat : str) :
  plainText text -> kw <> [] -> plainKeyword kw ->
  cat <> [] -> plainCategory cat -> trim cat = cat -> hasArrow cat = false ->
  lookupRule (toLowerCase kw) (parseRules (upsert text kw cat))
  = Some (toUpperCase cat).
Proof.
  intros Htext Hk Hkw Hc Hcat Htc Hac.
  pose proof (parseRuleLine_ruleLine Hk Hkw Hc Htc Hac) as Hnew.
  pose proof (ruleLine_ok Hc Hkw Hcat) as Hok.
  assert (Hlines : Forall lineOk (splitLines text)).
  { apply Forall_forall. intros l Hl. split.
    - now apply (splitLines_noLF text).
    - unfold plainText in Htext. rewrite Forall_forall in Htext. auto. }
  destruct (@upsert_one_line text kw cat) as [_ H].
  destruct (H Hk Hc) as [lines' [E Hl]]. clear H.
  unfold upsert, parseRules. rewrite E. cbn [snd].
  destruct Hl as [[pre [l [post [E1 [E2 [_ Hpre]]]]]]|[Hall E2]].
  - rewrite splitLines_joinLines.
    + rewrite E2. now apply lookupRule_collect.
    + rewrite E2. now destruct pre.
    + rewrite E2. rewrite E1 in Hlines.
      apply Forall_app in Hlines. destruct Hlines as [Hp Hq].
      inversion Hq; subst. apply Forall_app. split; [exact Hp|].
      constructor; assumption.
  - rewrite splitLines_joinLines.
    + rewrite E2. now apply lookupRule_collect.
    + rewrite E2. now destruct (splitLines text).
    + rewrite E2. apply Forall_app. split; [exact Hlines | now constructor].
Qed.

Lemma upsert_then_lookup_witness :
  lookupRule (js "foo") (parseRules (upsert sampleRules (js "FOO") (js "BAZ")))
  = Some (js "BAZ").
Proof.
  apply (@upsert_then_lookup sampleRules (js "FOO") (js "BAZ")).
  - unfold plainText. vm_compute. repeat constructor.
  - discriminate.
  - unfold plainKeyword. repeat split; try reflexivity.
    simpl. intuition discriminate.
  - discriminate.
  - unfold plainCategory. split; [|reflexivity].
    simpl. intuition discriminate.
  - reflexivity.
  - reflexivity.
Defined.

Section MonthFilter.
Local Open Scope Z_scope.

Lemma app_same_length_tail (A : Type) (a a' x x' : list A) :
  List.length x = List.length x' -> a ++ x = a' ++ x' -> a = a' /\ x = x'.
Proof.
  intros L. revert a'. induction a as [|h a IH]; intros [|h' a'] H; simpl in H.
  - now split.
  - apply (f_equal (@List.length A)) in H. simpl in H.
    rewrite length_app in H. lia.
  - apply (f_equal (@List.length A)) in H. simpl in H.
    rewrite length_app in H. lia.
  - injection H as -> H. destruct (IH _ H) as [-> ->]. now split.
Qed.

Lemma decimal_inj (a b : Z) : decimal a = decimal b -> a = b.
Proof.
  unfold decimal. intros H.
  apply (f_equal string_of_list_ascii) in H.
  rewrite !string_of_list_ascii_of_string in H.
  assert (Hn : forall z, Z.to_int z <> Decimal.Pos Decimal.Nil
                         /\ Z.to_int z <> Decimal.Neg Decimal.Nil).
  { intros [|p|p]; simpl; split; try discriminate;
      intros E; injection E as E; now apply (Unsigned.to_uint_nonnil p). }
  apply (f_equal NilZero.int_of_string) in H.
  destruct (Hn a) as [A1 A2], (Hn b) as [B1 B2].
  rewrite !NilZero.isi in H by assumption.
  injection H as H. apply (f_equal Z.of_int) in H.
  now rewrite !DecimalZ.of_to in H.
Qed.

Lemma month_digits (m : Z) :
  1 <= m <= 12 ->
  List.length (padStart 2 "0"%char (decimal m)) = 2%nat
  /\ toInt (padStart 2 "0"%char (decimal m)) = m.
Proof.
  intros H.
  assert (T : m = 1 \/ m = 2 \/ m = 3 \/ m = 4 \/ m = 5 \/ m = 6
              \/ m = 7 \/ m = 8 \/ m = 9 \/ m = 10 \/ m = 11 \/ m = 12) by lia.
  destruct T as [->|[->|[->|[->|[->|[->|[->|[->|[->|[->|[->| ->]]]]]]]]]]];
    split; reflexivity.
Qed.

Lemma getMonth_range (d : Date) : 1 <= getMonth d + 1 <= 12.
Proof.
  unfold getMonth. pose proof (fields_valid (dayNumber d)) as [H _]. lia.
Qed.

Lemma yyyymm_inj (d1 d2 : Date) :
  yyyymm d1 = yyyymm d2 ->
  getFullYear d1 = getFullYear d2 /\ getMonth d1 = getMonth d2.
Proof.
  unfold yyyymm. intros H.
  destruct (month_digits (getMonth_range d1)) as [L1 V1].
  destruct (month_digits (getMonth_range d2)) as [L2 V2].
  apply app_same_length_tail in H; [|simpl; congruence].
  destruct H as [Hy Hm]. injection Hm as Hm.
  split; [now apply decimal_inj|]. rewrite Hm in V1. lia.
Qed.

Lemma yyyymm_nonEmpty (d : Date) : nonEmpty (yyyymm d) = true.
Proof. unfold yyyymm. now destruct (decimal (getFullYear d)). Qed.

Lemma inMonth_spec (N : Type) (d0 : Date) (t : Txn N) :
  inMonth (yyyymm d0) t = true
  <-> exists d, parseDateSmart (date t) = Some d
                /\ getFullYear d = getFullYear d0
                /\ getMonth d = getMonth d0.
Proof.
  unfold inMonth. split.
  - destruct (parseDateSmart (date t)) as [d|]; [|discriminate].
    intros H. apply eqStr_true in H. exists d. split; [reflexivity|].
    now apply yyyymm_inj.
  - intros [d [-> [Hy Hm]]]. unfold yyyymm. rewrite Hy, Hm. apply eqStr_refl.
Qed.

End MonthFilter.

(** X13.  The month key [yyyymm] tells the months of the calendar apart:
    two dates have the same key exactly when they show the same year and
    the same month; the key is never empty, and the month takes its last
    two characters. *)
Theorem yyyymm_same_month (d1 d2 : Date) :
  (yyyymm d1 = yyyymm d2
   <-> getFullYear d1 = getFullYear d2 /\ getMonth d1 = getMonth d2)
  /\ nonEmpty (yyyymm d1) = true
  /\ exists y mm,
       yyyymm d1 = y ++ "-"%char :: mm
       /\ List.length mm = 2%nat /\ toInt mm = (getMonth d1 + 1)%Z.
Proof.
  split; [split|split].
  - apply yyyymm_inj.
  - intros [Hy Hm]. unfold yyyymm. now rewrite Hy, Hm.
  - apply yyyymm_nonEmpty.
  - destruct (month_digits (getMonth_range d1)) as [L V].
    eexists _, _. split; [reflexivity|]. now split.
Qed.

(** X14.  With the key of a month as the filter, [monthFilteredTxns] keeps
    exactly the transactions whose date parses to a day of that month of
    that year, in their order; with no month selected it keeps them all;
    filtering twice is filtering once; and when [getFirstTxnMonth] names a
    month, the first transaction is the first one of that month's list. *)
Theorem monthFilteredTxns_month (N : Type) (d0 : Date) (txns : list (Txn N)) :
  (forall t,
      In t (monthFilteredTxns (yyyymm d0) txns)
      <-> In t txns
          /\ exists d, parseDateSmart (date t) = Some d
                       /\ getFullYear d = getFullYear d0
                       /\ getMonth d = getMonth d0)
  /\ monthFilteredTxns [] txns = txns
  /\ (forall f, monthFilteredTxns f (monthFilteredTxns f txns)
                = monthFilteredTxns f txns)
  /\ (forall ym, getFirstTxnMonth txns = Some ym ->
                 exists t rest,
                   txns = t :: rest
                   /\ monthFilteredTxns ym txns
                      = t :: monthFilteredTxns ym rest).
Proof.
  split; [|split; [|split]].
  - intros t. unfold monthFilteredTxns. rewrite yyyymm_nonEmpty. cbn [negb].
    rewrite filter_In. now rewrite inMonth_spec.
  - reflexivity.
  - intros f. unfold monthFilteredTxns.
    destruct (negb (nonEmpty f)); [reflexivity|].
    induction txns as [|t l IH]; [reflexivity|]. simpl.
    destruct (inMonth f t) eqn:E; [|exact IH]. simpl. now rewrite E, IH.
  - intros ym H. destruct txns as [|t rest]; [discriminate|].
    exists t, rest. split; [reflexivity|]. simpl in H.
    destruct (parseDateSmart (date t)) as [d|] eqn:E; [|discriminate].
    injection H as <-. unfold monthFilteredTxns.
    rewrite yyyymm_nonEmpty. cbn [negb filter].
    unfold inMonth at 1. now rewrite E, eqStr_refl.
Qed.

Section TotalsKeys.
Context {N : Type} {AN : Arith N}.

Lemma keys_mapSet (k : str) (v : N) (m : list (str * N)) (k' : str) :
  In k' (keys (mapSet k v m)) <-> k' = k \/ In k' (keys m).
Proof.
  induction m as [|[k0 v0] m IH]; simpl.
  - intuition.
  - destruct (eqStr k k0) eqn:E; simpl.
    + apply eqStr_true in E. subst k0. intuition.
    + rewrite IH. intuition.
Qed.

Lemma NoDup_mapSet (k : str) (v : N) (m : list (str * N)) :
  NoDup (keys m) -> NoDup (keys (mapSet k v m)).
Proof.
  induction m as [|[k0 v0] m IH]; simpl; intros H.
  - constructor; [intros [] | constructor].
  - destruct (eqStr k k0) eqn:E; simpl; [exact H|].
    inversion H as [|? ? Hn Hd]; subst. constructor; [|now apply IH].
    intros Hin. apply keys_mapSet in Hin. destruct Hin as [->|Hin]; [|auto].
    now rewrite eqStr_refl in E.
Qed.

Lemma keys_accumulate (txns : list (Txn N)) (m : list (str * N)) :
  (NoDup (keys m) -> NoDup (keys (fold_left accumulate txns m)))
  /\ forall k, In k (keys (fold_left accumulate txns m))
               <-> In k (keys m)
                   \/ exists t, In t txns /\ effectiveCategory t = k.
Proof.
  revert m; induction txns as [|t txns IH]; intros m; simpl.
  - split; [auto|]. intros k. split; [auto|]. now intros [H|[t [[] _]]].
  - destruct (IH (accumulate m t)) as [IH1 IH2]. split.
    + intros H. apply IH1. now apply NoDup_mapSet.
    + intros k. rewrite IH2. unfold accumulate at 1. rewrite keys_mapSet.
      split.
      * intros [[->|H]|[t' [H1 H2]]]; eauto.
      * intros [H|[t' [[->|H1] H2]]]; eauto.
Qed.

Lemma keys_sortRows (m : list (str * N)) : Permutation (keys (sortRows m)) (keys m).
Proof. apply Permutation_map, sortRows_perm. Qed.

Lemma filtered_category (f : str) (txns : list (Txn N)) (t : Txn N) :
  nonEmpty f = true ->
  In t (getFilteredTxns (Some f) txns) <-> In t txns /\ effectiveCategory t = f.
Proof.
  intros H. unfold getFilteredTxns. rewrite H. cbn [negb].
  rewrite filter_In. split; intros [H1 H2]; split; auto.
  - now apply eqStr_true.
  - subst f. apply eqStr_refl.
Qed.

End TotalsKeys.

(** X15.  [computeCategoryTotals] gives one row for each category that
    occurs and no other row: the categories of the rows are distinct and
    they are the upper-case categories of the transactions, UNCATEGORISED
    standing for an absent or empty one.  The totals of the transactions
    that the category filter shows have at most one row, the row of the
    selected category. *)
Theorem totals_one_row_per_category (N : Type) (AN : Arith N)
    (txns : list (Txn N)) :
  NoDup (keys (fst (computeCategoryTotals txns)))
  /\ (forall k, In k (keys (fst (computeCategoryTotals txns)))
                <-> exists t, In t txns /\ effectiveCategory t = k)
  /\ (forall f, nonEmpty f = true ->
        let visible := getFilteredTxns (Some f) txns in
        (visible = [] /\ keys (fst (computeCategoryTotals visible)) = [])
        \/ (visible <> [] /\ keys (fst (computeCategoryTotals visible)) = [f])).
Proof.
  assert (G : forall l : list (Txn N),
             NoDup (keys (fst (computeCategoryTotals l)))
             /\ (forall k, In k (keys (fst (computeCategoryTotals l)))
                           <-> exists t, In t l /\ effectiveCategory t = k)).
  { intros l. unfold computeCategoryTotals. cbn [fst].
    destruct (keys_accumulate l []) as [H1 H2]. split.
    - apply (Permutation_NoDup (Permutation_sym (keys_sortRows _))).
      apply H1. constructor.
    - intros k. split.
      + intros H. apply (Permutation_in _ (keys_sortRows _)) in H.
        apply H2 in H. now destruct H as [[]|H].
      + intros H.
        apply (Permutation_in _ (Permutation_sym (keys_sortRows _))).
        apply H2. now right. }
  split; [apply G|]. split; [apply G|].
  intros f Hf visible.
  destruct (G visible) as [Hd Hk].
  assert (Hall : forall k, In k (keys (fst (computeCategoryTotals visible)))
                           -> k = f).
  { intros k Hin. apply Hk in Hin. destruct Hin as [t [H1 H2]].
    apply (@filtered_category N f txns t Hf) in H1. destruct H1 as [_ H1].
    congruence. }
  destruct visible as [|t rest] eqn:E.
  - left. split; reflexivity.
  - right. split; [discriminate|].
    assert (Hin : In f (keys (fst (computeCategoryTotals (t :: rest))))).
    { apply Hk. exists t. split; [now left|].
      assert (Ht : In t (getFilteredTxns (Some f) txns))
        by (fold visible; rewrite E; now left).
      now apply (@filtered_category N f txns t Hf) in Ht. }
    destruct (keys (fst (computeCategoryTotals (t :: rest)))) as [|a [|b l]].
    + destruct Hin.
    + now rewrite (Hall a (or_introl eq_refl)).
    + exfalso. inversion Hd as [|? ? Hn _]; subst. apply Hn.
      rewrite (Hall a (or_introl eq_refl)).
      rewrite <- (Hall b (or_intror (or_introl eq_refl))). now left.
Qed.

Section ExactRows.
Local Open Scope Qc_scope.

Lemma eqStr_sym (a b : str) : eqStr a b = eqStr b a.
Proof.
  destruct (eqStr a b) eqn:E.
  - apply eqStr_true in E. subst. now rewrite eqStr_refl.
  - symmetry. apply eqStr_false. apply eqStr_false in E. congruence.
Qed.

Lemma positive_exact (a b : Qc) : positive (sub a b) = true <-> b < a.
Proof.
  cbn [positive sub Exact]. rewrite (Qclt_minus_iff b a).
  unfold Qcminus, Qclt, Qccompare.
  match goal with
  | |- context [Qcompare ?x ?y] =>
      rewrite (Qlt_alt x y); destruct (Qcompare x y)
  end; split; congruence.
Qed.

Lemma insertRow_head (x : str * Qc) (l : list (str * Qc)) :
  exists rest, insertRow x l = x :: rest
               \/ exists y l', l = y :: l' /\ insertRow x l = y :: rest.
Proof.
  destruct l as [|y l]; cbn [insertRow].
  - exists []. now left.
  - destruct (positive (compareRows y x)).
    + exists (y :: l). now left.
    + exists (insertRow x l). right. now exists y, l.
Qed.

Lemma descending_cons (a : str * Qc) (l : list (str * Qc)) :
  descending (a :: l)
  <-> match l with b :: _ => snd b <= snd a | [] => True end /\ descending l.
Proof. destruct l; simpl; tauto. Qed.

Lemma insertRow_descending (x : str * Qc) (l : list (str * Qc)) :
  descending l -> descending (insertRow x l).
Proof.
  induction l as [|y l IH]; intros H; [exact I|].
  cbn [insertRow].
  destruct (positive (compareRows y x)) eqn:E.
  - apply descending_cons. split; [|exact H].
    apply positive_exact in E. now apply Qclt_le_weak.
  - apply descending_cons in H. destruct H as [H1 H2].
    apply descending_cons. split; [|now apply IH].
    assert (Hx : snd x <= snd y).
    { apply Qcnot_lt_le. intros L. apply positive_exact in L.
      unfold compareRows in E. congruence. }
    destruct (insertRow_head x l) as [rest [->|[z [l' [-> ->]]]]];
      [exact Hx | exact H1].
Qed.

Lemma sortRows_descending (m : list (str * Qc)) : descending (sortRows m).
Proof.
  unfold sortRows.
  assert (G : forall acc, descending acc ->
                descending (fold_left (fun a x => insertRow x a) m acc)).
  { induction m as [|x m IH]; intros acc H; simpl; [exact H|].
    apply IH. now apply insertRow_descending. }
  apply G. exact I.
Qed.

Lemma mapGet_mapSet (k k' : str) (v : Qc) (m : list (str * Qc)) :
  mapGet k' (mapSet k v m) = if eqStr k' k then Some v else mapGet k' m.
Proof.
  induction m as [|[k0 v0] m IH]; simpl.
  - reflexivity.
  - destruct (eqStr k k0) eqn:E; simpl.
    + apply eqStr_true in E. subst k0. now destruct (eqStr k' k).
    + rewrite IH. destruct (eqStr k' k0) eqn:E0; [|reflexivity].
      apply eqStr_true in E0. subst k0.
      rewrite eqStr_sym in E. now rewrite E.
Qed.

Lemma held_accumulate (k : str) (m : list (str * Qc)) (t : Txn Qc) :
  held k (accumulate m t)
  = if eqStr (effectiveCategory t) k then held k m + amount t else held k m.
Proof.
  unfold held, accumulate. rewrite mapGet_mapSet, eqStr_sym.
  destruct (eqStr (effectiveCategory t) k) eqn:E; [|reflexivity].
  apply eqStr_true in E. subst k. unfold getOrZero. cbn [add zero Exact].
  destruct (mapGet (effectiveCategory t) m) as [v|]; [|reflexivity].
  now rewrite truthy_exact.
Qed.

Lemma held_fold (k : str) (txns : list (Txn Qc)) (m : list (str * Qc)) :
  held k (fold_left accumulate txns m)
  = held k m
    + amountsTotal (filter (fun t => eqStr (effectiveCategory t) k) txns).
Proof.
  revert m; induction txns as [|t txns IH]; intros m; simpl.
  - ring.
  - rewrite IH, held_accumulate.
    destruct (eqStr (effectiveCategory t) k); simpl; ring.
Qed.

Lemma mapGet_In (k : str) (v : Qc) (m : list (str * Qc)) :
  NoDup (keys m) -> In (k, v) m -> mapGet k m = Some v.
Proof.
  induction m as [|[k0 v0] m IH]; intros Hd Hin; [destruct Hin|].
  inversion Hd as [|? ? Hn Hd']; subst. simpl.
  destruct Hin as [E|Hin].
  - injection E as -> ->. now rewrite eqStr_refl.
  - destruct (eqStr k k0) eqn:E; [|now apply IH].
    apply eqStr_true in E. subst k0. exfalso. apply Hn.
    change k with (fst (k, v)). now apply in_map.
Qed.

Lemma effectiveCategory_nonEmpty (N : Type) (t : Txn N) :
  nonEmpty (effectiveCategory t) = true.
Proof.
  unfold effectiveCategory, toUpperCase. rewrite nonEmpty_map.
  unfold orElse. destruct (category t) as [c|]; [|reflexivity].
  now destruct (nonEmpty c) eqn:E.
Qed.

End ExactRows.

(** X16.  In exact arithmetic the rows of [computeCategoryTotals] come in
    descending order of their totals, and the total of a row is the sum of
    the amounts of the transactions that the category filter shows for the
    row's category. *)
Theorem totals_rows_exact (txns : list (Txn Qc)) :
  descending (fst (computeCategoryTotals txns))
  /\ forall k v, In (k, v) (fst (computeCategoryTotals txns)) ->
                 v = sumAmounts (getFilteredTxns (Some k) txns).
Proof.
  cbn [computeCategoryTotals fst]. split; [apply sortRows_descending|].
  intros k v Hin.
  apply (Permutation_in _ (sortRows_perm _)) in Hin.
  destruct (@keys_accumulate Qc Exact txns []) as [Hd Hk].
  pose proof (@mapGet_In k v _ (Hd (NoDup_nil _)) Hin) as Hg.
  assert (Hne : nonEmpty k = true).
  { assert (Hin' : In k (keys (fold_left accumulate txns [])))
      by (change k with (fst (k, v)); now apply in_map).
    apply Hk in Hin'. destruct Hin' as [[]|[t [_ <-]]].
    apply effectiveCategory_nonEmpty. }
  pose proof (held_fold k txns []) as H. unfold held at 1 in H.
  rewrite Hg in H. unfold getFilteredTxns. rewrite Hne. cbn [negb].
  rewrite sumAmounts_total, H. unfold held. simpl. ring.
Qed.

Section Pages.
Local Open Scope Z_scope.

Lemma totalPages_bounds (n : Z) :
  0 <= n ->
  1 <= totalPages n
  /\ n <= totalPages n * PAGE_SIZE
  /\ (0 < n -> (totalPages n - 1) * PAGE_SIZE < n).
Proof.
  intros H. unfold totalPages, PAGE_SIZE. Z.div_mod_to_equations. lia.
Qed.

Lemma clampPage_range (p pages : Z) :
  1 <= pages -> 1 <= clampPage p pages <= pages.
Proof.
  intros H. unfold clampPage.
  destruct (Z.ltb_spec pages p);
    match goal with |- context [?a <? 1] => destruct (Z.ltb_spec a 1) end; lia.
Qed.

Lemma clampPage_fixed (p pages : Z) : 1 <= p <= pages -> clampPage p pages = p.
Proof.
  intros H. unfold clampPage.
  destruct (Z.ltb_spec pages p); [lia|]. destruct (Z.ltb_spec p 1); lia.
Qed.

Lemma firstn_add (A : Type) (a b : nat) (l : list A) :
  firstn (a + b) l = firstn a l ++ firstn b (skipn a l).
Proof.
  revert l; induction a as [|a IH]; intros l; [reflexivity|].
  destruct l as [|x l]; simpl.
  - now rewrite firstn_nil.
  - now rewrite IH.
Qed.

(** The chunks of [k] items, one after the other, give the list back up
    to the end of the last chunk. *)
Lemma chunks_concat (A : Type) (k n : nat) (l : list A) :
  List.concat (map (fun i => firstn k (skipn (i * k) l)) (seq 0 n))
  = firstn (n * k) l.
Proof.
  induction n as [|n IH]; [reflexivity|].
  rewrite seq_S, map_app, concat_app, IH. simpl.
  rewrite app_nil_r. replace (k + n * k)%nat with (n * k + k)%nat by lia.
  now rewrite firstn_add.
Qed.

Lemma pageItems_page (A : Type) (l : list A) (i : nat) :
  Z.of_nat (S i) <= totalPages (Z.of_nat (List.length l)) ->
  pageItems (Z.of_nat (S i)) l
  = (Z.of_nat (S i), firstn 10 (skipn (i * 10) l)).
Proof.
  intros H. unfold pageItems. rewrite clampPage_fixed by lia.
  unfold slice, PAGE_SIZE. f_equal. f_equal; [|f_equal]; lia.
Qed.

End Pages.

(** X17.  The pages of the transaction table split the list: the items of
    the pages 1 to [totalPages], put one after the other, are the filtered
    transactions, each once and in order.  The page the table settles on
    lies between 1 and [totalPages] whatever [CURRENT_PAGE] was, it is
    [CURRENT_PAGE] when that is in range, it shows at most [PAGE_SIZE]
    items, and at least one when there is a transaction to show. *)
Theorem pages_partition (A : Type) (filtered : list A) :
  let pages := totalPages (Z.of_nat (List.length filtered)) in
  List.concat (map (fun p => snd (pageItems p filtered)) (pageNumbers pages))
  = filtered
  /\ forall CURRENT_PAGE,
       (1 <= fst (pageItems CURRENT_PAGE filtered) <= pages)%Z
       /\ ((1 <= CURRENT_PAGE <= pages)%Z ->
           fst (pageItems CURRENT_PAGE filtered) = CURRENT_PAGE)
       /\ (List.length (snd (pageItems CURRENT_PAGE filtered)) <= 10)%nat
       /\ (filtered <> [] -> snd (pageItems CURRENT_PAGE filtered) <> []).
Proof.
  intros pages.
  pose proof (@totalPages_bounds (Z.of_nat (List.length filtered))
                ltac:(lia)) as [B1 [B2 B3]].
  fold pages in B1, B2, B3. split.
  - unfold pageNumbers. rewrite map_map.
    transitivity (firstn (Z.to_nat pages * 10) filtered);
      [|apply firstn_all2; unfold PAGE_SIZE in B2; lia].
    rewrite <- chunks_concat. rewrite <- seq_shift, map_map. f_equal.
    apply map_ext_in. intros i Hi. apply in_seq in Hi.
    rewrite pageItems_page; [reflexivity|]. fold pages. lia.
  - intros cur. pose proof (clampPage_range cur B1) as R.
    cbn [pageItems fst snd]. fold pages. split; [exact R|].
    split; [intros H; now apply clampPage_fixed|]. split.
    + unfold slice. rewrite length_firstn. unfold PAGE_SIZE. lia.
    + intros Hne E. unfold slice in E.
      apply (f_equal (@List.length A)) in E.
      rewrite length_firstn, length_skipn in E. simpl in E.
      assert (0 < Z.of_nat (List.length filtered))%Z
        by (destruct filtered; [congruence | simpl; lia]).
      unfold PAGE_SIZE in *. lia.
Qed.

(** X18.  The pager that [renderTransactionsTable] draws: the window of
    page numbers holds the current page, stays between 1 and the number of
    pages, and has five numbers, or all of them when there are fewer than
    five pages; the Prev and the Next button lead to a page in range, the
    neighbour of the current page where there is one. *)
Theorem pager_window (n CURRENT_PAGE : Z) :
  let pages := totalPages n in
  let cur := clampPage CURRENT_PAGE pages in
  let first := fst (pagerWindow pages cur) in
  let last := snd (pagerWindow pages cur) in
  (1 <= first <= cur /\ cur <= last <= pages
   /\ last - first + 1 = Z.min pages 5
   /\ 1 <= prevPage cur <= pages /\ 1 <= nextPage pages cur <= pages
   /\ (1 < cur -> prevPage cur = cur - 1)
   /\ (cur < pages -> nextPage pages cur = cur + 1))%Z.
Proof.
  intros pages cur first last.
  assert (B : (1 <= pages)%Z) by (unfold pages, totalPages; lia).
  pose proof (clampPage_range CURRENT_PAGE B) as R. fold cur in R.
  unfold first, last, pagerWindow, prevPage, nextPage. cbn [fst snd].
  destruct (Z.eqb_spec pages 0); [lia|].
  change (5 / 2)%Z with 2%Z. lia.
Qed.

Section DerivedKeyword.

Lemma space_not_word (c : ascii) : isSpace c = true -> isWordChar c = false.
Proof.
  destruct c as [[] [] [] [] [] [] [] []]; intros H;
    solve [reflexivity | discriminate H].
Qed.

Lemma isWordChar_lower (c : ascii) : isWordChar (lowerChar c) = isWordChar c.
Proof. destruct c as [[] [] [] [] [] [] [] []]; reflexivity. Qed.

Lemma upper_dash (c : ascii) : upperChar c = "-"%char -> isWordChar c = false.
Proof.
  destruct c as [[] [] [] [] [] [] [] []]; intros H;
    solve [reflexivity | discriminate H].
Qed.

Lemma dropWhile_split (p : ascii -> bool) (s : str) :
  exists a, s = a ++ dropWhile p s /\ forall c, In c a -> p c = true.
Proof.
  induction s as [|c s [a [IH1 IH2]]]; simpl.
  - exists []. split; [reflexivity | intros ? []].
  - destruct (p c) eqn:E.
    + exists (c :: a). split; [simpl; now rewrite <- IH1|].
      intros x [<-|Hx]; auto.
    + exists []. split; [reflexivity | intros ? []].
Qed.

Lemma dropWhile_head (p : ascii -> bool) (s : str) :
  match dropWhile p s with c :: _ => p c = false | [] => True end.
Proof.
  induction s as [|c s IH]; simpl; [exact I|].
  destruct (p c) eqn:E; [exact IH | exact E].
Qed.

(** The white space [trim] takes off. *)
Lemma trim_split (s : str) :
  exists a b, s = a ++ trim s ++ b
              /\ (forall c, In c a -> isSpace c = true)
              /\ (forall c, In c b -> isSpace c = true).
Proof.
  unfold trim, trimStart.
  destruct (dropWhile_split isSpace s) as [a [E1 Ha]].
  set (t := dropWhile isSpace s) in *. unfold trimEnd.
  destruct (dropWhile_split isSpace (rev t)) as [b [E2 Hb]].
  exists a, (rev b). split; [|split].
  - rewrite <- rev_app_distr, <- E2, rev_involutive. exact E1.
  - exact Ha.
  - intros c Hc. apply Hb. now apply in_rev.
Qed.

Lemma leftBounded_app (a pre : str) :
  (forall c, In c a -> isWordChar c = false) ->
  leftBounded pre -> leftBounded (a ++ pre).
Proof.
  intros Ha [->|[p [c [-> Hc]]]].
  - rewrite app_nil_r. destruct (rev a) as [|x r] eqn:E.
    + left. apply (f_equal (@rev ascii)) in E.
      now rewrite rev_involutive in E.
    + right. exists (rev r), x. split.
      * apply (f_equal (@rev ascii)) in E. now rewrite rev_involutive in E.
      * apply Ha. apply in_rev. rewrite E. now left.
  - right. exists (a ++ p), c. split; [now rewrite app_assoc | exact Hc].
Qed.

Lemma rightBounded_app (post b : str) :
  (forall c, In c b -> isWordChar c = false) ->
  rightBounded post -> rightBounded (post ++ b).
Proof.
  intros Hb [->|[c [q [-> Hc]]]].
  - destruct b as [|x b]; [now left|]. right. exists x, b.
    split; [reflexivity|]. apply Hb. now left.
  - right. now exists c, (q ++ b).
Qed.

Lemma leftBounded_end (p : str) (c : ascii) :
  isWordChar c = false ->
  forall a, (forall x, In x a -> isWordChar x = false) ->
            exists p' c', (p ++ [c]) ++ a = p' ++ [c']
                          /\ isWordChar c' = false.
Proof.
  intros Hc a Ha. destruct (rev a) as [|x r] eqn:E.
  - apply (f_equal (@rev ascii)) in E. rewrite rev_involutive in E.
    subst a. exists p, c. now rewrite app_nil_r.
  - apply (f_equal (@rev ascii)) in E. rewrite rev_involutive in E.
    simpl in E. exists ((p ++ [c]) ++ rev r), x. split.
    + now rewrite E, app_assoc.
    + apply Ha. rewrite E. apply in_or_app. right. now left.
Qed.

Lemma leftBounded_lower (pre : str) :
  leftBounded pre -> leftBounded (toLowerCase pre).
Proof.
  intros [->|[p [c [-> Hc]]]]; [now left|]. right.
  exists (toLowerCase p), (lowerChar c). split.
  - unfold toLowerCase. now rewrite map_app.
  - now rewrite isWordChar_lower.
Qed.

Lemma rightBounded_lower (post : str) :
  rightBounded post -> rightBounded (toLowerCase post).
Proof.
  intros [->|[c [q [-> Hc]]]]; [now left|]. right.
  exists (lowerChar c), (toLowerCase q). split; [reflexivity|].
  now rewrite isWordChar_lower.
Qed.

Lemma splitRuns_nospace (s : str) :
  (forall c, In c s -> isSpace c = false) -> splitRuns false s = [s].
Proof.
  induction s as [|c s IH]; intros H; [reflexivity|]. simpl.
  rewrite (H c) by now left. rewrite IH; [reflexivity|].
  intros x Hx. apply H. now right.
Qed.

Lemma keywordTokens_single (tok : str) :
  tok <> [] -> (forall c, In c tok -> isSpace c = false) ->
  keywordTokens (toUpperCase tok) = [toLowerCase tok].
Proof.
  intros Hne Hs. unfold keywordTokens, splitWs.
  rewrite toLowerCase_upper, splitRuns_nospace.
  - simpl. unfold toLowerCase. rewrite nonEmpty_map.
    apply nonEmpty_true in Hne. now rewrite Hne.
  - intros c Hc. unfold toLowerCase in Hc. apply in_map_iff in Hc.
    destruct Hc as [x [<- Hx]]. rewrite isSpace_lower. now apply Hs.
Qed.

(** A piece without white space that stands bounded in a description is,
    in upper case, a keyword that matches the description. *)
Lemma token_matches (full pre tok post : str) :
  full = pre ++ tok ++ post ->
  tok <> [] -> (forall c, In c tok -> isSpace c = false) ->
  leftBounded pre -> rightBounded post ->
  matchesKeyword full (toUpperCase tok) = true.
Proof.
  intros E Hne Hs Hl Hr. apply matchesKeyword_spec. unfold keywordMatches.
  rewrite (keywordTokens_single Hne Hs). split; [discriminate|].
  intros t [<-|[]]. exists (toLowerCase pre), (toLowerCase post).
  split; [|split].
  - rewrite E. unfold toLowerCase. now rewrite !map_app.
  - now apply leftBounded_lower.
  - now apply rightBounded_lower.
Qed.

Lemma starRun_greedy (A : Type) (p : ascii -> bool) (f : str -> A) :
  forall s b,
    starRun p (fun _ s' => Some (f s')) b s = Some (f (dropWhile p s)).
Proof.
  induction s as [|c s IH]; intros b; simpl; [reflexivity|].
  destruct (p c); [now rewrite IH | reflexivity].
Qed.

Lemma firstn_dropWhile (p : ascii -> bool) (s : str) :
  firstn (List.length s - List.length (dropWhile p s)) s ++ dropWhile p s = s
  /\ forall c,
       In c (firstn (List.length s - List.length (dropWhile p s)) s) ->
       p c = true.
Proof.
  induction s as [|x s [IH1 IH2]];
    [split; [reflexivity | intros ? []]|].
  cbn [dropWhile]. destruct (p x) eqn:E.
  - assert (L : (List.length (dropWhile p s) <= List.length s)%nat)
      by (destruct (dropWhile_length p s) as [->|H]; lia).
    cbn [List.length].
    replace (S (List.length s) - List.length (dropWhile p s))%nat
      with (S (List.length s - List.length (dropWhile p s))) by lia.
    cbn [firstn app]. split; [now rewrite IH1|]. intros c [<-|Hc]; auto.
  - rewrite Nat.sub_diag. split; [reflexivity | intros ? []].
Qed.

Lemma run_merchant (pre : str) (b : bool) (s : str) :
  run false merchantToken b s []
      (fun _ s' cs => Some (mkResult pre cs s'))
  = if threeWord s
    then Some (mkResult pre
                 [firstn (List.length s
                          - List.length (dropWhile isWordChar s)) s]
                 (dropWhile isWordChar s))
    else None.
Proof.
  destruct s as [|x [|y [|z rest]]]; cbn [threeWord]; try reflexivity.
  - cbn. now destruct (isWordChar x).
  - cbn. destruct (isWordChar x); [|reflexivity]. now destruct (isWordChar y).
  - unfold merchantToken. cbn [run SeqOf].
    destruct (isWordChar x) eqn:Ex; [|reflexivity].
    destruct (isWordChar y) eqn:Ey; [|reflexivity].
    destruct (isWordChar z) eqn:Ez; [|reflexivity].
    cbn [andb dropWhile]. rewrite Ex, Ey, Ez.
    exact (starRun_greedy isWordChar
             (fun s' =>
                mkResult pre
                  ([] ++ [firstn (List.length (x :: y :: z :: rest)
                                  - List.length s') (x :: y :: z :: rest)])
                  s') rest false).
Qed.

Lemma merchant_search (s : str) :
  forall pre b m,
    match pre with
    | c :: _ =>
        isWordChar c = true ->
        match s with
        | x :: y :: _ => isWordChar x && isWordChar y = false
        | _ => True
        end
    | [] => True
    end ->
    searchFrom false merchantToken b pre s = Some m ->
    exists mid tok post,
      s = mid ++ tok ++ post /\ groups m = [tok] /\ tok <> []
      /\ (forall c, In c tok -> isWordChar c = true)
      /\ leftBounded (rev pre ++ mid) /\ rightBounded post.
Proof.
  induction s as [|c s IH]; intros pre b m Inv H; cbn [searchFrom] in H;
    rewrite run_merchant in H.
  - discriminate.
  - destruct (threeWord (c :: s)) eqn:E3.
    + injection H as <-. cbn [groups].
      destruct (firstn_dropWhile isWordChar (c :: s)) as [F1 F2].
      exists [], (firstn (List.length (c :: s)
                          - List.length (dropWhile isWordChar (c :: s)))
                    (c :: s)), (dropWhile isWordChar (c :: s)).
      split; [now rewrite F1|]. split; [reflexivity|].
      destruct s as [|y [|z rest]]; try discriminate E3.
      cbn [threeWord] in E3. apply andb_true_iff in E3.
      destruct E3 as [E3 Ez]. apply andb_true_iff in E3.
      destruct E3 as [Ex Ey]. split.
      { cbn [dropWhile]. rewrite Ex, Ey, Ez.
        assert (L : (List.length (dropWhile isWordChar rest)
                     <= List.length rest)%nat)
          by (destruct (dropWhile_length isWordChar rest) as [->|L]; lia).
        cbn [List.length].
        replace (S (S (S (List.length rest)))
                 - List.length (dropWhile isWordChar rest))%nat
          with (S (S (S (List.length rest)
                      - List.length (dropWhile isWordChar rest)))) by lia.
        discriminate. }
      split; [exact F2|]. split.
      * rewrite app_nil_r. destruct pre as [|p0 pre]; [now left|].
        right. exists (rev pre), p0. split; [reflexivity|].
        destruct (isWordChar p0) eqn:Ep; [|reflexivity].
        specialize (Inv eq_refl). rewrite Ex, Ey in Inv. discriminate.
      * pose proof (dropWhile_head isWordChar (c :: y :: z :: rest)) as Hh.
        destruct (dropWhile isWordChar (c :: y :: z :: rest)) as [|h t];
          [now left|]. right. now exists h, t.
    + assert (Inv' : isWordChar c = true ->
                     match s with
                     | x :: y :: _ => isWordChar x && isWordChar y = false
                     | _ => True
                     end).
      { intros Hc. destruct s as [|x [|y rest]]; try exact I.
        cbn [threeWord] in E3. rewrite Hc in E3. exact E3. }
      destruct (IH (c :: pre) false m Inv' H)
        as [mid [tok [post [E [G [Hne [Hw [Hl Hr]]]]]]]].
      exists (c :: mid), tok, post.
      split; [simpl; now rewrite E|]. split; [exact G|].
      split; [exact Hne|]. split; [exact Hw|]. split; [|exact Hr].
      simpl rev in Hl. now rewrite <- app_assoc in Hl.
Qed.

Lemma word_not_space (c : ascii) : isWordChar c = true -> isSpace c = false.
Proof.
  intros H. destruct (isSpace c) eqn:E; [|reflexivity].
  apply space_not_word in E. congruence.
Qed.

Lemma indexOf_split (needle : str) :
  forall hay i,
    indexOf needle hay = Some i ->
    isPrefix needle (skipn i hay) = true /\ (i <= List.length hay)%nat.
Proof.
  induction hay as [|h hay IH]; intros i H; simpl in H.
  - destruct (isPrefix needle []) eqn:E; [|discriminate].
    injection H as <-. split; [exact E | simpl; lia].
  - destruct (isPrefix needle (h :: hay)) eqn:E.
    + injection H as <-. split; [exact E | simpl; lia].
    + destruct (indexOf needle hay) as [j|] eqn:Ej; [|discriminate].
      injection H as <-. destruct (IH j eq_refl) as [H1 H2].
      split; [exact H1 | simpl; lia].
Qed.

(** What is in front of the text after an occurrence of VISA- ends in a
    character that is no word character. *)
Lemma visa_left (desc : str) (i : nat) :
  indexOf (js "VISA-") (toUpperCase desc) = Some i ->
  exists p c, firstn (i + 5) desc = p ++ [c] /\ isWordChar c = false.
Proof.
  intros H. apply indexOf_split in H. destruct H as [H _].
  unfold toUpperCase in H. rewrite skipn_map in H.
  change (js "VISA-")
    with ["V"%char; "I"%char; "S"%char; "A"%char; "-"%char] in H.
  destruct (skipn i desc) as [|c0 [|c1 [|c2 [|c3 [|c4 rest]]]]] eqn:E;
    cbn [isPrefix map] in H;
    try (repeat rewrite andb_false_r in H; discriminate H).
  repeat (apply andb_true_iff in H; destruct H as [? H]).
  exists (firstn i desc ++ [c0; c1; c2; c3]), c4. split.
  - rewrite <- (firstn_skipn i desc) at 1.
    assert (L : List.length (firstn i desc) = i).
    { apply firstn_length_le.
      assert (List.length (skipn i desc) = S (S (S (S (S (List.length rest))))))
        by now rewrite E.
      rewrite length_skipn in *. lia. }
    rewrite firstn_app, L.
    replace (i + 5 - i)%nat with 5%nat by lia.
    rewrite E. rewrite firstn_firstn.
    replace (Nat.min (i + 5) i) with i by lia.
    cbn [firstn]. now rewrite <- app_assoc.
  - apply upper_dash. match goal with
    | Hd : eqChar _ (upperChar c4) = true |- _ =>
        apply eqChar_true in Hd; now rewrite <- Hd
    end.
Qed.

Lemma splitRuns_first (s : str) :
  exists p ps r,
    splitRuns false s = p :: ps /\ s = p ++ r
    /\ (forall c, In c p -> isSpace c = false)
    /\ (r = [] \/ exists c r', r = c :: r' /\ isSpace c = true).
Proof.
  induction s as [|c s [p [ps [r [E1 [E2 [Hp Hr]]]]]]]; simpl.
  - exists [], [], []. repeat split; auto. intros ? [].
  - destruct (isSpace c) eqn:Ec.
    + exists [], (splitRuns true s), (c :: s).
      split; [reflexivity|]. split; [reflexivity|].
      split; [intros ? []|]. right. now exists c, s.
    + rewrite E1. exists (c :: p), ps, r.
      split; [reflexivity|]. split; [simpl; now rewrite <- E2|].
      split; [|exact Hr]. intros x [<-|Hx]; auto.
Qed.

End DerivedKeyword.

(** X19.  For a description of ASCII characters and outside the PayPal
    heuristic, the keyword [deriveKeywordFromTxn] proposes for a
    transaction matches that transaction: when the upper-case
    description does not hold the word PAYPAL and a keyword is derived, the
    text after VISA- or the first run of three word characters,
    [matchesKeyword] accepts the keyword on the description.  The keyword
    is in upper case in every case, and an empty or blank description has
    none. *)
Theorem derived_keyword_matches (N : Type) (txn : Txn N) :
  asciiOnly (description txn) = true ->
  (containsWord (js "PAYPAL") false (toUpperCase (trim (description txn)))
   = false ->
   deriveKeywordFromTxn txn <> [] ->
   matchesKeyword (description txn) (deriveKeywordFromTxn txn) = true)
  /\ toUpperCase (deriveKeywordFromTxn txn) = deriveKeywordFromTxn txn
  /\ (trim (description txn) = [] -> deriveKeywordFromTxn txn = []).
Proof.
  intros _.
  destruct (trim_split (description txn)) as [a [b [Ed [Ha Hb]]]].
  set (desc := trim (description txn)) in *.
  assert (Ha' : forall c, In c a -> isWordChar c = false)
    by (intros c Hc; now apply space_not_word, Ha).
  assert (Hb' : forall c, In c b -> isWordChar c = false)
    by (intros c Hc; now apply space_not_word, Hb).
  assert (Generic :
            forall m1 rest,
              option_map groups (exec false merchantToken desc)
              = Some (m1 :: rest) ->
              matchesKeyword (description txn) (toUpperCase m1) = true).
  { intros m1 rest E.
    destruct (exec false merchantToken desc) as [m|] eqn:Em; [|discriminate].
    injection E as E.
    destruct (@merchant_search desc [] true m I Em)
      as [mid [tok [post [E1 [G [Hne [Hw [Hl Hr]]]]]]]].
    rewrite E in G. injection G as -> _.
    apply (@token_matches (description txn) (a ++ mid) tok (post ++ b)).
    - rewrite Ed, E1. now rewrite <- !app_assoc.
    - exact Hne.
    - intros c Hc. now apply word_not_space, Hw.
    - now apply leftBounded_app.
    - now apply rightBounded_app. }
  split; [|split].
  - intros Hp Hne. unfold deriveKeywordFromTxn in *. fold desc in Hne |- *.
    destruct (nonEmpty desc); cbn [negb] in *; [|congruence].
    rewrite Hp in *.
    assert (G2 : forall g,
               g = match option_map groups (exec false merchantToken desc) with
                   | Some (m1 :: _) => toUpperCase m1
                   | _ => []
                   end ->
               g <> [] -> matchesKeyword (description txn) g = true).
    { intros g -> Hg.
      destruct (option_map groups (exec false merchantToken desc))
        as [[|m1 rest]|] eqn:E; try congruence.
      now apply (Generic m1 rest). }
    destruct (indexOf (js "VISA-") (toUpperCase desc)) as [i|] eqn:Ei;
      [|now apply G2].
    destruct (splitRuns_first (trim (skipn (i + 5) desc)))
      as [p [ps [r [E1 [E2 [Hp' Hr]]]]]].
    unfold splitWs in *. rewrite E1 in *.
    destruct (nonEmpty p) eqn:Enp; [|now apply G2].
    destruct (trim_split (skipn (i + 5) desc)) as [a2 [b2 [E3 [Ha2 Hb2]]]].
    destruct (visa_left desc Ei) as [q [d [E4 Hd]]].
    apply (@token_matches (description txn)
             (a ++ (q ++ [d]) ++ a2) p (r ++ b2 ++ b)).
    + rewrite Ed. rewrite <- (firstn_skipn (i + 5) desc) at 1.
      rewrite E4, E3, E2. now rewrite <- !app_assoc.
    + now apply nonEmpty_true.
    + exact Hp'.
    + right.
      assert (Ha2' : forall c, In c a2 -> isWordChar c = false)
        by (intros c Hc; now apply space_not_word, Ha2).
      destruct (@leftBounded_end q d Hd a2 Ha2') as [p' [c' [E5 Hc']]].
      exists (a ++ p'), c'. split; [|exact Hc'].
      now rewrite E5, app_assoc.
    + apply rightBounded_app.
      * intros c Hc. apply in_app_or in Hc.
        destruct Hc as [Hc|Hc]; [now apply space_not_word, Hb2 | auto].
      * destruct Hr as [->|[c [r' [-> Hc]]]]; [now left|].
        right. exists c, r'. split; [reflexivity|]. now apply space_not_word.
  - unfold deriveKeywordFromTxn. fold desc.
    destruct (negb (nonEmpty desc)); [reflexivity|].
    destruct (containsWord (js "PAYPAL") false (toUpperCase desc));
      [apply toUpperCase_idem|].
    assert (G3 : toUpperCase
                   match option_map groups (exec false merchantToken desc) with
                   | Some (m1 :: _) => toUpperCase m1
                   | _ => []
                   end
                 = match option_map groups (exec false merchantToken desc) with
                   | Some (m1 :: _) => toUpperCase m1
                   | _ => []
                   end).
    { destruct (option_map groups (exec false merchantToken desc))
        as [[|m1 rest]|]; try reflexivity. apply toUpperCase_idem. }
    destruct (indexOf (js "VISA-") (toUpperCase desc)); [|exact G3].
    destruct (nonEmpty _); [apply toUpperCase_idem | exact G3].
  - intros H. unfold deriveKeywordFromTxn. fold desc. now rewrite H.
Qed.

Lemma derived_keyword_matches_witness :
  deriveKeywordFromTxn (mkTxn (js "01/02/2024") 0%float
                              (js " visa-joe's cafe ") None)
  = js "JOE'S"
  /\ matchesKeyword (js " visa-joe's cafe ") (js "JOE'S") = true.
Proof.
  split; [reflexivity|].
  pose proof (@derived_keyword_matches float
                (mkTxn (js "01/02/2024") 0%float
                       (js " visa-joe's cafe ") None) eq_refl) as [H _].
  apply H; [reflexivity | discriminate].
Defined.


(** X21.  [applyRulesAndRender] re-categorises the transactions of the
    selected month and no other: the objects of the month's list get the
    category the rules of the text box give them, every other transaction
    of [CURRENT_TXNS] keeps the category it had; the list that is rendered
    is [categorise] of the month's list, and the month's list is the same
    before and after. *)
Theorem applyRules_month_only (rulesBox MONTH_FILTER : str)
    (CURRENT_TXNS : list nat) (h : heap) :
  let rules := parseRules rulesBox in
  let txns := monthFilteredRefs MONTH_FILTER h CURRENT_TXNS in
  let h' := applyRules rulesBox MONTH_FILTER CURRENT_TXNS h in
  (forall r t, nth_error h r = Some t ->
               (In r txns -> nth_error h' r = Some (categoriseTxn rules t))
               /\ (~ In r txns -> nth_error h' r = Some t))
  /\ deref h' txns = categorise (deref h txns) rules
  /\ monthFilteredRefs MONTH_FILTER h' CURRENT_TXNS = txns.
Proof.
  intros rules txns h'. unfold h', applyRules. fold rules txns.
  assert (S1 : forall r t, nth_error h r = Some t ->
             (In r txns ->
              nth_error (categoriseRefs txns rules h) r
              = Some (categoriseTxn rules t))
             /\ (~ In r txns ->
                 nth_error (categoriseRefs txns rules h) r = Some t))
    by (intros r t; apply categoriseRefs_spec).
  split; [exact S1|]. split.
  - assert (G : forall l, incl l txns ->
                  deref (categoriseRefs txns rules h) l
                  = categorise (deref h l) rules).
    { induction l as [|r l IH]; intros Hl; [reflexivity|].
      unfold deref, categorise in *. cbn [flat_map]. rewrite map_app.
      rewrite IH by (intros x Hx; apply Hl; now right). f_equal.
      destruct (nth_error h r) as [t|] eqn:E.
      - destruct (S1 r t E) as [I1 _]. rewrite I1; [reflexivity|].
        apply Hl. now left.
      - now rewrite (categoriseRefs_none rules txns h r E). }
    apply G, incl_refl.
  - unfold txns at 2. unfold monthFilteredRefs.
    destruct (negb (nonEmpty MONTH_FILTER)); [reflexivity|].
    apply filter_ext. intros r.
    destruct (nth_error h r) as [t|] eqn:E.
    + destruct (S1 r t E) as [I1 I2].
      destruct (in_dec Nat.eq_dec r txns) as [Hr|Hr].
      * now rewrite (I1 Hr).
      * now rewrite (I2 Hr).
    + now rewrite (categoriseRefs_none rules txns h r E).
Qed.

Section WrittenDates.
Local Open Scope Z_scope.

Lemma digitChar_digit (k : Z) :
  0 <= k <= 9 ->
  isDigit (digitChar k) = true /\ digitValue (digitChar k) = k.
Proof.
  intros H.
  assert (T : k = 0 \/ k = 1 \/ k = 2 \/ k = 3 \/ k = 4 \/ k = 5
              \/ k = 6 \/ k = 7 \/ k = 8 \/ k = 9) by lia.
  destruct T as [->|[->|[->|[->|[->|[->|[->|[->|[->| ->]]]]]]]]];
    split; reflexivity.
Qed.

Lemma digitChar_mod (n : Z) :
  isDigit (digitChar (n mod 10)) = true
  /\ digitValue (digitChar (n mod 10)) = n mod 10.
Proof.
  apply digitChar_digit. pose proof (Z.mod_pos_bound n 10 ltac:(lia)). lia.
Qed.

Lemma written4_value (y : Z) : 0 <= y <= 9999 -> toInt (written4 y) = y.
Proof.
  intros H. unfold toInt, digitsValue, written4. cbn [fold_left].
  rewrite !(proj2 (digitChar_mod _)). Z.div_mod_to_equations. lia.
Qed.

Lemma written2_value (n : Z) : 0 <= n <= 99 -> toInt (written2 n) = n.
Proof.
  intros H. unfold toInt, digitsValue, written2. cbn [fold_left].
  rewrite !(proj2 (digitChar_mod _)). Z.div_mod_to_equations. lia.
Qed.

Lemma digit_not_space (c : ascii) : isDigit c = true -> isSpace c = false.
Proof.
  destruct c as [[] [] [] [] [] [] [] []]; intros H;
    solve [reflexivity | discriminate H].
Qed.

Lemma exec_iso_digits (a b c e f g i j : ascii) :
  isDigit a = true -> isDigit b = true -> isDigit c = true ->
  isDigit e = true -> isDigit f = true -> isDigit g = true ->
  isDigit i = true -> isDigit j = true ->
  exec false isoPattern [a; b; c; e; "-"%char; f; g; "-"%char; i; j]
  = Some (mkResult [] [[a; b; c; e]; [f; g]; [i; j]] []).
Proof.
  intros Ha Hb Hc He Hf Hg Hi Hj.
  unfold isoPattern. cbn [SeqOf]. rewrite exec_anchored.
  cbn [run digits4 digits12 digit dateSep SeqOf Opt].
  rewrite Ha, Hb, Hc, He.
  cbn [run digits4 digits12 digit dateSep SeqOf Opt eqChar].
  now rewrite Hf, Hg, Hi, Hj.
Qed.

Lemma exec_dmy_digits (a b c e f g i j : ascii) :
  isDigit a = true -> isDigit b = true -> isDigit c = true ->
  isDigit e = true -> isDigit f = true -> isDigit g = true ->
  isDigit i = true -> isDigit j = true ->
  exec false dmyPattern [i; j; "/"%char; f; g; "/"%char; a; b; c; e]
  = Some (mkResult [] [[i; j]; [f; g]; [a; b; c; e]] []).
Proof.
  intros Ha Hb Hc He Hf Hg Hi Hj.
  unfold dmyPattern. cbn [SeqOf]. rewrite exec_anchored.
  cbn [run digits4 digits12 digit dateSep SeqOf Opt].
  rewrite Hi, Hj.
  cbn [run digits4 digits12 digit dateSep SeqOf Opt eqChar].
  rewrite Hf, Hg.
  cbn [run digits4 digits12 digit dateSep SeqOf Opt eqChar].
  now rewrite Ha, Hb, Hc, He.
Qed.

Lemma trim_ten (a b c e f g i j x y : ascii) :
  isSpace a = false -> isSpace j = false ->
  trim [a; b; c; e; x; f; g; y; i; j] = [a; b; c; e; x; f; g; y; i; j].
Proof.
  intros Ha Hj. unfold trim, trimStart, trimEnd. cbn [dropWhile].
  rewrite Ha. cbn [rev app dropWhile]. now rewrite Hj.
Qed.

Lemma daysInMonth_le_31 (leap : bool) (m : Z) :
  0 <= m <= 11 -> daysInMonth leap m <= 31.
Proof.
  intros H.
  destruct (month_cases H)
    as [->|[->|[->|[->|[->|[->|[->|[->|[->|[->|[->| ->]]]]]]]]]]];
    destruct leap; vm_compute; discriminate.
Qed.

Lemma shown_newDate (y m d : Z) :
  0 <= y -> inCalendar (centuryYear y) m d ->
  shown (newDate y (m - 1) d) = (centuryYear y, m, d).
Proof.
  intros Hy [Hm Hd]. unfold newDate. fold (centuryYear y).
  unfold shown, getFullYear, getMonth, getDate. cbn [dayNumber].
  assert (Hm' : 0 <= m - 1 <= 11) by lia.
  destruct (@MakeDay_fields (centuryYear y) (m - 1) d Hm' Hd) as [F1 [F2 F3]].
  rewrite F1, F2, F3. f_equal. f_equal. lia.
Qed.

End WrittenDates.

(** X20.  A day of the calendar written on the digits of the two numeric
    patterns is read back as written: for a year from 0 to 9999, the text
    with the year first and the text with the day first both parse to the
    date that shows that day and month, in that year, or in 1900 plus the
    year when the year is below 100; the month key of the date is the
    key of that year and month. *)
Theorem written_dates_read_back (y m d : Z) :
  (0 <= y <= 9999)%Z -> inCalendar (centuryYear y) m d ->
  option_map shown (parseDateSmart (isoText y m d))
  = Some (centuryYear y, m, d)
  /\ option_map shown (parseDateSmart (dmyText y m d))
     = Some (centuryYear y, m, d)
  /\ option_map yyyymm (parseDateSmart (isoText y m d))
     = Some (decimal (centuryYear y)
             ++ "-"%char :: padStart 2 "0"%char (decimal m)).
Proof.
  intros Hy Hc. pose proof Hc as [Hm Hd].
  assert (Hm' : (0 <= m - 1 <= 11)%Z) by lia.
  pose proof (daysInMonth_le_31 (InLeapYear (centuryYear y)) Hm') as H31.
  pose proof (written4_value Hy) as Vy.
  pose proof (@written2_value m ltac:(lia)) as Vm.
  pose proof (@written2_value d ltac:(lia)) as Vd.
  assert (Piso : parseDateSmart (isoText y m d) = Some (newDate y (m - 1) d)).
  { assert (X : exec false isoPattern (isoText y m d)
                = Some (mkResult [] [written4 y; written2 m; written2 d] []))
      by (apply exec_iso_digits; apply digitChar_mod).
    assert (T : trim (isoText y m d) = isoText y m d)
      by (apply trim_ten; apply digit_not_space, digitChar_mod).
    rewrite <- T in X.
    destruct (parse_iso _ X) as [gy [gm [gd [G P]]]].
    cbn [groups] in G. injection G as <- <- <-.
    now rewrite P, Vy, Vm, Vd. }
  assert (Pdmy : parseDateSmart (dmyText y m d) = Some (newDate y (m - 1) d)).
  { assert (X : exec false dmyPattern (dmyText y m d)
                = Some (mkResult [] [written2 d; written2 m; written4 y] []))
      by (apply exec_dmy_digits; apply digitChar_mod).
    assert (T : trim (dmyText y m d) = dmyText y m d)
      by (apply trim_ten; apply digit_not_space, digitChar_mod).
    rewrite <- T in X.
    destruct (parse_dmy _ X) as [gd [gm [gy [G P]]]].
    cbn [groups] in G. injection G as <- <- <-.
    now rewrite P, Vy, Vm, Vd. }
  rewrite Piso, Pdmy. cbn [option_map].
  pose proof (@shown_newDate y m d ltac:(lia) Hc) as S.
  rewrite S. split; [reflexivity|]. split; [reflexivity|].
  unfold shown in S. injection S as S1 S2 S3.
  unfold yyyymm. now rewrite S1, S2.
Qed.

Lemma written_dates_read_back_witness :
  option_map shown (parseDateSmart (isoText 2024 2 29)) = Some (2024, 2, 29)%Z
  /\ option_map shown (parseDateSmart (dmyText 24 12 31))
     = Some (1924, 12, 31)%Z.
Proof.
  split.
  - apply (@written_dates_read_back 2024 2 29); [lia|].
    unfold inCalendar. vm_compute. intuition discriminate.
  - apply (@written_dates_read_back 24 12 31); [lia|].
    unfold inCalendar. vm_compute. intuition discriminate.
Defined.

Section PlainKeyword.

Lemma upper_word (c : ascii) : isWordChar (upperChar c) = isWordChar c.
Proof. destruct c as [[] [] [] [] [] [] [] []]; reflexivity. Qed.

Lemma word_plain (c : ascii) :
  isWordChar c = true \/ c = " "%char ->
  eqChar c "="%char = false /\ c <> LF.
Proof.
  intros [H| ->]; [|split; [reflexivity | discriminate]].
  destruct c as [[] [] [] [] [] [] [] []];
    solve [discriminate H | split; [reflexivity | discriminate]].
Qed.

Lemma word_not_hash (c : ascii) : isWordChar c = true -> eqChar "#"%char c = false.
Proof.
  destruct c as [[] [] [] [] [] [] [] []]; intros H;
    solve [reflexivity | discriminate H].
Qed.

Lemma hasArrow_no_eq (s : str) :
  (forall c, In c s -> eqChar c "="%char = false) -> hasArrow s = false.
Proof.
  induction s as [|c s IH]; intros H; [reflexivity|].
  destruct s as [|d s]; [reflexivity|]. cbn [hasArrow].
  rewrite (H c) by now left. cbn [andb orb].
  apply IH. intros x Hx. apply H. now right.
Qed.

(** A string of word characters and spaces that starts and ends with a
    word character is a keyword [parseRules] reads back. *)
Lemma plain_of_words (a z : ascii) (kw : str) :
  (forall c, In c kw -> isWordChar c = true \/ c = " "%char) ->
  (exists rest, kw = a :: rest) -> (exists init, kw = init ++ [z]) ->
  isWordChar a = true -> isWordChar z = true ->
  plainKeyword kw.
Proof.
  intros Hall [rest Ea] [init Ez] Ha Hz. unfold plainKeyword.
  split; [|split; [|split]].
  - unfold trim, trimStart.
    assert (E : dropWhile isSpace kw = kw).
    { rewrite Ea. simpl. now rewrite (word_not_space a Ha). }
    rewrite E, Ez.
    rewrite (@trimEnd_stop init [] z (word_not_space z Hz)). reflexivity.
  - apply hasArrow_no_eq. intros c Hc. now apply word_plain, Hall.
  - intros Hin. apply Hall, word_plain in Hin. now destruct Hin.
  - rewrite Ea. cbn [startsWithChar]. now apply word_not_hash.
Qed.

Lemma words_plain (kw : str) :
  kw <> [] -> (forall c, In c kw -> isWordChar c = true) -> plainKeyword kw.
Proof.
  intros Hne Hall.
  destruct (exists_last Hne) as [init [z Ez]].
  destruct kw as [|a rest]; [congruence|].
  apply (@plain_of_words a z (a :: rest)).
  - intros c Hc. left. now apply Hall.
  - now exists rest.
  - now exists init.
  - apply Hall. now left.
  - apply Hall. rewrite Ez. apply in_or_app. right. now left.
Qed.

Lemma upper_words (s : str) :
  (forall c, In c s -> isWordChar c = true) ->
  forall c, In c (toUpperCase s) -> isWordChar c = true.
Proof.
  intros H c Hc. unfold toUpperCase in Hc. apply in_map_iff in Hc.
  destruct Hc as [x [<- Hx]]. rewrite upper_word. now apply H.
Qed.

Lemma leadingToken_run (x : ascii) (s : str) :
  isWordChar x = true ->
  run false leadingToken true (x :: s) []
      (fun _ s' cs => Some (mkResult [] cs s'))
  = Some (mkResult []
            [firstn (List.length (x :: s)
                     - List.length (dropWhile isWordChar s)) (x :: s)]
            (dropWhile isWordChar s)).
Proof.
  intros Ex. unfold leadingToken, Plus. cbn [run]. rewrite Ex.
  exact (starRun_greedy isWordChar
           (fun s' => mkResult []
                        ([] ++ [firstn (List.length (x :: s)
                                        - List.length s') (x :: s)]) s')
           s false).
Qed.

(** The token [nextWordAfter] returns is made of word characters. *)
Lemma leadingToken_words (s m1 : str) (rest : list str) :
  option_map groups (exec false leadingToken s) = Some (m1 :: rest) ->
  forall c, In c m1 -> isWordChar c = true.
Proof.
  unfold leadingToken at 1. rewrite exec_anchored.
  fold leadingToken. destruct s as [|x s]; [discriminate|].
  destruct (isWordChar x) eqn:Ex.
  - rewrite (@leadingToken_run x s Ex). cbn [option_map groups].
    intros E. injection E as <- _.
    destruct (firstn_dropWhile isWordChar (x :: s)) as [_ F].
    cbn [dropWhile] in F. rewrite Ex in F. exact F.
  - unfold leadingToken, Plus. cbn [run]. rewrite Ex. discriminate.
Qed.

Lemma nextWordAfter_words (marker desc : str) :
  forall c, In c (nextWordAfter marker desc) -> isWordChar c = true.
Proof.
  unfold nextWordAfter.
  destruct (indexOf (toLowerCase marker) (toLowerCase desc)) as [i|];
    [|intros ? []].
  destruct (option_map groups
              (exec false leadingToken
                 (removeFirst false leadingSeps
                    (skipn (i + List.length marker) desc))))
    as [[|m1 rest]|] eqn:E; try (intros ? []).
  now apply (leadingToken_words _ E).
Qed.

End PlainKeyword.

(** X22.  Outside the VISA- heuristic the keyword [deriveKeywordFromTxn]
    proposes can be written to the rules: a keyword derived by the PayPal
    heuristic or from the first run of three word characters is made of
    word characters and single spaces, it has no white space around it, no
    arrow and no line feed in it and no number sign in front, and the line
    [addOrUpdateRuleLine] writes for it and a category without an arrow is
    read by [parseRules] as the rule of that keyword and category. *)
Theorem derived_keyword_plain (N : Type) (txn : Txn N) :
  containsWord (js "PAYPAL") false (toUpperCase (trim (description txn)))
  = true
  \/ indexOf (js "VISA-") (toUpperCase (trim (description txn))) = None ->
  deriveKeywordFromTxn txn <> [] ->
  plainKeyword (deriveKeywordFromTxn txn)
  /\ forall cat,
       cat <> [] -> trim cat = cat -> hasArrow cat = false ->
       parseRuleLine (ruleLine (deriveKeywordFromTxn txn) cat)
       = Some (Rule.mk (toLowerCase (deriveKeywordFromTxn txn))
                       (toUpperCase cat)).
Proof.
  intros Hb Hne.
  assert (P : plainKeyword (deriveKeywordFromTxn txn)).
  { unfold deriveKeywordFromTxn in *.
    set (desc := trim (description txn)) in *.
    destruct (negb (nonEmpty desc)); [congruence|].
    destruct (containsWord (js "PAYPAL") false (toUpperCase desc)) eqn:Ep.
    - pose proof (nextWordAfter_words (js "paypal") desc) as Hw.
      destruct (nextWordAfter (js "paypal") desc) as [|n0 nxt] eqn:En.
      + apply words_plain; [discriminate|].
        intros c Hc. vm_compute in Hc.
        repeat (destruct Hc as [<-|Hc]; [reflexivity|]). destruct Hc.
      + cbn [nonEmpty].
        assert (Hnz : n0 :: nxt <> []) by discriminate.
        destruct (exists_last Hnz) as [init [z Ez]].
        unfold toUpperCase. rewrite map_app.
        apply (@plain_of_words "P"%char (upperChar z)).
        * intros c Hc. apply in_app_or in Hc. destruct Hc as [Hc|Hc].
          -- left. vm_compute in Hc.
             repeat (destruct Hc as [<-|Hc]; [reflexivity|]). destruct Hc.
          -- cbn [map] in Hc. destruct Hc as [<-|Hc]; [now right|].
             left. now apply (@upper_words (n0 :: nxt) Hw).
        * eexists. reflexivity.
        * exists (map upperChar (js "PAYPAL")
                  ++ " "%char :: map upperChar init).
          rewrite Ez. cbn [map]. rewrite map_app, <- app_assoc. reflexivity.
        * reflexivity.
        * rewrite upper_word. apply Hw. rewrite Ez.
          apply in_or_app. right. now left.
    - destruct Hb as [Hb|Hb]; [discriminate|]. rewrite Hb in *.
      destruct (exec false merchantToken desc) as [m|] eqn:Em;
        cbn [option_map] in *; [|congruence].
      destruct (@merchant_search desc [] true m I Em)
        as [mid [tok [post [E1 [G [Hn [Hw _]]]]]]].
      rewrite G in *. apply words_plain.
      + unfold toUpperCase. intros E. apply map_eq_nil in E. congruence.
      + now apply (@upper_words tok). }
  split; [exact P|]. intros cat Hc Ht Ha.
  now apply parseRuleLine_ruleLine.
Qed.

Lemma derived_keyword_plain_witness :
  plainKeyword (js "PAYPAL JOHNSSTORE")
  /\ parseRuleLine (js "PAYPAL JOHNSSTORE => GIFTS")
     = Some (Rule.mk (js "paypal johnsstore") (js "GIFTS")).
Proof.
  destruct (@derived_keyword_plain float
              (mkTxn (js "01/02/2024") 0%float
                     (js "PayPal *JohnsStore 4029357733") None))
    as [H1 H2].
  - left. reflexivity.
  - discriminate.
  - split; [exact H1|].
    apply (H2 (js "GIFTS")); [discriminate | reflexivity | reflexivity].
Defined.

Section MonthOptions.
Context {N : Type}.

Lemma setAdd_In (x y : str) (s : list str) :
  In y (setAdd x s) <-> y = x \/ In y s.
Proof.
  unfold setAdd. destruct (existsb (eqStr x) s) eqn:E.
  - split; [now right|]. intros [->|H]; [|exact H].
    apply existsb_exists in E. destruct E as [z [Hz E]].
    apply eqStr_true in E. now subst.
  - rewrite in_app_iff. simpl. intuition.
Qed.

Lemma setAdd_NoDup (x : str) (s : list str) : NoDup s -> NoDup (setAdd x s).
Proof.
  intros H. unfold setAdd. destruct (existsb (eqStr x) s) eqn:E; [exact H|].
  apply NoDup_app; [exact H | repeat constructor; intros [] |].
  intros y Hy [Hx|[]]. subst y.
  assert (X : existsb (eqStr x) s = true)
    by (apply existsb_exists; exists x; split; [exact Hy | apply eqStr_refl]).
  congruence.
Qed.

Lemma months_fold (txns : list (Txn N)) (acc : list str) :
  let months :=
    fold_left (fun months t =>
                 match parseDateSmart (date t) with
                 | Some d => setAdd (yyyymm d) months
                 | None => months
                 end) txns acc in
  (NoDup acc -> NoDup months)
  /\ forall ym, In ym months
                <-> In ym acc
                    \/ exists t d, In t txns
                                   /\ parseDateSmart (date t) = Some d
                                   /\ yyyymm d = ym.
Proof.
  revert acc; induction txns as [|t txns IH]; intros acc; cbn [fold_left].
  - split; [auto|]. intros ym. split; [auto|].
    now intros [H|[t [d [[] _]]]].
  - destruct (parseDateSmart (date t)) as [d|] eqn:E.
    + destruct (IH (setAdd (yyyymm d) acc)) as [I1 I2]. split.
      * intros H. now apply I1, setAdd_NoDup.
      * intros ym. rewrite I2, setAdd_In. split.
        -- intros [[->|H]|[t' [d' [H1 [H2 H3]]]]].
           ++ right. exists t, d. split; [now left | now split].
           ++ now left.
           ++ right. exists t', d'. split; [now right | now split].
        -- intros [H|[t' [d' [[->|H1] [H2 H3]]]]].
           ++ left. now right.
           ++ left. left. congruence.
           ++ right. now exists t', d'.
    + destruct (IH acc) as [I1 I2]. split; [exact I1|].
      intros ym. rewrite I2. split.
      * intros [H|[t' [d' [H1 [H2 H3]]]]]; [now left|].
        right. exists t', d'. split; [now right | now split].
      * intros [H|[t' [d' [[->|H1] [H2 H3]]]]]; [now left | congruence |].
        right. now exists t', d'.
Qed.

Lemma insertStr_perm (x : str) (l : list str) :
  Permutation (insertStr x l) (x :: l).
Proof.
  induction l as [|y l IH]; simpl; [reflexivity|].
  destruct (leStr y x); [|reflexivity]. rewrite IH. apply perm_swap.
Qed.

Lemma sortStrings_perm (l : list str) : Permutation (sortStrings l) l.
Proof.
  unfold sortStrings.
  assert (G : forall acc,
             Permutation (fold_left (fun a x => insertStr x a) l acc)
                         (acc ++ l)).
  { induction l as [|x l IH]; intros acc; simpl.
    - now rewrite app_nil_r.
    - rewrite IH, insertStr_perm. apply Permutation_middle. }
  apply (G []).
Qed.

End MonthOptions.

(** X23.  The month dropdown lists each month that has a transaction, once:
    the options of [rebuildMonthDropdown] are distinct, an option is the
    month key of the date of some transaction, the list [monthFilteredTxns]
    gives for an option is not empty, and every transaction whose date
    parses is in the list of one of the options. *)
Theorem monthOptions_cover (N : Type) (txns : list (Txn N)) :
  NoDup (monthOptions txns)
  /\ (forall ym, In ym (monthOptions txns) ->
                 (exists t d, In t txns /\ parseDateSmart (date t) = Some d
                              /\ yyyymm d = ym)
                 /\ monthFilteredTxns ym txns <> [])
  /\ (forall t d, In t txns -> parseDateSmart (date t) = Some d ->
                  In (yyyymm d) (monthOptions txns)
                  /\ In t (monthFilteredTxns (yyyymm d) txns)).
Proof.
  unfold monthOptions.
  destruct (@months_fold N txns []) as [H1 H2]. cbn zeta in H1, H2.
  assert (Sel : forall t d, In t txns -> parseDateSmart (date t) = Some d ->
                            In t (monthFilteredTxns (yyyymm d) txns)).
  { intros t d Ht Hd. unfold monthFilteredTxns.
    rewrite yyyymm_nonEmpty. cbn [negb]. apply filter_In.
    split; [exact Ht|]. unfold inMonth. rewrite Hd. apply eqStr_refl. }
  split; [|split].
  - apply (Permutation_NoDup (Permutation_sym (sortStrings_perm _))).
    apply H1. constructor.
  - intros ym H. apply (Permutation_in _ (sortStrings_perm _)) in H.
    apply H2 in H. destruct H as [[]|[t [d [Ht [Hd <-]]]]].
    split; [now exists t, d|].
    intros E. pose proof (Sel t d Ht Hd) as X. rewrite E in X. destruct X.
  - intros t d Ht Hd. split; [|now apply Sel].
    apply (Permutation_in _ (Permutation_sym (sortStrings_perm _))).
    apply H2. right. now exists t, d.
Qed.
